(** * FBGEMM quantization utilities (include/fbgemm/QuantUtils.h)

    A shallow embedding of the scalar quantization arithmetic of the header:
    the saturating [clamp], the affine [Quantize]/[Dequantize] maps, the two
    [Requantize] paths and the bulk [Dequantize] loop, with the properties
    the specification states about them.

    Conventions of the embedding.
    - A value of a C++ integer type is a [Z] inside the range of the type;
      conversions and arithmetic reduce modulo [2^bits], written out in
      [cast].  The data model is LP64: [int] is 32 bits, [long],
      [long long] and [std::size_t] are 64 bits.
    - A [float] is an IEEE-754 binary32 value, [spec_float] of the standard
      library at precision 24 and [emax = 128]; every operation rounds to
      nearest, ties to even, which is the rounding direction a translation
      unit without [FENV_ACCESS] is compiled for.
    - [assert] is compiled out in optimised builds: the value functions model
      the code without it, and the asserted conditions are separate boolean
      definitions. *)

From Stdlib Require Import ZArith QArith Qabs Qpower Lia Lqa Bool.
From Stdlib Require Import Floats.SpecFloat.
From stdpp Require Import base option gmap.

Local Open Scope Z_scope.

(** ** Integer types *)

Inductive int_type : Type :=
| Int8 | UInt8 | Int16 | UInt16 | Int32 | UInt32 | Int64 | UInt64.

Definition bits (T : int_type) : Z :=
  match T with
  | Int8 | UInt8 => 8
  | Int16 | UInt16 => 16
  | Int32 | UInt32 => 32
  | Int64 | UInt64 => 64
  end.

(** [std::is_signed<T>::value] *)
Definition is_signed_v (T : int_type) : bool :=
  match T with
  | Int8 | Int16 | Int32 | Int64 => true
  | UInt8 | UInt16 | UInt32 | UInt64 => false
  end.

(** [std::numeric_limits<T>::lowest()] and [std::numeric_limits<T>::max()] *)
Definition lowest (T : int_type) : Z :=
  if is_signed_v T then - 2 ^ (bits T - 1) else 0.

Definition max_of (T : int_type) : Z :=
  if is_signed_v T then 2 ^ (bits T - 1) - 1 else 2 ^ bits T - 1.

Definition in_range (T : int_type) (z : Z) : Prop :=
  lowest T <= z <= max_of T.

Definition in_rangeb (T : int_type) (z : Z) : bool :=
  (lowest T <=? z) && (z <=? max_of T).

(** Conversion of an integer value to type [T]: the unique value of [T]
    congruent to it modulo [2^bits T]. *)
Definition cast (T : int_type) (z : Z) : Z :=
  if is_signed_v T
  then (z + 2 ^ (bits T - 1)) mod 2 ^ bits T - 2 ^ (bits T - 1)
  else z mod 2 ^ bits T.

(** The C++ names of the types the header uses. *)
Definition c_int : int_type := Int32.
Definition c_long : int_type := Int64.
Definition c_long_long : int_type := Int64.
Definition size_t : int_type := UInt64.

(** Integral promotion and the usual arithmetic conversions. *)
Definition promote (T : int_type) : int_type :=
  match T with
  | Int8 | UInt8 | Int16 | UInt16 => Int32
  | _ => T
  end.

Definition common_type (A B : int_type) : int_type :=
  match promote A, promote B with
  | UInt64, _ | _, UInt64 => UInt64
  | Int64, _ | _, Int64 => Int64
  | UInt32, _ | _, UInt32 => UInt32
  | _, _ => Int32
  end.

(** Arithmetic and comparison of two operands already converted to their
    common type [C].  For a signed [C] a result outside the range is
    undefined behaviour in C++; the embedding gives the two's complement
    result the hardware produces. *)
Definition c_add (C : int_type) (a b : Z) : Z := cast C (cast C a + cast C b).
Definition c_sub (C : int_type) (a b : Z) : Z := cast C (cast C a - cast C b).
Definition c_leb (C : int_type) (a b : Z) : bool := cast C a <=? cast C b.
Definition c_ltb (C : int_type) (a b : Z) : bool := cast C a <? cast C b.

(** [std::max<T>(a, b)] is [(a < b) ? b : a] and [std::min<T>(a, b)] is
    [(b < a) ? b : a]. *)
Definition std_max (a b : Z) : Z := if a <? b then b else a.
Definition std_min (a b : Z) : Z := if b <? a then b else a.

(** ** The clamp primitive *)

(** [1LL << n], a 64-bit shift; the language defines it for [0 <= n < 63]. *)
Definition shl_1LL (n : Z) : Z := cast c_long_long (Z.shiftl 1 n).

(** The locals [std::int32_t min] and [std::int32_t max] of [clamp]: the
    bounds are computed in [long long] and then stored in 32 bits. *)
Definition clamp_min (precision : Z) (is_signed : bool) : Z :=
  cast Int32 (if is_signed
              then cast c_long_long (- shl_1LL (precision - 1))
              else 0).

Definition clamp_max (precision : Z) (is_signed : bool) : Z :=
  cast Int32 (if is_signed
              then cast c_long_long (shl_1LL (precision - 1) - 1)
              else cast c_long_long (shl_1LL precision - 1)).

(** [template <T1, T2> T2 clamp(T1 src, int precision, bool is_signed)] *)
Definition clamp (T1 T2 : int_type) (src : Z) (precision : Z)
    (is_signed : bool) : Z :=
  let min := clamp_min precision is_signed in
  let max := clamp_max precision is_signed in
  cast T2 (std_min (std_max src (cast T1 min)) (cast T1 max)).

(** The four [assert]s of [clamp]; each compares an [int32_t] with a
    [numeric_limits] value of type [T1] or [T2] after the usual arithmetic
    conversions. *)
Definition clamp_asserts (T1 T2 : int_type) (precision : Z)
    (is_signed : bool) : bool :=
  let min := clamp_min precision is_signed in
  let max := clamp_max precision is_signed in
  c_leb (common_type Int32 T1) (lowest T1) min
  && c_leb (common_type Int32 T2) (lowest T2) min
  && c_leb (common_type Int32 T1) max (max_of T1)
  && c_leb (common_type Int32 T2) max (max_of T2).

(** The bounds the specification gives for a precision and signedness. *)
Definition spec_lo (precision : Z) (is_signed : bool) : Z :=
  if is_signed then - 2 ^ (precision - 1) else 0.

Definition spec_hi (precision : Z) (is_signed : bool) : Z :=
  if is_signed then 2 ^ (precision - 1) - 1 else 2 ^ precision - 1.

(** The precisions at which the 32-bit locals of [clamp] hold the bounds. *)
Definition bounds_fit_int32 (precision : Z) (is_signed : bool) : Prop :=
  1 <= precision /\ precision <= (if is_signed then 32 else 31).

(** ** Binary32 arithmetic *)

Definition float : Type := spec_float.

Definition prec : Z := 24.
Definition emax : Z := 128.

Definition fadd : float -> float -> float := SFadd prec emax.
Definition fmul : float -> float -> float := SFmul prec emax.
Definition fdiv : float -> float -> float := SFdiv prec emax.

(** Conversion of an integer to [float], rounded to nearest even. *)
Definition float_of_Z (z : Z) : float := binary_normalize prec emax z 0 false.

Definition is_finite (x : float) : bool :=
  match x with
  | S754_zero _ | S754_finite _ _ _ => true
  | _ => false
  end.

(** The sign bit of a [float]. *)
Definition float_sign (x : float) : bool :=
  match x with
  | S754_zero s | S754_infinity s | S754_finite s _ _ => s
  | S754_nan => false
  end.

(** The rational a finite [float] denotes. *)
Definition F2Q (x : float) : Q :=
  match x with
  | S754_finite s m e =>
      match e with
      | Zneg k => Qmake (cond_Zopp s (Zpos m)) (2 ^ k)
      | _ => inject_Z (cond_Zopp s (Zpos m) * 2 ^ e)
      end
  | _ => 0%Q
  end.

(** The power [2^z] as a rational, for any integer [z]. *)
Definition pow2 (z : Z) : Q := (2 ^ z)%Q.

(** The values a C++ [float] can hold: for a finite one the mantissa has
    at most 24 digits at an exponent the format allows, and fewer than 24
    digits only at the least exponent. *)
Definition is_binary32 (x : float) : Prop := valid_binary prec emax x = true.

(** The integer nearest to [m / 2^k], a tie going to the even neighbour. *)
Definition rne_shift (m k : Z) : Z :=
  let q := Z.shiftr m k in
  let r := m mod 2 ^ k in
  match 2 * r ?= 2 ^ k with
  | Lt => q
  | Gt => q + 1
  | Eq => if Z.even q then q else q + 1
  end.

(** The binary32 value of sign [s] and integer magnitude [p], the mantissa
    shifted up to 24 digits: the canonical form of every integer below
    [2^24], which the roundings of a value with a negative exponent are. *)
Definition small_int_float (s : bool) (p : positive) : float :=
  match Zpos (digits2_pos p) - 24 with
  | Zneg d => S754_finite s (Pos.iter xO p d) (Zneg d)
  | _ => S754_finite s p 0
  end.

(** [std::nearbyint] on [float] in the default rounding direction: the
    nearest integral value, ties to even, the sign of a zero result kept.
    A value with a non-negative exponent is integral already. *)
Definition nearbyint (x : float) : float :=
  match x with
  | S754_finite s m e =>
      if 0 <=? e then x
      else match rne_shift (Zpos m) (- e) with
           | Zpos p => small_int_float s p
           | _ => S754_zero s
           end
  | _ => x
  end.

(** [static_cast<T>(x)] of a [float]: truncation toward zero.  The
    conversion is undefined when the truncated value is not a value of [T]
    ([None]). *)
Definition float_to_int (T : int_type) (x : float) : option Z :=
  match x with
  | S754_zero _ => Some 0
  | S754_finite s m e =>
      let v := cond_Zopp s (if 0 <=? e then Zpos m * 2 ^ e
                            else Zpos m / 2 ^ (- e)) in
      if in_rangeb T v then Some v else None
  | _ => None
  end.

(** [std::lrintf]: the argument rounded to an integer in the default
    rounding direction, as a [long]; the result is unspecified when it is
    not a value of [long] ([None]). *)
Definition lrintf (x : float) : option Z :=
  match x with
  | S754_zero _ => Some 0
  | S754_finite s m e =>
      let v := cond_Zopp s (if 0 <=? e then Zpos m * 2 ^ e
                            else rne_shift (Zpos m) (- e)) in
      if in_rangeb c_long v then Some v else None
  | _ => None
  end.

(** ** Quantization parameters *)

Record TensorQuantizationParams : Type := {
  scale : float;
  zero_point : Z;
  precision : Z
}.

Record RequantizationParams : Type := {
  real_multiplier : float;
  multiplier : Z;
  right_shift : Z;
  target_qparams : TensorQuantizationParams
}.

(** ** Quantize and Dequantize *)

(** [const float transformed_val = zero_point + src / scale;] *)
Definition transformed_val (src : float) (zero_point : Z) (scale : float)
    : float :=
  fadd (float_of_Z zero_point) (fdiv src scale).

(** [template <T> T Quantize(float src, int32_t zero_point, float scale,
    int result_precision, bool result_is_signed)] *)
Definition Quantize (T : int_type) (src : float) (zero_point : Z)
    (scale : float) (result_precision : Z) (result_is_signed : bool)
    : option Z :=
  n ← float_to_int Int64 (nearbyint (transformed_val src zero_point scale));
  Some (clamp Int64 T n result_precision result_is_signed).

(** [template <T> T Quantize(float src, const TensorQuantizationParams&)];
    [result_is_signed] takes its default, [std::is_signed<T>::value]. *)
Definition Quantize_qparams (T : int_type) (src : float)
    (qparams : TensorQuantizationParams) : option Z :=
  Quantize T src (zero_point qparams) (scale qparams) (precision qparams)
    (is_signed_v T).

(** [template <T> float Dequantize(T src, const TensorQuantizationParams&)]:
    the difference is an integer subtraction in the common type of [T] and
    [int32_t], converted to [float] for the multiplication.  [src] is a
    value of [T]; an argument of another type is converted by the call, which
    is [cast T] at the call site. *)
Definition Dequantize (T : int_type) (src : Z)
    (qparams : TensorQuantizationParams) : float :=
  fmul (scale qparams)
       (float_of_Z (c_sub (common_type T Int32) src (zero_point qparams))).

(** ** Bulk Dequantize *)

(** Memory is a finite map from addresses, counted in elements, to cells. *)
Inductive cell : Type :=
| CInt (z : Z)
| CFloat (f : float).

Inductive outcome : Type :=
| Done (h : gmap Z cell) (iterations : Z)
| Fault
| OutOfFuel.

(** The loop [for (std::size_t i = 0; i < len; i++) dst[i] =
    Dequantize(src[i], qparams);] from index [i] on, [bound] being [len]
    converted to [std::size_t] for the comparison and [n] the number of
    iterations already performed.  Reading [src[i]] needs an integer cell
    and writing [dst[i]] an allocated one; otherwise the access is a
    [Fault].  Cells are indexed by element, so the model covers sources
    that hold values of [T] and index ranges that do not overlap: a source
    cell an earlier iteration has overwritten with a [float] is a [Fault]
    here, where the code reads the stored bytes back as a [T]. *)
Fixpoint Dequantize_loop (fuel : nat) (T : int_type) (src dst : Z)
    (bound : Z) (qparams : TensorQuantizationParams) (i n : Z)
    (h : gmap Z cell) : outcome :=
  match fuel with
  | O => OutOfFuel
  | S fuel' =>
      if c_ltb size_t i bound then
        match h !! (src + i), h !! (dst + i) with
        | Some (CInt q), Some _ =>
            Dequantize_loop fuel' T src dst bound qparams
              (c_add size_t i 1) (n + 1)
              (<[dst + i := CFloat (Dequantize T q qparams)]> h)
        | _, _ => Fault
        end
      else Done h n
  end.

(** [template <T> void Dequantize(const T* src, float* dst, int len,
    const TensorQuantizationParams& qparams)] *)
Definition Dequantize_bulk (fuel : nat) (T : int_type) (src dst : Z)
    (len : Z) (qparams : TensorQuantizationParams) (h : gmap Z cell)
    : outcome :=
  Dequantize_loop fuel T src dst (cast size_t len) qparams 0 0 h.

(** ** Requantization *)

Section Requantization.

(** [SaturatingRoundingMulWithShift] is declared by the header and defined
    elsewhere; the requantizers are stated for any such function. *)
Variable SaturatingRoundingMulWithShift : Z -> Z -> Z -> Z.

(** [template <T> T Requantize(int32_t src, int32_t zero_point,
    int32_t multiplier, int right_shift, int result_precision,
    bool result_is_signed = false)] *)
Definition Requantize (T : int_type) (src zero_point multiplier : Z)
    (right_shift result_precision : Z) (result_is_signed : bool) : Z :=
  let quantized_down :=
    c_add (common_type Int32 Int64) zero_point
      (SaturatingRoundingMulWithShift src multiplier right_shift) in
  clamp Int64 T quantized_down result_precision result_is_signed.

(** [template <T> T RequantizeFixedPoint(int32_t src,
    const RequantizationParams& params)] *)
Definition RequantizeFixedPoint (T : int_type) (src : Z)
    (params : RequantizationParams) : Z :=
  Requantize T src (zero_point (target_qparams params))
    (multiplier params) (right_shift params)
    (precision (target_qparams params)) false.

End Requantization.

(** [template <T> T Requantize(int32_t src, int32_t zero_point,
    float multiplier, int result_precision, bool result_is_signed = false)] *)
Definition Requantize_float (T : int_type) (src zero_point : Z)
    (multiplier : float) (result_precision : Z) (result_is_signed : bool)
    : option Z :=
  r ← lrintf (fmul (float_of_Z src) multiplier);
  let quantized_down := c_add (common_type Int32 c_long) zero_point r in
  Some (clamp c_long T quantized_down result_precision result_is_signed).

(** [template <T> T Requantize(int32_t src,
    const RequantizationParams& params)] *)
Definition Requantize_params (T : int_type) (src : Z)
    (params : RequantizationParams) : option Z :=
  Requantize_float T src (zero_point (target_qparams params))
    (real_multiplier params) (precision (target_qparams params)) false.

(** ** Reference definitions from the specification *)

(** Modelled from the spec: [SaturatingRoundingMulWithShift] (section 4.5),
    declared by the header and defined outside it.  The 64-bit product is
    returned as it is for a zero shift; otherwise [2^(right_shift-1)] is
    added before the arithmetic shift right; the pair of most negative
    operands saturates to the largest 64-bit value. *)
Definition SaturatingRoundingMulWithShift_spec (a b right_shift : Z) : Z :=
  if (a =? lowest Int32) && (b =? lowest Int32) then max_of Int64
  else
    let ab := cast Int64 (a * b) in
    if right_shift =? 0 then ab
    else Z.shiftr (c_add Int64 ab (shl_1LL (right_shift - 1))) right_shift.

(** Modelled from the spec: [TensorQuantizationParams::Min()] and [Max()]
    (section 8), declared by the header and defined outside it: the reals
    the two boundary integers of the quantized range dequantize to. *)
Definition Min (is_signed : bool) (qparams : TensorQuantizationParams)
    : float :=
  Dequantize Int32 (spec_lo (precision qparams) is_signed) qparams.

Definition Max (is_signed : bool) (qparams : TensorQuantizationParams)
    : float :=
  Dequantize Int32 (spec_hi (precision qparams) is_signed) qparams.

(** The rounding the specification names for the real-multiplier path:
    nearest integer, a tie going away from zero. *)
Definition round_half_away_from_zero (x : float) : Z :=
  match x with
  | S754_finite s m e =>
      cond_Zopp s
        (if 0 <=? e then Zpos m * 2 ^ e
         else let k := - e in
              if 2 ^ k <=? 2 * (Zpos m mod 2 ^ k)
              then Z.shiftr (Zpos m) k + 1
              else Z.shiftr (Zpos m) k)
  | _ => 0
  end.

(** ** Predicates of the statements *)

(** [n] is an integer nearest to the rational [q], and is even when [q] lies
    halfway between two integers. *)
Definition nearest_even (n : Z) (q : Q) : Prop :=
  (Qabs (inject_Z n - q) <= 1 # 2)%Q /\
  (Qabs (inject_Z n - q) == 1 # 2 -> Z.even n = true)%Q.

(** The invariants of the data model (section 3) for a tensor quantized to
    [precision] bits of the given signedness. *)
Definition valid_qparams (is_signed : bool)
    (qparams : TensorQuantizationParams) : Prop :=
  is_finite (scale qparams) = true /\
  (0 < F2Q (scale qparams))%Q /\
  1 <= precision qparams <= 32 /\
  spec_lo (precision qparams) is_signed <= zero_point qparams
    <= spec_hi (precision qparams) is_signed.

(** The binary32 operations of [Dequantize], resp. of [transformed_val],
    incur no rounding error at the given arguments. *)
Definition Dequantize_exact (T : int_type) (q : Z)
    (qparams : TensorQuantizationParams) : Prop :=
  (F2Q (Dequantize T q qparams)
   == F2Q (scale qparams) * inject_Z (q - zero_point qparams))%Q.

Definition transformed_val_exact (src : float) (zero_point : Z)
    (scale : float) : Prop :=
  (F2Q (transformed_val src zero_point scale)
   == inject_Z zero_point + F2Q src / F2Q scale)%Q.

(** The rounding error of the binary32 operations of [transformed_val],
    resp. of [Dequantize]: the distance of the value computed from the real
    number the formula denotes. *)
Definition transformed_val_error (src : float) (zero_point : Z)
    (scale : float) : Q :=
  Qabs (F2Q (transformed_val src zero_point scale)
        - (inject_Z zero_point + F2Q src / F2Q scale)).

Definition Dequantize_error (T : int_type) (q : Z)
    (qparams : TensorQuantizationParams) : Q :=
  Qabs (F2Q (Dequantize T q qparams)
        - F2Q (scale qparams) * inject_Z (q - zero_point qparams)).

(** The rounding error of [Min()], resp. [Max()], counted when [q] is that
    end [bound] of the quantized range. *)
Definition boundary_error (q bound : Z) (qparams : TensorQuantizationParams)
    : Q :=
  if q =? bound then Dequantize_error Int32 bound qparams else 0.

(** The rounding errors a round trip through [Quantize] and [Dequantize]
    commits at [src] when it yields [q]. *)
Definition round_trip_error (T : int_type) (src : float) (q : Z)
    (is_signed : bool) (qparams : TensorQuantizationParams) : Q :=
  F2Q (scale qparams)
    * transformed_val_error src (zero_point qparams) (scale qparams)
  + Dequantize_error T q qparams
  + boundary_error q (spec_lo (precision qparams) is_signed) qparams
  + boundary_error q (spec_hi (precision qparams) is_signed) qparams.

(** ** Example data *)

(** The binary32 values 0.5, its successor 0.5 + 2^-24, the nearest value to
    0.1, and 1.25. *)
Definition float_half : float := S754_finite false 8388608 (-24).
Definition float_half_succ : float := S754_finite false 8388609 (-24).
Definition float_tenth : float := fdiv (float_of_Z 1) (float_of_Z 10).
Definition float_five_quarters : float := S754_finite false 10485760 (-23).

Definition example_qparams : TensorQuantizationParams :=
  {| scale := float_half; zero_point := 10; precision := 8 |}.

(** The binary32 value nearest to 2/255 and the parameters of an 8-bit
    unsigned tensor over about [[-1, 1]]; the same tensor at scale 1. *)
Definition float_2_255 : float := fdiv (float_of_Z 2) (float_of_Z 255).

Definition unit_range_qparams : TensorQuantizationParams :=
  {| scale := float_2_255; zero_point := 128; precision := 8 |}.

Definition unit_scale_qparams : TensorQuantizationParams :=
  {| scale := float_of_Z 1; zero_point := 128; precision := 8 |}.

Definition example_requantization_params : RequantizationParams :=
  {| real_multiplier := float_of_Z 2;
     multiplier := 2000;
     right_shift := 10;
     target_qparams :=
       {| scale := float_of_Z 1; zero_point := 3; precision := 8 |} |}.

(** The same parameters with a 32-bit target. *)
Definition full_width_requantization_params : RequantizationParams :=
  {| real_multiplier := float_of_Z 2;
     multiplier := 2000;
     right_shift := 10;
     target_qparams :=
       {| scale := float_of_Z 1; zero_point := 3; precision := 32 |} |}.

(** A memory with two [uint8_t] sources at addresses 0 and 1 and two
    [float] destinations at addresses 10 and 11. *)
Definition example_heap : gmap Z cell :=
  <[0 := CInt 130]> (<[1 := CInt 126]>
    (<[10 := CFloat (S754_zero false)]>
      (<[11 := CFloat (S754_zero false)]> ∅))).

Definition example_src (i : Z) : Z := if i =? 0 then 130 else 126.

(** The memory after the first, resp. both, of its destinations have been
    written. *)
Definition example_heap_first : gmap Z cell :=
  <[10 := CFloat (Dequantize UInt8 130 example_qparams)]> example_heap.
Definition example_heap_both : gmap Z cell :=
  <[11 := CFloat (Dequantize UInt8 126 example_qparams)]> example_heap_first.

(** * Properties *)

(** ** Integer types and conversions *)

Ltac pow_consts :=
  change (2 ^ (8 - 1)) with 128 in *;
  change (2 ^ 8) with 256 in *;
  change (2 ^ (16 - 1)) with 32768 in *;
  change (2 ^ 16) with 65536 in *;
  change (2 ^ (32 - 1)) with 2147483648 in *;
  change (2 ^ 32) with 4294967296 in *;
  change (2 ^ (64 - 1)) with 9223372036854775808 in *;
  change (2 ^ 64) with 18446744073709551616 in *.

Ltac unfold_int :=
  cbv [in_range lowest max_of cast is_signed_v bits c_int c_long
       c_long_long size_t] in *;
  pow_consts.

Lemma in_rangeb_spec T z : in_rangeb T z = true <-> in_range T z.
Proof.
  unfold in_rangeb, in_range.
  rewrite andb_true_iff, !Z.leb_le. reflexivity.
Qed.

Lemma cast_id T z : in_range T z -> cast T z = z.
Proof.
  intros H. destruct T; unfold_int;
    Z.to_euclidean_division_equations; lia.
Qed.

Lemma cast_in_range T z : in_range T (cast T z).
Proof.
  destruct T; unfold_int; Z.to_euclidean_division_equations; lia.
Qed.

Lemma int32_in_int64 z : in_range Int32 z -> in_range Int64 z.
Proof. unfold_int. lia. Qed.

Lemma c_sub_cast C a b : c_sub C a b = cast C (a - b).
Proof.
  unfold c_sub. destruct C; unfold_int;
    Z.to_euclidean_division_equations; lia.
Qed.

Lemma std_max_Zmax a b : std_max a b = Z.max a b.
Proof. unfold std_max. destruct (Z.ltb_spec a b); lia. Qed.

Lemma std_min_Zmin a b : std_min a b = Z.min a b.
Proof. unfold std_min. destruct (Z.ltb_spec b a); lia. Qed.

(** ** The bounds of clamp *)

Lemma pow2_le_2_32 n : 0 <= n <= 32 -> 1 <= 2 ^ n <= 4294967296.
Proof.
  intros H. split.
  - pose proof (Z.pow_pos_nonneg 2 n). lia.
  - change 4294967296 with (2 ^ 32). apply Z.pow_le_mono_r; lia.
Qed.

Lemma shl_1LL_pow2 n : 0 <= n <= 32 -> shl_1LL n = 2 ^ n.
Proof.
  intros H. unfold shl_1LL. rewrite Z.shiftl_1_l.
  apply cast_id. pose proof (pow2_le_2_32 n H). unfold_int. lia.
Qed.

Lemma pow2_pred_double p : 1 <= p -> 2 ^ p = 2 * 2 ^ (p - 1).
Proof.
  intros H. replace p with (Z.succ (p - 1)) at 1 by lia.
  apply Z.pow_succ_r. lia.
Qed.

Lemma clamp_min_spec p sgn :
  bounds_fit_int32 p sgn -> clamp_min p sgn = spec_lo p sgn.
Proof.
  intros [H1 H2]. unfold clamp_min, spec_lo. destruct sgn.
  - rewrite shl_1LL_pow2 by lia.
    pose proof (pow2_le_2_32 (p - 1)). pose proof (pow2_pred_double p H1).
    pose proof (pow2_le_2_32 p).
    rewrite (cast_id c_long_long) by (unfold_int; lia).
    apply cast_id. unfold_int. lia.
  - reflexivity.
Qed.

Lemma clamp_max_spec p sgn :
  bounds_fit_int32 p sgn -> clamp_max p sgn = spec_hi p sgn.
Proof.
  intros [H1 H2]. unfold clamp_max, spec_hi.
  pose proof (pow2_le_2_32 (p - 1)). pose proof (pow2_pred_double p H1).
  destruct sgn.
  - pose proof (pow2_le_2_32 p).
    rewrite shl_1LL_pow2 by lia.
    rewrite (cast_id c_long_long) by (unfold_int; lia).
    apply cast_id. unfold_int. lia.
  - pose proof (pow2_le_2_32 (p + 1)).
    pose proof (pow2_pred_double (p + 1)).
    replace (p + 1 - 1) with p in * by lia.
    rewrite shl_1LL_pow2 by lia.
    rewrite (cast_id c_long_long) by (unfold_int; lia).
    apply cast_id. unfold_int. lia.
Qed.

Lemma spec_lo_le_hi p sgn : 1 <= p -> spec_lo p sgn <= spec_hi p sgn.
Proof.
  intros H. unfold spec_lo, spec_hi.
  pose proof (Z.pow_pos_nonneg 2 (p - 1)). pose proof (Z.pow_pos_nonneg 2 p).
  destruct sgn; lia.
Qed.

(** Inside the precisions whose bounds fit the 32-bit locals, [clamp]
    saturates to the bounds of the specification. *)
Lemma clamp_saturates T1 T2 src p sgn :
  bounds_fit_int32 p sgn ->
  in_range T1 (spec_lo p sgn) -> in_range T1 (spec_hi p sgn) ->
  in_range T2 (spec_lo p sgn) -> in_range T2 (spec_hi p sgn) ->
  clamp T1 T2 src p sgn = Z.min (Z.max src (spec_lo p sgn)) (spec_hi p sgn).
Proof.
  intros Hp Hl1 Hh1 Hl2 Hh2. unfold clamp.
  rewrite clamp_min_spec, clamp_max_spec by assumption.
  rewrite std_max_Zmax, std_min_Zmin, !(cast_id T1) by assumption.
  apply cast_id. pose proof (spec_lo_le_hi p sgn (proj1 Hp)).
  unfold in_range in *. lia.
Qed.

Lemma clamp_bounded T1 T2 src p sgn :
  bounds_fit_int32 p sgn ->
  in_range T1 (spec_lo p sgn) -> in_range T1 (spec_hi p sgn) ->
  in_range T2 (spec_lo p sgn) -> in_range T2 (spec_hi p sgn) ->
  spec_lo p sgn <= clamp T1 T2 src p sgn <= spec_hi p sgn.
Proof.
  intros Hp Hl1 Hh1 Hl2 Hh2.
  rewrite clamp_saturates by assumption.
  pose proof (spec_lo_le_hi p sgn (proj1 Hp)). lia.
Qed.

Lemma assert_lowest_holds T z :
  in_range Int32 z -> in_range T z ->
  c_leb (common_type Int32 T) (lowest T) z = true.
Proof.
  intros H32 HT. unfold c_leb. apply Z.leb_le.
  destruct T; cbv [common_type promote]; unfold_int;
    Z.to_euclidean_division_equations; lia.
Qed.

Lemma assert_max_holds T z :
  in_range Int32 z -> in_range T z ->
  c_leb (common_type Int32 T) z (max_of T) = true.
Proof.
  intros H32 HT. unfold c_leb. apply Z.leb_le.
  destruct T; cbv [common_type promote]; unfold_int;
    Z.to_euclidean_division_equations; lia.
Qed.

Lemma spec_bounds_int32 p sgn :
  bounds_fit_int32 p sgn ->
  in_range Int32 (spec_lo p sgn) /\ in_range Int32 (spec_hi p sgn).
Proof.
  intros [H1 H2]. unfold spec_lo, spec_hi.
  pose proof (pow2_le_2_32 (p - 1)). pose proof (pow2_pred_double p H1).
  destruct sgn; unfold_int.
  - pose proof (pow2_le_2_32 p). lia.
  - pose proof (pow2_le_2_32 (p + 1)). pose proof (pow2_pred_double (p + 1)).
    replace (p + 1 - 1) with p in * by lia. lia.
Qed.

(** Under the precondition of section 4.1 none of the assertions fires. *)
Lemma clamp_asserts_hold T1 T2 p sgn :
  bounds_fit_int32 p sgn ->
  in_range T1 (spec_lo p sgn) -> in_range T1 (spec_hi p sgn) ->
  in_range T2 (spec_lo p sgn) -> in_range T2 (spec_hi p sgn) ->
  clamp_asserts T1 T2 p sgn = true.
Proof.
  intros Hp Hl1 Hh1 Hl2 Hh2. unfold clamp_asserts.
  rewrite clamp_min_spec, clamp_max_spec by assumption.
  destruct (spec_bounds_int32 p sgn Hp) as [Hlo Hhi].
  rewrite !assert_lowest_holds, !assert_max_holds by assumption.
  reflexivity.
Qed.

(** The narrowing to [T2] is the last step: [clamp] saturates in [T1] and
    converts the saturated value. *)
Lemma clamp_narrows_last T1 T2 src p sgn :
  in_range T1 src ->
  clamp T1 T2 src p sgn = cast T2 (clamp T1 T1 src p sgn).
Proof.
  intros Hsrc. unfold clamp. f_equal. symmetry. apply cast_id.
  unfold std_min, std_max.
  repeat match goal with |- context [if ?b then _ else _] => destruct b end;
    auto using cast_in_range.
Qed.

(** C1: at precision 32 without sign the upper bound [2^32 - 1] is stored in
    the 32-bit local [max] as [-1]; [clamp<int64_t, uint32_t>] then passes
    its assertions and returns [2^32 - 1] whatever [src] is, where the
    specification gives [min(max(src, 0), 2^32 - 1)], for instance [5] at
    [src = 5]. *)
Theorem clamp_unsigned_32_ignores_src :
  in_range Int64 (spec_lo 32 false) /\ in_range Int64 (spec_hi 32 false) /\
  in_range UInt32 (spec_lo 32 false) /\ in_range UInt32 (spec_hi 32 false) /\
  clamp_max 32 false = -1 /\
  clamp_asserts Int64 UInt32 32 false = true /\
  (forall src, clamp Int64 UInt32 src 32 false = 4294967295) /\
  Z.min (Z.max 5 (spec_lo 32 false)) (spec_hi 32 false) = 5.
Proof.
  assert (Hr : forall T z, in_rangeb T z = true -> in_range T z)
    by (intros T z; apply in_rangeb_spec).
  split; [apply Hr; reflexivity|]. split; [apply Hr; reflexivity|].
  split; [apply Hr; reflexivity|]. split; [apply Hr; reflexivity|].
  split; [reflexivity|]. split; [reflexivity|]. split; [|reflexivity].
  intros src. unfold clamp.
  change (clamp_min 32 false) with 0. change (clamp_max 32 false) with (-1).
  change (cast Int64 0) with 0. change (cast Int64 (-1)) with (-1).
  unfold std_min, std_max.
  destruct (Z.ltb_spec src 0); destruct (Z.ltb_spec (-1) 0);
    destruct (Z.ltb_spec (-1) src); try lia; reflexivity.
Qed.

(** ** Rounding a binary32 value to an integer *)

Lemma rne_shift_nearest m k :
  0 <= m -> 0 < k ->
  let n := rne_shift m k in
  0 <= n /\
  2 * Z.abs (n * 2 ^ k - m) <= 2 ^ k /\
  (2 * Z.abs (n * 2 ^ k - m) = 2 ^ k -> Z.even n = true).
Proof.
  intros Hm Hk n. subst n. unfold rne_shift.
  rewrite Z.shiftr_div_pow2 by lia.
  assert (Hpow : 0 < 2 ^ k) by (apply Z.pow_pos_nonneg; lia).
  pose proof (Z.div_mod m (2 ^ k) ltac:(lia)) as Hdm.
  pose proof (Z.mod_pos_bound m (2 ^ k) Hpow) as Hr.
  assert (Hq : 0 <= m / 2 ^ k) by (apply Z.div_pos; lia).
  set (q := m / 2 ^ k) in *. set (r := m mod 2 ^ k) in *.
  set (d := 2 ^ k) in *. clearbody q r d.
  destruct (Z.compare_spec (2 * r) d) as [He|Hl|Hg].
  - destruct (Z.even q) eqn:Hev.
    + split; [lia|]. split; [nia|]. auto.
    + split; [lia|]. split; [nia|]. intros _.
      rewrite Z.even_add, Hev. reflexivity.
  - split; [lia|]. split; [nia|]. intros H. nia.
  - split; [lia|]. split; [nia|]. intros H. nia.
Qed.

Lemma rne_shift_small m k :
  0 <= m < 2 ^ 24 -> 0 < k -> 0 <= rne_shift m k < 2 ^ 24.
Proof.
  intros Hm Hk.
  destruct (rne_shift_nearest m k (proj1 Hm) Hk) as (Hn & Hnear & _).
  assert (Hd : 2 <= 2 ^ k).
  { change 2 with (2 ^ 1) at 1. apply Z.pow_le_mono_r; lia. }
  set (n := rne_shift m k) in *. set (d := 2 ^ k) in *. clearbody n d.
  change (2 ^ 24) with 16777216 in *. split; [assumption|]. nia.
Qed.

Lemma Qabs_diff_half (n a : Z) (d : positive) :
  ((Qabs (inject_Z n - (a # d)) <= 1 # 2)%Q <->
     2 * Z.abs (n * Zpos d - a) <= Zpos d) /\
  ((Qabs (inject_Z n - (a # d)) == 1 # 2)%Q <->
     2 * Z.abs (n * Zpos d - a) = Zpos d).
Proof.
  unfold Qminus, Qplus, Qopp, inject_Z, Qabs, Qle, Qeq. cbn.
  rewrite Pos.mul_1_l. lia.
Qed.

Lemma Qabs_inject_le (a : Z) (d : positive) (B : Z) :
  (Qabs (a # d) <= inject_Z B)%Q <-> Z.abs a <= B * Zpos d.
Proof.
  unfold Qabs, Qle, inject_Z. cbn. lia.
Qed.

Lemma nearest_even_ratio n a (d : positive) :
  2 * Z.abs (n * Zpos d - a) <= Zpos d ->
  (2 * Z.abs (n * Zpos d - a) = Zpos d -> Z.even n = true) ->
  nearest_even n (a # d).
Proof.
  intros Hle Htie. destruct (Qabs_diff_half n a d) as [H1 H2].
  split; [apply H1; exact Hle|]. intros H. apply Htie, H2, H.
Qed.

Lemma nearest_even_exact v : nearest_even v (inject_Z v).
Proof.
  change (inject_Z v) with (v # 1). apply nearest_even_ratio; lia.
Qed.

Lemma cond_Zopp_mul s a b : cond_Zopp s a * b = cond_Zopp s (a * b).
Proof. destruct s; cbn [cond_Zopp]; lia. Qed.

Lemma cond_Zopp_abs s a : Z.abs (cond_Zopp s a) = Z.abs a.
Proof. destruct s; cbn [cond_Zopp]; lia. Qed.

Lemma F2Q_nonneg_exp s m e :
  0 <= e -> F2Q (S754_finite s m e) = inject_Z (cond_Zopp s (Zpos m * 2 ^ e)).
Proof.
  intros He. destruct e; try lia; cbn [F2Q]; rewrite cond_Zopp_mul;
    reflexivity.
Qed.

Lemma lrintf_spec x B :
  is_finite x = true -> 0 <= B <= max_of Int64 ->
  (Qabs (F2Q x) <= inject_Z B)%Q ->
  exists n, lrintf x = Some n /\ - B <= n <= B /\ nearest_even n (F2Q x).
Proof.
  intros Hfin HB Habs. destruct x as [s|s| |s m e]; try discriminate Hfin.
  - exists 0. split; [reflexivity|]. split; [lia|]. apply nearest_even_exact.
  - cbn [lrintf]. destruct (Z.leb_spec 0 e) as [He|He].
    + rewrite F2Q_nonneg_exp in * by assumption.
      set (v := cond_Zopp s (Zpos m * 2 ^ e)) in *.
      assert (Hv : Z.abs v <= B).
      { change (inject_Z v) with (v # 1) in Habs.
        apply Qabs_inject_le in Habs. lia. }
      assert (Hr : in_rangeb c_long v = true)
        by (apply in_rangeb_spec; unfold_int; lia).
      rewrite Hr. exists v. split; [reflexivity|]. split; [lia|].
      apply nearest_even_exact.
    + destruct e as [|e|k]; try lia. cbn [F2Q] in *.
      change (- Zneg k) with (Zpos k).
      destruct (rne_shift_nearest (Zpos m) (Zpos k) ltac:(lia) ltac:(lia))
        as (Hn & Hnear & Htie).
      set (n := rne_shift (Zpos m) (Zpos k)) in *. clearbody n.
      apply Qabs_inject_le in Habs.
      rewrite cond_Zopp_abs, Pos2Z.inj_pow in Habs.
      assert (Hd : 0 < 2 ^ Zpos k) by (apply Z.pow_pos_nonneg; lia).
      assert (HnB : n <= B) by nia.
      assert (Hr : in_rangeb c_long (cond_Zopp s n) = true).
      { apply in_rangeb_spec. destruct s; cbn [cond_Zopp]; unfold_int; lia. }
      rewrite Hr. exists (cond_Zopp s n). split; [reflexivity|].
      split; [destruct s; cbn [cond_Zopp]; lia|].
      apply nearest_even_ratio; rewrite Pos2Z.inj_pow.
      * destruct s; cbn [cond_Zopp]; lia.
      * intros H. destruct s; cbn [cond_Zopp] in *.
        -- rewrite Z.even_opp. apply Htie. lia.
        -- apply Htie. lia.
Qed.

(** The same between two integer bounds: the rounding of a value between
    them lies between them. *)
Lemma lrintf_spec_between x lo hi :
  is_finite x = true -> lowest Int64 <= lo -> hi <= max_of Int64 ->
  (inject_Z lo <= F2Q x <= inject_Z hi)%Q ->
  exists n, lrintf x = Some n /\ lo <= n <= hi /\ nearest_even n (F2Q x).
Proof.
  intros Hfin Hlo Hhi [Hx1 Hx2].
  destruct x as [s|s| |s m e]; try discriminate Hfin.
  - unfold Qle, inject_Z in Hx1, Hx2. cbn in Hx1, Hx2.
    exists 0. split; [reflexivity|]. split; [lia|]. apply nearest_even_exact.
  - cbn [lrintf]. destruct (Z.leb_spec 0 e) as [He|He].
    + rewrite F2Q_nonneg_exp in * by assumption.
      set (v := cond_Zopp s (Zpos m * 2 ^ e)) in *.
      rewrite <- Zle_Qle in Hx1, Hx2.
      assert (Hr : in_rangeb c_long v = true)
        by (apply in_rangeb_spec; unfold_int; lia).
      rewrite Hr. exists v. split; [reflexivity|]. split; [lia|].
      apply nearest_even_exact.
    + destruct e as [|e|k]; try lia. cbn [F2Q] in *.
      change (- Zneg k) with (Zpos k).
      destruct (rne_shift_nearest (Zpos m) (Zpos k) ltac:(lia) ltac:(lia))
        as (Hn & Hnear & Htie).
      set (n := rne_shift (Zpos m) (Zpos k)) in *. clearbody n.
      unfold Qle, inject_Z in Hx1, Hx2. cbn [Qnum Qden] in Hx1, Hx2.
      rewrite Pos2Z.inj_pow in Hx1, Hx2. rewrite Z.mul_1_r in Hx1, Hx2.
      assert (Hd : 2 <= 2 ^ Zpos k).
      { change 2 with (2 ^ 1) at 1. apply Z.pow_le_mono_r; lia. }
      assert (Hb : lo <= cond_Zopp s n <= hi)
        by (destruct s; cbn [cond_Zopp] in *; nia).
      assert (Hr : in_rangeb c_long (cond_Zopp s n) = true)
        by (apply in_rangeb_spec; unfold_int; lia).
      rewrite Hr. exists (cond_Zopp s n). split; [reflexivity|].
      split; [exact Hb|].
      apply nearest_even_ratio; rewrite Pos2Z.inj_pow.
      * destruct s; cbn [cond_Zopp]; lia.
      * intros H. destruct s; cbn [cond_Zopp] in *.
        -- rewrite Z.even_opp. apply Htie. lia.
        -- apply Htie. lia.
Qed.

Lemma digits2_pos_bounds p :
  2 ^ (Zpos (digits2_pos p) - 1) <= Zpos p < 2 ^ Zpos (digits2_pos p).
Proof.
  induction p as [p IH|p IH|]; cbn [digits2_pos].
  - rewrite Pos2Z.inj_succ, Z.pow_succ_r by lia.
    replace (Z.succ (Zpos (digits2_pos p)) - 1)
      with (Z.succ (Zpos (digits2_pos p) - 1)) by lia.
    rewrite Z.pow_succ_r by lia. lia.
  - rewrite Pos2Z.inj_succ, Z.pow_succ_r by lia.
    replace (Z.succ (Zpos (digits2_pos p)) - 1)
      with (Z.succ (Zpos (digits2_pos p) - 1)) by lia.
    rewrite Z.pow_succ_r by lia. lia.
  - cbn. lia.
Qed.

Lemma digits_le_24 p : Zpos p < 2 ^ 24 <-> Zpos (digits2_pos p) <= 24.
Proof.
  pose proof (digits2_pos_bounds p) as [Hlo Hhi]. split; intros H.
  - destruct (Z.le_gt_cases (Zpos (digits2_pos p)) 24) as [|Hgt]; [assumption|].
    assert (2 ^ 24 <= 2 ^ (Zpos (digits2_pos p) - 1))
      by (apply Z.pow_le_mono_r; lia). lia.
  - assert (2 ^ Zpos (digits2_pos p) <= 2 ^ 24)
      by (apply Z.pow_le_mono_r; lia). lia.
Qed.

Lemma valid_mantissa s m e :
  valid_binary prec emax (S754_finite s m e) = true -> Zpos m < 2 ^ 24.
Proof.
  cbn [valid_binary]. unfold bounded, canonical_mantissa.
  rewrite andb_true_iff, Z.eqb_eq. intros [Hc _].
  apply digits_le_24. unfold fexp, emin, prec, emax in Hc. lia.
Qed.

Lemma iter_xO_value n p : Zpos (Pos.iter xO p n) = Zpos p * 2 ^ Zpos n.
Proof.
  revert p. induction n using Pos.peano_ind; intros p.
  - cbn. lia.
  - rewrite Pos.iter_succ, Pos2Z.inj_succ, Z.pow_succ_r by lia.
    rewrite Pos2Z.inj_xO, IHn. lia.
Qed.

Lemma iter_xO_digits n p :
  digits2_pos (Pos.iter xO p n) = (digits2_pos p + n)%positive.
Proof.
  induction n using Pos.peano_ind.
  - cbn. lia.
  - rewrite Pos.iter_succ. cbn [digits2_pos]. rewrite IHn. lia.
Qed.

Lemma binary_round_aux_canonical s m e :
  Zpos (digits2_pos m) = 24 -> -149 <= e <= 104 ->
  binary_round_aux prec emax s (Zpos m) e loc_Exact = S754_finite s m e.
Proof.
  intros Hd He. unfold binary_round_aux, shr_fexp. cbn [Zdigits2].
  assert (Hf : fexp prec emax (Zpos (digits2_pos m) + e) - e = 0)
    by (unfold fexp, emin, prec, emax; lia).
  rewrite Hf.
  cbn [shr shr_record_of_loc shr_m loc_of_shr_record round_nearest_even].
  cbn [Zdigits2]. rewrite Hf. cbn [shr shr_record_of_loc shr_m].
  destruct (Z.leb_spec e (emax - prec)); [reflexivity|].
  unfold emax, prec in *. lia.
Qed.

Lemma binary_round_small s p :
  Zpos (digits2_pos p) <= 24 ->
  binary_round prec emax s p 0 = small_int_float s p.
Proof.
  intros Hd. unfold binary_round, small_int_float, shl_align.
  assert (Hf : fexp prec emax (Zpos (digits2_pos p) + 0)
               = Zpos (digits2_pos p) - 24)
    by (unfold fexp, emin, prec, emax; lia).
  rewrite Hf, Z.sub_0_r.
  destruct (Zpos (digits2_pos p) - 24) as [|d|d] eqn:He; try lia.
  - apply binary_round_aux_canonical; lia.
  - apply binary_round_aux_canonical; [rewrite iter_xO_digits|]; lia.
Qed.

(** The integral value [nearbyint] builds is the one the conversion of the
    integer to binary32 yields. *)
Lemma binary_normalize_small s n :
  0 <= n < 2 ^ 24 ->
  binary_normalize prec emax (cond_Zopp s n) 0 s
  = match n with
    | Zpos p => small_int_float s p
    | _ => S754_zero s
    end.
Proof.
  intros Hn. destruct n as [|p|p]; [destruct s; reflexivity| |lia].
  assert (Hd : Zpos (digits2_pos p) <= 24) by (apply digits_le_24; lia).
  rewrite <- binary_round_small by assumption. destruct s; reflexivity.
Qed.

Lemma nearbyint_rounds_to_float s m e :
  valid_binary prec emax (S754_finite s m e) = true -> e < 0 ->
  nearbyint (S754_finite s m e)
  = binary_normalize prec emax
      (cond_Zopp s (rne_shift (Zpos m) (- e))) 0 s.
Proof.
  intros Hv He. pose proof (valid_mantissa s m e Hv) as Hm.
  rewrite binary_normalize_small by (apply rne_shift_small; lia).
  cbn [nearbyint]. destruct (Z.leb_spec 0 e); [lia|reflexivity].
Qed.

Lemma float_to_int_small T s p :
  float_to_int T (small_int_float s p)
  = if in_rangeb T (cond_Zopp s (Zpos p)) then Some (cond_Zopp s (Zpos p))
    else None.
Proof.
  unfold small_int_float.
  destruct (Zpos (digits2_pos p) - 24) as [|d|d] eqn:He.
  - cbn [float_to_int]. change (0 <=? 0) with true. cbv iota.
    rewrite Z.pow_0_r, Z.mul_1_r. reflexivity.
  - cbn [float_to_int]. change (0 <=? 0) with true. cbv iota.
    rewrite Z.pow_0_r, Z.mul_1_r. reflexivity.
  - cbn [float_to_int]. change (0 <=? Zneg d) with false. cbv iota.
    rewrite iter_xO_value. change (- Zneg d) with (Zpos d).
    rewrite Z.div_mul by (apply Z.pow_nonzero; lia). reflexivity.
Qed.

(** [std::nearbyint] followed by the conversion to [int64_t] yields what
    [std::lrintf] yields. *)
Lemma nearbyint_then_cast x :
  float_to_int Int64 (nearbyint x) = lrintf x.
Proof.
  destruct x as [s|s| |s m e]; try reflexivity.
  cbn [nearbyint lrintf]. destruct (Z.leb_spec 0 e) as [He|He].
  - cbn [float_to_int]. destruct (Z.leb_spec 0 e); [reflexivity|lia].
  - destruct (rne_shift_nearest (Zpos m) (- e) ltac:(lia) ltac:(lia))
      as (Hn & _).
    destruct (rne_shift (Zpos m) (- e)) as [|p|p]; [| |lia].
    + destruct s; reflexivity.
    + apply float_to_int_small.
Qed.

(** ** Binary32 rounding: magnitude and error bounds *)

(** The operations of [SpecFloat] round through [binary_round_aux].  This
    part derives, from its definition, that a rounding does not cross a
    power of two, that an aligned rounding returns a value of the format,
    and that a finite result is off the real value by at most
    [2^-23 * |v| + 2^-149]; and from these the bounds on [fadd], [fmul],
    [fdiv] and [float_of_Z] the quantization error needs. *)


Lemma pow2_pos z : (0 < pow2 z)%Q.
Proof. apply Qpower_0_lt. reflexivity. Qed.

Lemma pow2_add a b : (pow2 (a + b) == pow2 a * pow2 b)%Q.
Proof. apply Qpower_plus. discriminate. Qed.

Lemma pow2_le a b : a <= b -> (pow2 a <= pow2 b)%Q.
Proof. intros H. apply Qpower_le_compat_l; [exact H|]. discriminate. Qed.

Lemma pow2_nonneg_exp z : 0 <= z -> (pow2 z == inject_Z (2 ^ z))%Q.
Proof. intros H. unfold pow2. rewrite Zpower_Qpower by exact H. reflexivity. Qed.

Lemma pow2_neg_exp k : (pow2 (Zneg k) == 1 # (2 ^ k))%Q.
Proof.
  unfold pow2. change (Zneg k) with (- Zpos k). rewrite Qpower_opp.
  change 2%Q with (inject_Z 2). rewrite <- Zpower_Qpower by lia.
  rewrite <- Pos2Z.inj_pow. reflexivity.
Qed.

Lemma F2Q_pow2 s m e :
  (F2Q (S754_finite s m e) == inject_Z (cond_Zopp s (Zpos m)) * pow2 e)%Q.
Proof.
  destruct e as [|e|k].
  - cbn [F2Q]. rewrite Z.mul_1_r. unfold pow2. rewrite Qpower_0_r. ring.
  - cbn [F2Q]. rewrite inject_Z_mult, pow2_nonneg_exp by lia. reflexivity.
  - cbn [F2Q]. rewrite pow2_neg_exp.
    unfold Qeq, Qmult, inject_Z. cbn. lia.
Qed.

Lemma iter_pos_nat {A : Type} (f : A -> A) p x :
  SpecFloat.iter_pos f p x = Nat.iter (Pos.to_nat p) f x.
Proof.
  revert x. induction p as [p IH|p IH|]; intros x; cbn [SpecFloat.iter_pos].
  - rewrite !IH, Pos2Nat.inj_xI.
    replace (S (2 * Pos.to_nat p)) with (Pos.to_nat p + (Pos.to_nat p + 1))%nat
      by lia.
    rewrite !Nat.iter_add. reflexivity.
  - rewrite !IH, Pos2Nat.inj_xO.
    replace (2 * Pos.to_nat p)%nat with (Pos.to_nat p + Pos.to_nat p)%nat
      by lia.
    rewrite Nat.iter_add. reflexivity.
  - reflexivity.
Qed.

Lemma shr_1_m mrs : 0 <= shr_m mrs -> shr_m (shr_1 mrs) = shr_m mrs / 2.
Proof.
  destruct mrs as [m r s]. cbn [shr_m]. intros Hm.
  destruct m as [|[p|p|]|p]; cbn [shr_1 shr_m]; try reflexivity; try lia.
  - rewrite Pos2Z.inj_xI. apply Z.div_unique with 1; lia.
  - rewrite Pos2Z.inj_xO. apply Z.div_unique with 0; lia.
Qed.

Lemma shr_iter_m n mrs :
  0 <= shr_m mrs ->
  shr_m (Nat.iter n shr_1 mrs) = shr_m mrs / 2 ^ Z.of_nat n.
Proof.
  intros Hm. induction n as [|n IH].
  - cbn. rewrite Z.div_1_r. reflexivity.
  - rewrite Nat.iter_succ, shr_1_m.
    + rewrite IH, Nat2Z.inj_succ, Z.pow_succ_r by lia.
      rewrite Z.div_div by lia. f_equal. lia.
    + rewrite IH. apply Z.div_pos; [exact Hm|]. apply Z.pow_pos_nonneg; lia.
Qed.

Lemma shr_1_exact m :
  0 <= m -> m mod 2 = 0 ->
  shr_1 (Build_shr_record m false false) = Build_shr_record (m / 2) false false.
Proof.
  intros Hm Hmod. destruct m as [|[p|p|]|p].
  - reflexivity.
  - exfalso. rewrite Pos2Z.inj_xI, Z.add_comm, Z.mul_comm, Z.mod_add in Hmod
      by lia. discriminate Hmod.
  - cbn [shr_1 orb]. f_equal. rewrite Pos2Z.inj_xO.
    apply Z.div_unique with 0; lia.
  - discriminate Hmod.
  - lia.
Qed.

Lemma shr_iter_exact n m :
  0 <= m -> m mod 2 ^ Z.of_nat n = 0 ->
  Nat.iter n shr_1 (Build_shr_record m false false)
  = Build_shr_record (m / 2 ^ Z.of_nat n) false false.
Proof.
  revert m. induction n as [|n IH]; intros m Hm Hmod.
  - cbn. rewrite Z.div_1_r. reflexivity.
  - rewrite Nat2Z.inj_succ, Z.pow_succ_r in * by lia.
    assert (Hp : 0 < 2 ^ Z.of_nat n) by (apply Z.pow_pos_nonneg; lia).
    rewrite Nat.iter_succ_r.
    assert (H2 : m mod 2 = 0).
    { apply Z.mod_divide in Hmod; [|lia]. apply Z.mod_divide; [lia|].
      destruct Hmod as [c Hc]. exists (c * 2 ^ Z.of_nat n). lia. }
    rewrite shr_1_exact by assumption.
    rewrite IH.
    + rewrite Z.div_div by lia. reflexivity.
    + apply Z.div_pos; lia.
    + apply Z.mod_divide in Hmod; [|lia]. apply Z.mod_divide; [lia|].
      destruct Hmod as [c Hc]. exists c. subst m.
      replace (c * (2 * 2 ^ Z.of_nat n)) with (c * 2 ^ Z.of_nat n * 2) by lia.
      rewrite Z.div_mul by lia. reflexivity.
Qed.

Lemma round_nearest_even_cases m l :
  round_nearest_even m l = m \/
  (round_nearest_even m l = m + 1 /\ l <> loc_Exact).
Proof.
  destruct l as [|[| |]]; cbn [round_nearest_even].
  - left. reflexivity.
  - destruct (Z.even m); [left; reflexivity|right; split; [reflexivity|discriminate]].
  - left. reflexivity.
  - right. split; [reflexivity|discriminate].
Qed.

Lemma loc_of_shr_record_of_loc m l :
  loc_of_shr_record (shr_record_of_loc m l) = l /\
  shr_m (shr_record_of_loc m l) = m.
Proof. destruct l as [|[| |]]; split; reflexivity. Qed.

(** The first step of a rounding: the mantissa shifted right by [n] digits,
    exactly so only when nothing is lost. *)
Lemma shr_fexp_spec m e l :
  0 <= m ->
  let n := Z.max 0 (fexp prec emax (Zdigits2 m + e) - e) in
  exists mrs,
    shr_fexp prec emax m e l = (mrs, e + n) /\
    shr_m mrs = m / 2 ^ n /\
    (l = loc_Exact -> m mod 2 ^ n = 0 -> loc_of_shr_record mrs = loc_Exact).
Proof.
  intros Hm n. unfold shr_fexp, shr. subst n.
  destruct (fexp prec emax (Zdigits2 m + e) - e) as [|p|p] eqn:Hn.
  - exists (shr_record_of_loc m l). cbn [Z.max Z.compare].
    rewrite Z.add_0_r, Z.pow_0_r, Z.div_1_r.
    destruct (loc_of_shr_record_of_loc m l) as [H1 H2].
    split; [reflexivity|]. split; [exact H2|]. intros -> _. exact H1.
  - exists (SpecFloat.iter_pos shr_1 p (shr_record_of_loc m l)).
    replace (Z.max 0 (Zpos p)) with (Zpos p) by lia.
    split; [reflexivity|]. rewrite iter_pos_nat.
    destruct (loc_of_shr_record_of_loc m l) as [H1 H2].
    split.
    + rewrite shr_iter_m by (rewrite H2; exact Hm).
      rewrite H2, positive_nat_Z. reflexivity.
    + intros -> Hmod. cbn [shr_record_of_loc].
      rewrite shr_iter_exact; [reflexivity|exact Hm|].
      rewrite positive_nat_Z. exact Hmod.
  - exists (shr_record_of_loc m l).
    replace (Z.max 0 (Zneg p)) with 0 by lia.
    rewrite Z.add_0_r, Z.pow_0_r, Z.div_1_r.
    destruct (loc_of_shr_record_of_loc m l) as [H1 H2].
    split; [reflexivity|]. split; [exact H2|]. intros -> _. exact H1.
Qed.

Lemma Zdigits2_bounds m :
  0 < m -> 2 ^ (Zdigits2 m - 1) <= m < 2 ^ Zdigits2 m.
Proof.
  intros Hm. destruct m as [|p|p]; try lia. apply digits2_pos_bounds.
Qed.

Lemma Zdigits2_nonneg m : 0 <= Zdigits2 m.
Proof. destruct m; cbn; lia. Qed.

Lemma Zdigits2_le m k : 0 <= m < 2 ^ k -> 0 <= k -> Zdigits2 m <= k.
Proof.
  intros Hm Hk. destruct (Z.eq_dec m 0) as [->|Hne]; [exact Hk|].
  destruct (Zdigits2_bounds m ltac:(lia)) as [Hlo _].
  destruct (Z.le_gt_cases (Zdigits2 m) k) as [|Hgt]; [assumption|].
  assert (2 ^ k <= 2 ^ (Zdigits2 m - 1)) by (apply Z.pow_le_mono_r; lia).
  lia.
Qed.

Lemma Zdigits2_pow2 k : 0 <= k -> Zdigits2 (2 ^ k) = k + 1.
Proof.
  intros Hk. assert (Hp : 0 < 2 ^ k) by (apply Z.pow_pos_nonneg; lia).
  destruct (Zdigits2_bounds (2 ^ k) Hp) as [Hlo Hhi].
  pose proof (Zdigits2_nonneg (2 ^ k)).
  apply Z.pow_lt_mono_r_iff in Hhi; [|lia|lia].
  apply Z.pow_le_mono_r_iff in Hlo; [|lia|lia]. lia.
Qed.

Lemma Zdigits2_ge m j : 2 ^ j <= m -> 0 <= j -> j + 1 <= Zdigits2 m.
Proof.
  intros Hm Hj. assert (Hp : 0 < 2 ^ j) by (apply Z.pow_pos_nonneg; lia).
  destruct (Zdigits2_bounds m ltac:(lia)) as [_ Hhi].
  pose proof (Zdigits2_nonneg m).
  assert (Hlt : 2 ^ j < 2 ^ Zdigits2 m) by lia.
  apply Z.pow_lt_mono_r_iff in Hlt; lia.
Qed.

(** The mantissa left by the first shift of a rounding has at most 24
    digits, and its exponent is at least [emin]. *)
Lemma shifted_mantissa_small m e :
  0 <= m ->
  let n := Z.max 0 (fexp prec emax (Zdigits2 m + e) - e) in
  0 <= m / 2 ^ n < 2 ^ 24 /\ -149 <= e + n /\ 0 <= n.
Proof.
  intros Hm n.
  assert (Hn : 0 <= n) by (unfold n; lia).
  assert (Hp : 0 < 2 ^ n) by (apply Z.pow_pos_nonneg; lia).
  assert (He : -149 <= e + n)
    by (unfold n, fexp, emin, prec, emax; lia).
  split; [|split; assumption]. split; [apply Z.div_pos; lia|].
  destruct (Z.eq_dec m 0) as [->|Hne].
  { rewrite Z.div_0_l by lia. reflexivity. }
  destruct (Zdigits2_bounds m ltac:(lia)) as [_ Hhi].
  apply Z.div_lt_upper_bound; [exact Hp|].
  rewrite <- Z.pow_add_r by lia.
  eapply Z.lt_le_trans; [exact Hhi|].
  apply Z.pow_le_mono_r; [lia|].
  unfold n, fexp, emin, prec, emax. lia.
Qed.

(** What a rounding returns: the shifted mantissa or its successor, the
    latter only when digits are lost, at the shifted exponent, a carry into
    a 25th digit moving to the next exponent; or an infinity when the
    exponent is beyond the format. *)
Lemma binary_round_aux_cases s m e l :
  0 <= m ->
  let n := Z.max 0 (fexp prec emax (Zdigits2 m + e) - e) in
  let r := binary_round_aux prec emax s m e l in
  exists m',
    (m' = m / 2 ^ n \/
     (m' = m / 2 ^ n + 1 /\ (l <> loc_Exact \/ m mod 2 ^ n <> 0))) /\
    ((m' = 0 /\ r = S754_zero s) \/
     (exists p, Zpos p = m' /\ m' < 2 ^ 24 /\
        r = if e + n <=? 104 then S754_finite s p (e + n)
            else S754_infinity s) \/
     (m' = 2 ^ 24 /\
      r = if e + n + 1 <=? 104 then S754_finite s 8388608 (e + n + 1)
          else S754_infinity s)).
Proof.
  intros Hm n r.
  destruct (shifted_mantissa_small m e Hm) as (Hm1 & He' & Hn).
  fold n in Hm1, He', Hn.
  destruct (shr_fexp_spec m e l Hm) as (mrs & Hshr & Hmrs & Hexact).
  fold n in Hshr, Hmrs, Hexact.
  set (m' := round_nearest_even (shr_m mrs) (loc_of_shr_record mrs)).
  assert (Hm' : m' = m / 2 ^ n \/
                (m' = m / 2 ^ n + 1 /\ (l <> loc_Exact \/ m mod 2 ^ n <> 0))).
  { destruct (round_nearest_even_cases (shr_m mrs) (loc_of_shr_record mrs))
      as [H|[H Hl]]; fold m' in H; rewrite Hmrs in H; [left; exact H|].
    right. split; [exact H|].
    destruct l as [|c]; [|left; discriminate].
    right. intros Hmod. apply Hl, Hexact; [reflexivity|exact Hmod]. }
  exists m'. split; [exact Hm'|].
  assert (Hm'r : 0 <= m' <= 2 ^ 24) by lia.
  destruct (shr_fexp_spec m' (e + n) loc_Exact ltac:(lia))
    as (mrs2 & Hshr2 & Hmrs2 & _).
  assert (Hr : r = match shr_m mrs2 with
                   | 0 => S754_zero s
                   | Zpos p =>
                       if e + n + Z.max 0 (fexp prec emax (Zdigits2 m' + (e + n))
                                           - (e + n)) <=? emax - prec
                       then S754_finite s p
                              (e + n + Z.max 0 (fexp prec emax
                                                  (Zdigits2 m' + (e + n))
                                                - (e + n)))
                       else S754_infinity s
                   | Zneg _ => S754_nan
                   end).
  { unfold r, binary_round_aux. rewrite Hshr. fold m'. rewrite Hshr2.
    reflexivity. }
  clearbody r m'. clear Hshr Hshr2 Hexact Hmrs mrs Hm'.
  change (emax - prec) with 104 in Hr.
  destruct (Z.eq_dec m' (2 ^ 24)) as [Heq|Hne].
  - (* a carry into the 25th digit *)
    right. right. split; [exact Heq|].
    subst m'. rewrite Zdigits2_pow2 in * by lia.
    replace (Z.max 0 (fexp prec emax (24 + 1 + (e + n)) - (e + n))) with 1
      in * by (unfold fexp, emin, prec, emax; lia).
    change (2 ^ 24 / 2 ^ 1) with (Zpos 8388608) in Hmrs2.
    rewrite Hmrs2 in Hr. exact Hr.
  - assert (Hd : Zdigits2 m' <= 24) by (apply Zdigits2_le; lia).
    replace (Z.max 0 (fexp prec emax (Zdigits2 m' + (e + n)) - (e + n)))
      with 0 in * by (unfold fexp, emin, prec, emax; lia).
    rewrite Z.pow_0_r, Z.div_1_r in Hmrs2. rewrite Z.add_0_r in Hr.
    rewrite Hmrs2 in Hr.
    destruct m' as [|p|p]; [| |lia].
    + left. split; [reflexivity|exact Hr].
    + right. left. exists p. split; [reflexivity|]. split; [lia|exact Hr].
Qed.

(** The value and the overflow condition of a rounding. *)
Lemma binary_round_aux_spec s m e l :
  0 <= m ->
  let n := Z.max 0 (fexp prec emax (Zdigits2 m + e) - e) in
  let r := binary_round_aux prec emax s m e l in
  exists m',
    (m' = m / 2 ^ n \/
     (m' = m / 2 ^ n + 1 /\ (l <> loc_Exact \/ m mod 2 ^ n <> 0))) /\
    ((is_finite r = true /\
      (F2Q r == inject_Z (cond_Zopp s m') * pow2 (e + n))%Q) \/
     (r = S754_infinity s /\ 0 < m' /\
      104 < e + n + (if m' =? 2 ^ 24 then 1 else 0))).
Proof.
  intros Hm n r.
  destruct (binary_round_aux_cases s m e l Hm) as (m' & Hm' & Hres).
  fold n r in Hm', Hres. exists m'. split; [exact Hm'|]. clear Hm'.
  clearbody r n.
  destruct Hres as [[-> ->]|[(p & Hp & Hlt & ->)|[-> ->]]].
  - left. split; [reflexivity|]. cbn [F2Q].
    assert (H0 : cond_Zopp s 0 = 0) by (destruct s; reflexivity).
    rewrite H0. change (inject_Z 0) with 0%Q. ring.
  - destruct (Z.eqb_spec m' (2 ^ 24)) as [|_]; [lia|].
    destruct (Z.leb_spec (e + n) 104) as [Hle|Hgt].
    + left. split; [reflexivity|]. rewrite <- Hp. apply F2Q_pow2.
    + right. split; [reflexivity|]. lia.
  - rewrite Z.eqb_refl.
    destruct (Z.leb_spec (e + n + 1) 104) as [Hle|Hgt].
    + left. split; [reflexivity|].
      rewrite F2Q_pow2, pow2_add.
      assert (Hc : (inject_Z (cond_Zopp s (2 ^ 24))
                    == inject_Z (cond_Zopp s (Zpos 8388608)) * pow2 1)%Q)
        by (destruct s; reflexivity).
      rewrite Hc. ring.
    + right. split; [reflexivity|]. lia.
Qed.

(** A rounding of a mantissa that is not shorter than the format asks for
    returns a value of the format. *)
Lemma binary_round_aux_valid s m e l :
  0 <= m -> e <= fexp prec emax (Zdigits2 m + e) ->
  valid_binary prec emax (binary_round_aux prec emax s m e l) = true.
Proof.
  intros Hm Halign.
  destruct (binary_round_aux_cases s m e l Hm) as (m' & Hm' & Hres).
  destruct (shifted_mantissa_small m e Hm) as (Hm1 & He' & Hn).
  set (n := Z.max 0 (fexp prec emax (Zdigits2 m + e) - e)) in *.
  set (r := binary_round_aux prec emax s m e l) in *.
  assert (Hp : 0 < 2 ^ n) by (apply Z.pow_pos_nonneg; lia).
  (* a result above the least exponent has all 24 digits *)
  assert (Hfull : -149 < e + n -> 0 < m' -> 2 ^ 23 <= m').
  { intros He Hpos. destruct (Z.eq_dec m 0) as [H0|H0].
    - exfalso. subst m. unfold n, fexp, emin, prec, emax in *.
      cbn [Zdigits2] in *. lia.
    - destruct (Zdigits2_bounds m ltac:(lia)) as [Hlo _].
      assert (Hn' : n = Zdigits2 m - 24)
        by (unfold n, fexp, emin, prec, emax in *; lia).
      assert (H23 : 2 ^ 23 <= m / 2 ^ n).
      { apply Z.div_le_lower_bound; [exact Hp|].
        rewrite Z.mul_comm, <- Z.pow_add_r by lia.
        replace (23 + n) with (Zdigits2 m - 1) by lia. exact Hlo. }
      lia. }
  clearbody r. unfold valid_binary, bounded, canonical_mantissa.
  destruct Hres as [[_ ->]|[(p & Hpm & Hlt & ->)|[_ ->]]].
  - reflexivity.
  - destruct (Z.leb_spec (e + n) 104) as [Hle|Hgt]; [|reflexivity].
    apply andb_true_iff. split; [|apply Z.leb_le; exact Hle].
    apply Z.eqb_eq.
    assert (Hd : Zpos (digits2_pos p) <= 24).
    { change (Zpos (digits2_pos p)) with (Zdigits2 (Zpos p)).
      apply Zdigits2_le; lia. }
    destruct (Z.eq_dec (e + n) (-149)) as [He|He].
    + unfold fexp, emin, prec, emax. lia.
    + assert (H23 : 2 ^ 23 <= Zpos p) by (rewrite Hpm; apply Hfull; lia).
      pose proof (Zdigits2_ge (Zpos p) 23 H23 ltac:(lia)) as Hge.
      cbn [Zdigits2] in Hge. unfold fexp, emin, prec, emax. lia.
  - destruct (Z.leb_spec (e + n + 1) 104) as [Hle|Hgt]; [|reflexivity].
    apply andb_true_iff. split; [|apply Z.leb_le; exact Hle].
    apply Z.eqb_eq. change (Zpos (digits2_pos 8388608)) with 24.
    unfold fexp, emin, prec, emax. lia.
Qed.

Lemma pow2_split k e : (pow2 k == pow2 (k - e) * pow2 e)%Q.
Proof. rewrite <- pow2_add. replace (k - e + e) with k by lia. reflexivity. Qed.

Lemma scaled_le_pow2 m e k :
  e <= k -> ((inject_Z m * pow2 e <= pow2 k)%Q <-> m <= 2 ^ (k - e)).
Proof.
  intros Hek. rewrite (pow2_split k e).
  rewrite (pow2_nonneg_exp (k - e)) by lia.
  rewrite Qmult_le_r by apply pow2_pos. rewrite <- Zle_Qle. reflexivity.
Qed.

Lemma scaled_lt_pow2 m e k :
  e <= k -> ((inject_Z m * pow2 e < pow2 k)%Q <-> m < 2 ^ (k - e)).
Proof.
  intros Hek. rewrite (pow2_split k e).
  rewrite (pow2_nonneg_exp (k - e)) by lia.
  rewrite Qmult_lt_r by apply pow2_pos. rewrite <- Zlt_Qlt. reflexivity.
Qed.

Lemma Qabs_signed s m p :
  0 <= m -> (0 < p)%Q ->
  (Qabs (inject_Z (cond_Zopp s m) * p) == inject_Z m * p)%Q.
Proof.
  intros Hm Hp. rewrite Qabs_Qmult, (Qabs_pos p) by lra.
  apply Qmult_comp; [|reflexivity].
  assert (Hq : (0 <= inject_Z m)%Q) by (change 0%Q with (inject_Z 0); rewrite <- Zle_Qle; exact Hm).
  destruct s; cbn [cond_Zopp].
  - rewrite inject_Z_opp, Qabs_opp. apply Qabs_pos, Hq.
  - apply Qabs_pos, Hq.
Qed.

Lemma pow2_le_inv a b : (pow2 a <= pow2 b)%Q -> a <= b.
Proof. intros H. apply (Qpower_le_compat_l_inv 2); [exact H|reflexivity]. Qed.

(** A rounding does not cross a power of two: a value of at most [2^k],
    for [k] no less than the least exponent, rounds to at most [2^k]; it is
    finite for [k <= 127] when the mantissa is not shorter than the format
    asks for. *)
Lemma binary_round_aux_le_pow2 s m e l k :
  0 <= m -> -149 <= k -> (m = 0 -> e <= k) ->
  (inject_Z m * pow2 e <= pow2 k)%Q ->
  (l <> loc_Exact -> (inject_Z m * pow2 e < pow2 k)%Q) ->
  let r := binary_round_aux prec emax s m e l in
  (Qabs (F2Q r) <= pow2 k)%Q /\
  (k <= 127 -> e <= fexp prec emax (Zdigits2 m + e) -> is_finite r = true).
Proof.
  intros Hm Hk Hzero Hle Hlt r.
  destruct (binary_round_aux_spec s m e l Hm) as (m' & Hm' & Hres).
  fold r in Hres.
  destruct (shifted_mantissa_small m e Hm) as (Hm1 & He' & Hn).
  set (n := Z.max 0 (fexp prec emax (Zdigits2 m + e) - e)) in *.
  assert (Hp : 0 < 2 ^ n) by (apply Z.pow_pos_nonneg; lia).
  (* the exponent of the result is at most [k] *)
  assert (Hek : e <= k).
  { destruct (Z.eq_dec m 0) as [H0|H0]; [auto|].
    apply pow2_le_inv. eapply Qle_trans; [|exact Hle].
    rewrite <- (Qmult_1_l (pow2 e)) at 1.
    apply Qmult_le_compat_r; [|apply Qlt_le_weak, pow2_pos].
    change 1%Q with (inject_Z 1). rewrite <- Zle_Qle. lia. }
  apply scaled_le_pow2 in Hle; [|exact Hek].
  assert (Hlt' : l <> loc_Exact -> m < 2 ^ (k - e))
    by (intros H; apply scaled_lt_pow2; auto).
  assert (He'k : e + n <= k).
  { destruct (Z.eq_dec m 0) as [H0|H0].
    - subst m. unfold n, fexp, emin, prec, emax in *. cbn [Zdigits2] in *. lia.
    - destruct (Zdigits2_bounds m ltac:(lia)) as [Hlo _].
      assert (Hd : Zdigits2 m - 1 <= k - e).
      { apply (Z.pow_le_mono_r_iff 2); [lia|lia|lia]. }
      unfold n, fexp, emin, prec, emax in *. lia. }
  assert (Hsplit : 2 ^ (k - e) = 2 ^ (k - (e + n)) * 2 ^ n).
  { rewrite <- Z.pow_add_r by lia. f_equal. lia. }
  assert (Hpk : 0 < 2 ^ (k - (e + n))) by (apply Z.pow_pos_nonneg; lia).
  assert (Hbound : 0 <= m' <= 2 ^ (k - (e + n))).
  { destruct Hm' as [->|[-> Hinex]].
    - split; [lia|]. apply Z.div_le_upper_bound; lia.
    - split; [lia|].
      assert (Hstrict : m < 2 ^ (k - e)).
      { destruct Hinex as [Hl|Hmod]; [auto|].
        destruct (Z.eq_dec m (2 ^ (k - e))) as [Heq|Hne]; [|lia].
        exfalso. apply Hmod. rewrite Heq, Hsplit. apply Z.mod_mul. lia. }
      assert (m / 2 ^ n < 2 ^ (k - (e + n)))
        by (apply Z.div_lt_upper_bound; lia).
      lia. }
  assert (Hval : (inject_Z m' * pow2 (e + n) <= pow2 k)%Q)
    by (apply scaled_le_pow2; [exact He'k|lia]).
  split.
  - destruct Hres as [[_ HF]|[Hinf _]].
    + rewrite HF, Qabs_signed; [exact Hval|lia|apply pow2_pos].
    + rewrite Hinf. cbn [F2Q]. apply Qlt_le_weak, pow2_pos.
  - intros Hk127 Halign.
    destruct Hres as [[Hfin _]|(_ & Hpos & Hover)]; [exact Hfin|].
    exfalso.
    destruct (Z.eqb_spec m' (2 ^ 24)) as [Heq|Hne].
    + subst m'.
      assert (24 <= k - (e + n)).
      { apply (Z.pow_le_mono_r_iff 2); lia. }
      lia.
    + destruct (Z.eq_dec m 0) as [H0|H0].
      * subst m. unfold n, fexp, emin, prec, emax in *.
        cbn [Zdigits2] in *. lia.
      * destruct (Zdigits2_bounds m ltac:(lia)) as [Hlo _].
        assert (Hd : Zdigits2 m - 1 <= k - e).
        { apply (Z.pow_le_mono_r_iff 2); [lia|lia|lia]. }
        unfold n, fexp, emin, prec, emax in *. lia.
Qed.

Lemma shl_align_spec mx ex ez :
  let '(mz, ez') := shl_align mx ex ez in
  ez' = Z.min ex ez /\
  Zpos mz = Zpos mx * 2 ^ (ex - ez') /\
  Zpos (digits2_pos mz) = Zpos (digits2_pos mx) + (ex - ez').
Proof.
  unfold shl_align. destruct (ez - ex) as [|d|d] eqn:Hd.
  - replace (ex - ex) with 0 by lia. cbn [Z.pow]. lia.
  - replace (ex - ex) with 0 by lia. cbn [Z.pow]. lia.
  - rewrite iter_xO_value, iter_xO_digits.
    replace (ex - ez) with (Zpos d) by lia. lia.
Qed.

Lemma scaled_shift m e e' :
  e' <= e -> (inject_Z (m * 2 ^ (e - e')) * pow2 e' == inject_Z m * pow2 e)%Q.
Proof.
  intros H. rewrite inject_Z_mult, <- pow2_nonneg_exp by lia.
  rewrite <- Qmult_assoc, <- pow2_add. replace (e - e' + e') with e by lia.
  reflexivity.
Qed.

Lemma binary_round_le_pow2 s mx ex k :
  -149 <= k -> (inject_Z (Zpos mx) * pow2 ex <= pow2 k)%Q ->
  (Qabs (F2Q (binary_round prec emax s mx ex)) <= pow2 k)%Q /\
  (k <= 127 -> is_finite (binary_round prec emax s mx ex) = true).
Proof.
  intros Hk Hle. unfold binary_round.
  pose proof (shl_align_spec mx ex
                (fexp prec emax (Zpos (digits2_pos mx) + ex))) as Hal.
  destruct (shl_align mx ex (fexp prec emax (Zpos (digits2_pos mx) + ex)))
    as [mz ez]. destruct Hal as (Hez & Hmz & Hdz).
  destruct (binary_round_aux_le_pow2 s (Zpos mz) ez loc_Exact k) as [H1 H2];
    try lia.
  - rewrite Hmz, scaled_shift by lia. exact Hle.
  - intros H. congruence.
  - split; [exact H1|]. intros Hk'. apply H2; [exact Hk'|].
    cbn [Zdigits2]. rewrite Hdz.
    replace (Zpos (digits2_pos mx) + (ex - ez) + ez)
      with (Zpos (digits2_pos mx) + ex) by lia.
    lia.
Qed.

Lemma binary_normalize_le_pow2 m e sz k :
  -149 <= k -> (inject_Z (Z.abs m) * pow2 e <= pow2 k)%Q ->
  (Qabs (F2Q (binary_normalize prec emax m e sz)) <= pow2 k)%Q /\
  (k <= 127 -> is_finite (binary_normalize prec emax m e sz) = true).
Proof.
  intros Hk Hle. destruct m as [|p|p]; cbn [binary_normalize].
  - split; [|reflexivity]. cbn [F2Q]. apply Qlt_le_weak, pow2_pos.
  - apply binary_round_le_pow2; assumption.
  - apply binary_round_le_pow2; assumption.
Qed.

Lemma float_of_Z_le_pow2 z k :
  0 <= k <= 127 -> Z.abs z <= 2 ^ k ->
  is_finite (float_of_Z z) = true /\
  (Qabs (F2Q (float_of_Z z)) <= pow2 k)%Q.
Proof.
  intros Hk Hz. unfold float_of_Z.
  destruct (binary_normalize_le_pow2 z 0 false k) as [H1 H2]; [lia| |].
  - change (pow2 0) with 1%Q. rewrite Qmult_1_r, pow2_nonneg_exp by lia.
    rewrite <- Zle_Qle. exact Hz.
  - split; [apply H2; lia|exact H1].
Qed.

Lemma F2Q_abs s m e :
  (Qabs (F2Q (S754_finite s m e)) == inject_Z (Zpos m) * pow2 e)%Q.
Proof. rewrite F2Q_pow2. apply Qabs_signed; [lia|apply pow2_pos]. Qed.

(** The sum of two finite values whose magnitudes add up to at most [2^k]
    is finite and at most [2^k] in magnitude. *)
Lemma fadd_le_pow2 a b k :
  is_finite a = true -> is_finite b = true -> -149 <= k <= 127 ->
  (Qabs (F2Q a) + Qabs (F2Q b) <= pow2 k)%Q ->
  is_finite (fadd a b) = true /\ (Qabs (F2Q (fadd a b)) <= pow2 k)%Q.
Proof.
  intros Ha Hb Hk Hsum.
  pose proof (Qabs_nonneg (F2Q a)) as Hna.
  pose proof (Qabs_nonneg (F2Q b)) as Hnb.
  destruct a as [sa|sa| |sa ma ea]; try discriminate Ha;
    destruct b as [sb|sb| |sb mb eb]; try discriminate Hb.
  - split; [destruct sa, sb; reflexivity|].
    apply Qle_trans with 0%Q; [|apply Qlt_le_weak, pow2_pos].
    destruct sa, sb; cbn; apply Qle_refl.
  - cbn [fadd SFadd]. unfold fadd. cbn [SFadd]. split; [reflexivity|lra].
  - unfold fadd. cbn [SFadd]. split; [reflexivity|lra].
  - unfold fadd. cbn [SFadd].
    pose proof (shl_align_spec ma ea (Z.min ea eb)) as Hsa.
    pose proof (shl_align_spec mb eb (Z.min ea eb)) as Hsb.
    destruct (shl_align ma ea (Z.min ea eb)) as [ma' ea'].
    destruct (shl_align mb eb (Z.min ea eb)) as [mb' eb'].
    cbn [fst]. destruct Hsa as (Hea & Hma & _). destruct Hsb as (Heb & Hmb & _).
    set (ez := Z.min ea eb) in *.
    assert (Hma2 : Zpos ma' = Zpos ma * 2 ^ (ea - ez))
      by (rewrite Hma; do 2 f_equal; lia).
    assert (Hmb2 : Zpos mb' = Zpos mb * 2 ^ (eb - ez))
      by (rewrite Hmb; do 2 f_equal; lia).
    clear Hma Hmb Hea Heb ea' eb'.
    destruct (binary_normalize_le_pow2
                (cond_Zopp sa (Zpos ma') + cond_Zopp sb (Zpos mb')) ez false k)
      as [H1 H2]; [lia| |split; [apply H2; lia|exact H1]].
    rewrite !F2Q_abs in Hsum.
    eapply Qle_trans; [|exact Hsum].
    rewrite <- (scaled_shift (Zpos ma) ea ez), <- (scaled_shift (Zpos mb) eb ez)
      by lia.
    rewrite <- Hma2, <- Hmb2, <- Qmult_plus_distr_l, <- inject_Z_plus.
    apply Qmult_le_compat_r; [|apply Qlt_le_weak, pow2_pos].
    rewrite <- Zle_Qle. destruct sa, sb; cbn [cond_Zopp]; lia.
Qed.

Lemma new_location_exact nb k :
  new_location nb k = loc_Exact <-> k = 0.
Proof.
  unfold new_location, new_location_even, new_location_odd.
  destruct (Z.even nb); destruct (Z.eqb_spec k 0); split; intros H;
    try reflexivity; try assumption; try discriminate H; contradiction.
Qed.

Lemma fexp_mono a b : a <= b -> fexp prec emax a <= fexp prec emax b.
Proof. unfold fexp. lia. Qed.

(** The quotient the division forms before it rounds: the floor of the
    scaled quotient, exact only without a remainder, with as many digits
    as the format asks for. *)
Lemma SFdiv_core_binary_spec mx ex my ey :
  let '(q, e', l) := SFdiv_core_binary prec emax (Zpos mx) ex (Zpos my) ey in
  exists s,
    0 <= s /\ e' + s = ex - ey /\
    0 <= q /\ q * Zpos my <= Zpos mx * 2 ^ s /\
    (l <> loc_Exact -> q * Zpos my < Zpos mx * 2 ^ s) /\
    Zpos mx * 2 ^ s < (q + 1) * Zpos my /\
    (l = loc_Exact -> q * Zpos my = Zpos mx * 2 ^ s) /\
    (q = 0 -> e' <= -149) /\
    e' <= fexp prec emax (Zdigits2 q + e').
Proof.
  unfold SFdiv_core_binary.
  set (d1 := Zdigits2 (Zpos mx)). set (d2 := Zdigits2 (Zpos my)).
  set (X := d1 + ex - (d2 + ey)).
  set (e' := Z.min (fexp prec emax X) (ex - ey)).
  set (s := ex - ey - e').
  assert (Hs : 0 <= s) by (unfold s, e'; lia).
  set (m' := match s with
             | 0 => Zpos mx
             | Zpos _ => Z.shiftl (Zpos mx) s
             | Zneg _ => 0
             end).
  assert (Hm' : m' = Zpos mx * 2 ^ s).
  { unfold m'. destruct s as [|p|p]; [cbn; lia| |lia].
    apply Z.shiftl_mul_pow2. lia. }
  clearbody m'.
  pose proof (Z_div_mod m' (Zpos my) ltac:(lia)) as Hdm.
  destruct (Z.div_eucl m' (Zpos my)) as [q r]. destruct Hdm as [Hdm Hr].
  assert (Hp : 0 < 2 ^ s) by (apply Z.pow_pos_nonneg; lia).
  assert (Hq : 0 <= q) by nia.
  destruct (Zdigits2_bounds (Zpos mx) ltac:(lia)) as [Hx1 Hx2].
  destruct (Zdigits2_bounds (Zpos my) ltac:(lia)) as [Hy1 Hy2].
  fold d1 in Hx1, Hx2. fold d2 in Hy1, Hy2.
  assert (Hd1 : 1 <= d1) by (unfold d1; cbn; lia).
  assert (Hd2 : 1 <= d2) by (unfold d2; cbn; lia).
  (* the quotient has at least [d1 + s - d2] digits *)
  assert (Hdq : d1 + s - d2 <= Zdigits2 q).
  { pose proof (Zdigits2_nonneg q).
    destruct (Z.le_gt_cases (d1 + s - d2) 0) as [|Hpos]; [lia|].
    assert (H1 : 2 ^ (d1 - 1 + s) <= m').
    { rewrite Hm', Z.pow_add_r by lia. nia. }
    assert (H2 : 2 ^ (d1 - 1 + s) = 2 ^ (d1 + s - d2 - 1) * 2 ^ d2).
    { rewrite <- Z.pow_add_r by lia. f_equal. lia. }
    assert (Hpj : 0 < 2 ^ (d1 + s - d2 - 1))
      by (apply Z.pow_pos_nonneg; lia).
    assert (Hqj : 2 ^ (d1 + s - d2 - 1) <= q) by nia.
    pose proof (Zdigits2_ge q (d1 + s - d2 - 1) Hqj ltac:(lia)). lia. }
  exists s. split; [exact Hs|]. split; [unfold s; lia|].
  split; [exact Hq|]. split; [nia|]. split; [|split; [nia|split; [|split]]].
  - intros Hl. assert (Hr0 : r <> 0).
    { intros ->. apply Hl. apply new_location_exact. reflexivity. }
    nia.
  - intros Hl. apply new_location_exact in Hl. subst r. lia.
  - intros Hq0. subst q. cbn [Zdigits2] in Hdq.
    unfold s, e', X, fexp, emin, prec, emax in *. lia.
  - eapply Z.le_trans; [apply Z.le_min_l|]. fold e'.
    apply fexp_mono. unfold X, s in *. lia.
Qed.

(** A quotient of magnitude at most [2^k] rounds to at most [2^k] and, for
    [k <= 127], is finite. *)
Lemma fdiv_le_pow2 x y k :
  is_finite x = true -> is_finite y = true -> ~ (F2Q y == 0)%Q ->
  -149 <= k ->
  (Qabs (F2Q x) <= pow2 k * Qabs (F2Q y))%Q ->
  (Qabs (F2Q (fdiv x y)) <= pow2 k)%Q /\
  (k <= 127 -> is_finite (fdiv x y) = true).
Proof.
  intros Hx Hy Hy0 Hk Hle.
  destruct y as [sy|sy| |sy my ey]; try discriminate Hy.
  { exfalso. apply Hy0. reflexivity. }
  destruct x as [sx|sx| |sx mx ex]; try discriminate Hx.
  { unfold fdiv. cbn [SFdiv]. split; [|reflexivity].
    cbn [F2Q]. apply Qlt_le_weak, pow2_pos. }
  unfold fdiv. cbn [SFdiv].
  pose proof (SFdiv_core_binary_spec mx ex my ey) as Hcore.
  destruct (SFdiv_core_binary prec emax (Zpos mx) ex (Zpos my) ey)
    as [[q e'] l].
  destruct Hcore as (s & Hs & He' & Hq & Hqle & Hqlt & _ & _ & Hq0 & Halign).
  rewrite !F2Q_abs in Hle.
  (* the real quotient, scaled: [mx * 2^s <= 2^k / 2^e' * my] *)
  assert (Hy1 : (0 < inject_Z (Zpos my))%Q)
    by (change 0%Q with (inject_Z 0); rewrite <- Zlt_Qlt; lia).
  assert (Hreal : (inject_Z (Zpos mx * 2 ^ s) * pow2 e'
                   <= pow2 k * inject_Z (Zpos my))%Q).
  { apply (Qmult_le_r _ _ (pow2 ey)); [apply pow2_pos|].
    rewrite inject_Z_mult, <- pow2_nonneg_exp by lia.
    assert (Heq : (inject_Z (Zpos mx) * pow2 s * pow2 e' * pow2 ey
                   == inject_Z (Zpos mx) * pow2 ex)%Q).
    { rewrite <- !Qmult_assoc, <- !pow2_add.
      replace (s + (e' + ey)) with ex by lia. reflexivity. }
    rewrite Heq. lra. }
  assert (Hqv : (inject_Z q * pow2 e' <= pow2 k)%Q).
  { apply (Qmult_le_r _ _ (inject_Z (Zpos my))); [exact Hy1|].
    eapply Qle_trans; [|exact Hreal].
    rewrite <- Qmult_assoc, (Qmult_comm (pow2 e')), Qmult_assoc.
    apply Qmult_le_compat_r; [|apply Qlt_le_weak, pow2_pos].
    rewrite <- inject_Z_mult, <- Zle_Qle. exact Hqle. }
  assert (Hqs : l <> loc_Exact -> (inject_Z q * pow2 e' < pow2 k)%Q).
  { intros Hl. apply (Qmult_lt_r _ _ (inject_Z (Zpos my))); [exact Hy1|].
    eapply Qlt_le_trans; [|exact Hreal].
    rewrite <- Qmult_assoc, (Qmult_comm (pow2 e')), Qmult_assoc.
    apply Qmult_lt_compat_r; [apply pow2_pos|].
    rewrite <- inject_Z_mult, <- Zlt_Qlt. apply Hqlt, Hl. }
  destruct (binary_round_aux_le_pow2 (xorb sx sy) q e' l k Hq Hk
              ltac:(intros H; specialize (Hq0 H); lia) Hqv Hqs) as [H1 H2].
  split; [exact H1|]. intros Hk'. apply H2; assumption.
Qed.

(** A product is at most twice the real product in magnitude, unless it is
    at most the least positive value. *)
Lemma fmul_le_double a b :
  is_finite a = true -> is_finite b = true ->
  (Qabs (F2Q (fmul a b)) <= 2 * (Qabs (F2Q a) * Qabs (F2Q b)))%Q \/
  (Qabs (F2Q (fmul a b)) <= pow2 (-149))%Q.
Proof.
  intros Ha Hb.
  destruct a as [sa|sa| |sa ma ea]; try discriminate Ha;
    destruct b as [sb|sb| |sb mb eb]; try discriminate Hb;
    try (right; unfold fmul; cbn [SFmul F2Q]; apply Qlt_le_weak, pow2_pos).
  unfold fmul. cbn [SFmul].
  set (m := Zpos (ma * mb)). set (e := ea + eb).
  destruct (Zdigits2_bounds m ltac:(unfold m; lia)) as [Hlo Hhi].
  pose proof (Zdigits2_nonneg m) as Hd.
  assert (Hd1 : 1 <= Zdigits2 m) by (unfold m; cbn; lia).
  set (k := Z.max (Zdigits2 m + e) (-149)).
  assert (Hv : (inject_Z m * pow2 e <= pow2 (Zdigits2 m + e))%Q).
  { rewrite pow2_add. apply Qmult_le_compat_r; [|apply Qlt_le_weak, pow2_pos].
    rewrite pow2_nonneg_exp, <- Zle_Qle by lia. lia. }
  destruct (binary_round_aux_le_pow2 (xorb sa sb) m e loc_Exact k) as [H1 _];
    [unfold m; lia|unfold k; lia|unfold m; lia| |congruence|].
  { eapply Qle_trans; [exact Hv|]. apply pow2_le. unfold k. lia. }
  destruct (Z.le_gt_cases (-149) (Zdigits2 m + e)) as [Hge|Hlt].
  - left. eapply Qle_trans; [exact H1|].
    replace k with (Zdigits2 m + e) by (unfold k; lia).
    rewrite !F2Q_abs.
    assert (Heq : (inject_Z (Zpos ma) * pow2 ea * (inject_Z (Zpos mb) * pow2 eb)
                   == inject_Z m * pow2 e)%Q).
    { unfold m, e. rewrite Pos2Z.inj_mul, inject_Z_mult, pow2_add. ring. }
    rewrite Heq.
    replace (Zdigits2 m + e) with (1 + (Zdigits2 m - 1) + e) by lia.
    rewrite !pow2_add. change (pow2 1) with 2%Q.
    rewrite <- !Qmult_assoc. apply Qmult_le_l; [reflexivity|].
    apply Qmult_le_compat_r; [|apply Qlt_le_weak, pow2_pos].
    rewrite pow2_nonneg_exp, <- Zle_Qle by lia. exact Hlo.
  - right. replace k with (-149) in H1 by (unfold k; lia). exact H1.
Qed.

Lemma valid_positive_ge_least s :
  valid_binary prec emax s = true -> (0 < F2Q s)%Q ->
  is_finite s = true /\ (Qabs (F2Q s) == F2Q s)%Q /\
  (pow2 (-149) <= F2Q s)%Q.
Proof.
  intros Hv Hpos.
  destruct s as [sg|sg| |sg m e]; try (exfalso; cbn [F2Q] in Hpos; lra).
  split; [reflexivity|].
  split; [apply Qabs_pos, Qlt_le_weak, Hpos|].
  cbn [valid_binary] in Hv. unfold bounded, canonical_mantissa in Hv.
  apply andb_true_iff in Hv as [Hc _]. apply Z.eqb_eq in Hc.
  assert (He : -149 <= e) by (unfold fexp, emin, prec, emax in Hc; lia).
  assert (Hsg : sg = false).
  { destruct sg; [|reflexivity]. exfalso. rewrite F2Q_pow2 in Hpos.
    cbn [cond_Zopp] in Hpos. pose proof (pow2_pos e).
    assert ((inject_Z (- Zpos m) < 0)%Q)
      by (change 0%Q with (inject_Z 0); rewrite <- Zlt_Qlt; lia).
    nra. }
  subst sg. rewrite F2Q_pow2. cbn [cond_Zopp].
  apply Qle_trans with (pow2 e); [apply pow2_le, He|].
  rewrite <- (Qmult_1_l (pow2 e)) at 1.
  apply Qmult_le_compat_r; [|apply Qlt_le_weak, pow2_pos].
  change 1%Q with (inject_Z 1). rewrite <- Zle_Qle. lia.
Qed.

Lemma int32_abs z : in_range Int32 z -> Z.abs z <= 2 ^ 31.
Proof. unfold_int. lia. Qed.

(** What a 32-bit quantized value dequantizes to is at most [2^32] scales
    in magnitude. *)
Lemma Dequantize_int32_bounded q qp :
  valid_binary prec emax (scale qp) = true -> (0 < F2Q (scale qp))%Q ->
  (Qabs (F2Q (Dequantize Int32 q qp)) <= pow2 32 * F2Q (scale qp))%Q.
Proof.
  intros Hv Hpos.
  destruct (valid_positive_ge_least _ Hv Hpos) as (Hfin & Habs & Hleast).
  unfold Dequantize.
  set (d := c_sub (common_type Int32 Int32) q (zero_point qp)).
  assert (Hd : in_range Int32 d) by (unfold d, c_sub; apply cast_in_range).
  destruct (float_of_Z_le_pow2 d 31 ltac:(lia) (int32_abs d Hd))
    as [Hdfin Hdle].
  assert (H32 : (pow2 32 == 2 * pow2 31)%Q) by reflexivity.
  assert (H1 : (1 <= pow2 32)%Q) by (vm_compute; discriminate).
  pose proof (Qabs_nonneg (F2Q (float_of_Z d))) as Hdn.
  destruct (fmul_le_double (scale qp) (float_of_Z d) Hfin Hdfin) as [H|H].
  - eapply Qle_trans; [exact H|]. rewrite Habs, H32. nra.
  - eapply Qle_trans; [exact H|]. nra.
Qed.

(** For valid parameters and a source inside [[Min(), Max()]] the
    transformed value is finite and at most [2^33] in magnitude. *)
Lemma transformed_val_bounded sgn x qp :
  valid_qparams sgn qp -> valid_binary prec emax (scale qp) = true ->
  bounds_fit_int32 (precision qp) sgn ->
  is_finite x = true ->
  (F2Q (Min sgn qp) <= F2Q x <= F2Q (Max sgn qp))%Q ->
  is_finite (transformed_val x (zero_point qp) (scale qp)) = true /\
  (Qabs (F2Q (transformed_val x (zero_point qp) (scale qp))) <= pow2 33)%Q.
Proof.
  intros (Hsfin & Hspos & Hprec & Hzp) Hv Hfit Hxfin [Hxlo Hxhi].
  destruct (valid_positive_ge_least _ Hv Hspos) as (_ & Habs & Hleast).
  destruct (spec_bounds_int32 _ _ Hfit) as [Hlo32 Hhi32].
  pose proof (Dequantize_int32_bounded
                (spec_lo (precision qp) sgn) qp Hv Hspos) as Hmin.
  pose proof (Dequantize_int32_bounded
                (spec_hi (precision qp) sgn) qp Hv Hspos) as Hmax.
  fold (Min sgn qp) in Hmin. fold (Max sgn qp) in Hmax.
  apply Qabs_Qle_condition in Hmin as [Hmin _].
  apply Qabs_Qle_condition in Hmax as [_ Hmax].
  assert (Hx : (Qabs (F2Q x) <= pow2 32 * Qabs (F2Q (scale qp)))%Q).
  { rewrite Habs. apply Qabs_Qle_condition. split; lra. }
  destruct (fdiv_le_pow2 x (scale qp) 32 Hxfin Hsfin ltac:(lra) ltac:(lia) Hx)
    as [Hdiv Hdivfin].
  assert (Hzp32 : in_range Int32 (zero_point qp)) by (unfold_int; lia).
  destruct (float_of_Z_le_pow2 (zero_point qp) 31 ltac:(lia)
              (int32_abs _ Hzp32)) as [Hzfin Hzle].
  unfold transformed_val.
  apply fadd_le_pow2; [exact Hzfin|apply Hdivfin; lia|lia|].
  assert (H33 : (pow2 31 + pow2 32 <= pow2 33)%Q) by (vm_compute; discriminate).
  lra.
Qed.

Lemma Qabs_sign_mult s x :
  (Qabs (inject_Z (cond_Zopp s 1) * x) == Qabs x)%Q.
Proof.
  rewrite Qabs_Qmult.
  assert (H : (Qabs (inject_Z (cond_Zopp s 1)) == 1)%Q)
    by (destruct s; reflexivity).
  rewrite H. ring.
Qed.

Lemma inject_cond_Zopp s m :
  (inject_Z (cond_Zopp s m) == inject_Z (cond_Zopp s 1) * inject_Z m)%Q.
Proof.
  destruct s; cbn [cond_Zopp].
  - rewrite !inject_Z_opp. change (inject_Z 1) with 1%Q. ring.
  - change (inject_Z 1) with 1%Q. ring.
Qed.

(** The error of a rounding: a finite result is off the real magnitude [v]
    by at most [2^-23 * v + 2^-149]. *)
Lemma binary_round_aux_error s m e l v :
  0 <= m ->
  (inject_Z m * pow2 e <= v)%Q -> (v < inject_Z (m + 1) * pow2 e)%Q ->
  (l = loc_Exact -> (v == inject_Z m * pow2 e)%Q) ->
  (l = loc_Exact \/ e <= fexp prec emax (Zdigits2 m + e)) ->
  is_finite (binary_round_aux prec emax s m e l) = true ->
  (Qabs (F2Q (binary_round_aux prec emax s m e l)
         - inject_Z (cond_Zopp s 1) * v)
   <= pow2 (-23) * v + pow2 (-149))%Q.
Proof.
  intros Hm Hlo Hhi Hexact Halign Hfin.
  destruct (binary_round_aux_spec s m e l Hm) as (m' & Hm' & Hres).
  destruct (shifted_mantissa_small m e Hm) as (Hm1 & He' & Hn).
  set (n := Z.max 0 (fexp prec emax (Zdigits2 m + e) - e)) in *.
  set (r := binary_round_aux prec emax s m e l) in *.
  destruct Hres as [[_ HF]|[Hinf _]]; [|rewrite Hinf in Hfin; discriminate].
  assert (Hp : 0 < 2 ^ n) by (apply Z.pow_pos_nonneg; lia).
  pose proof (pow2_pos e) as Hpe. pose proof (pow2_pos (e + n)) as Hpe'.
  pose proof (pow2_pos (-149)) as Heta. pose proof (pow2_pos (-23)) as Hu.
  assert (Hv0 : (0 <= v)%Q).
  { eapply Qle_trans; [|exact Hlo].
    apply Qmult_le_0_compat; [|lra].
    change 0%Q with (inject_Z 0). rewrite <- Zle_Qle. exact Hm. }
  assert (Hsig : (F2Q r - inject_Z (cond_Zopp s 1) * v
                  == inject_Z (cond_Zopp s 1)
                     * (inject_Z m' * pow2 (e + n) - v))%Q).
  { rewrite HF, (inject_cond_Zopp s m'). ring. }
  rewrite Hsig, Qabs_sign_mult. clear Hsig HF. clearbody r.
  pose proof (Z.div_mod m (2 ^ n) ltac:(lia)) as Hdm.
  pose proof (Z.mod_pos_bound m (2 ^ n) Hp) as Hmod.
  (* the cell of [v] at the shifted exponent *)
  assert (Hcell1 : (inject_Z (m / 2 ^ n) * pow2 (e + n) <= v)%Q).
  { eapply Qle_trans; [|exact Hlo].
    rewrite <- (scaled_shift (m / 2 ^ n) (e + n) e) by lia.
    replace (e + n - e) with n by lia.
    apply Qmult_le_compat_r; [|lra]. rewrite <- Zle_Qle. lia. }
  assert (Hcell2 : (v <= inject_Z (m / 2 ^ n + 1) * pow2 (e + n))%Q).
  { eapply Qle_trans; [apply Qlt_le_weak; exact Hhi|].
    rewrite <- (scaled_shift (m / 2 ^ n + 1) (e + n) e) by lia.
    replace (e + n - e) with n by lia.
    apply Qmult_le_compat_r; [|lra]. rewrite <- Zle_Qle. lia. }
  rewrite inject_Z_plus in Hcell2. change (inject_Z 1) with 1%Q in Hcell2.
  assert (Hcase : (n = 0 /\ l = loc_Exact) \/
                  e <= fexp prec emax (Zdigits2 m + e)).
  { destruct (Z.eq_dec n 0) as [Hn0|Hn0]; [|right; unfold n in Hn0; lia].
    destruct l as [|c]; [left; split; [exact Hn0|reflexivity]|right].
    destruct Halign as [H|H]; [discriminate H|exact H]. }
  destruct Hcase as [[Hn0 Hl]|Hal].
  - (* nothing is shifted out and nothing was lost before *)
    assert (Hm'm : m' = m).
    { rewrite Hn0, Z.pow_0_r, Z.div_1_r, Z.mod_1_r in Hm'.
      destruct Hm' as [H|[_ [H|H]]]; [exact H|contradiction..]. }
    assert (Hz : (inject_Z m' * pow2 (e + n) - v == 0)%Q)
      by (rewrite Hm'm, Hn0, Z.add_0_r, (Hexact Hl); ring).
    rewrite Hz. apply Qabs_Qle_condition. split; nra.
  - assert (HP : (pow2 (e + n) <= pow2 (-23) * v + pow2 (-149))%Q).
    { destruct (Z.eq_dec (e + n) (-149)) as [He|He]; [rewrite He; nra|].
      destruct (Z.eq_dec m 0) as [H0|H0].
      { exfalso. subst m. unfold n, fexp, emin, prec, emax in *.
        cbn [Zdigits2] in *. lia. }
      destruct (Zdigits2_bounds m ltac:(lia)) as [Hdlo _].
      assert (Hd1 : 1 <= Zdigits2 m)
        by (destruct m; cbn [Zdigits2]; lia).
      assert (Hen : e + n = -23 + ((Zdigits2 m - 1) + e))
        by (unfold n, fexp, emin, prec, emax in *; lia).
      rewrite Hen, !pow2_add.
      assert (Hmq : (pow2 (Zdigits2 m - 1) <= inject_Z m)%Q).
      { rewrite pow2_nonneg_exp by lia. rewrite <- Zle_Qle. exact Hdlo. }
      pose proof (pow2_pos (Zdigits2 m - 1)).
      assert (H1 : (pow2 (Zdigits2 m - 1) * pow2 e <= v)%Q) by nra.
      nra. }
    apply Qabs_Qle_condition.
    destruct Hm' as [->|[-> _]];
      [|rewrite inject_Z_plus; change (inject_Z 1) with 1%Q]; split; lra.
Qed.

Lemma Qabs_scaled m e :
  0 <= m -> (Qabs (inject_Z m * pow2 e) == inject_Z m * pow2 e)%Q.
Proof.
  intros Hm. apply Qabs_pos. apply Qmult_le_0_compat.
  - change 0%Q with (inject_Z 0). rewrite <- Zle_Qle. exact Hm.
  - apply Qlt_le_weak, pow2_pos.
Qed.

Lemma binary_round_error s mx ex :
  valid_binary prec emax (binary_round prec emax s mx ex) = true /\
  (is_finite (binary_round prec emax s mx ex) = true ->
   (Qabs (F2Q (binary_round prec emax s mx ex)
          - inject_Z (cond_Zopp s 1) * (inject_Z (Zpos mx) * pow2 ex))
    <= pow2 (-23) * (inject_Z (Zpos mx) * pow2 ex) + pow2 (-149))%Q).
Proof.
  unfold binary_round.
  pose proof (shl_align_spec mx ex
                (fexp prec emax (Zpos (digits2_pos mx) + ex))) as Hal.
  destruct (shl_align mx ex (fexp prec emax (Zpos (digits2_pos mx) + ex)))
    as [mz ez]. destruct Hal as (Hez & Hmz & Hdz).
  assert (Halign : ez <= fexp prec emax (Zdigits2 (Zpos mz) + ez)).
  { cbn [Zdigits2]. rewrite Hdz.
    replace (Zpos (digits2_pos mx) + (ex - ez) + ez)
      with (Zpos (digits2_pos mx) + ex) by lia.
    lia. }
  assert (Hval : (inject_Z (Zpos mz) * pow2 ez
                  == inject_Z (Zpos mx) * pow2 ex)%Q)
    by (rewrite Hmz; apply scaled_shift; lia).
  split; [apply binary_round_aux_valid; [lia|exact Halign]|].
  intros Hfin. rewrite <- Hval.
  apply binary_round_aux_error;
    [lia| | | |left; reflexivity|exact Hfin].
  - apply Qle_refl.
  - apply Qmult_lt_compat_r; [apply pow2_pos|]. rewrite <- Zlt_Qlt. lia.
  - intros _. reflexivity.
Qed.

Lemma binary_normalize_error m e sz :
  valid_binary prec emax (binary_normalize prec emax m e sz) = true /\
  (is_finite (binary_normalize prec emax m e sz) = true ->
   (Qabs (F2Q (binary_normalize prec emax m e sz) - inject_Z m * pow2 e)
    <= pow2 (-23) * Qabs (inject_Z m * pow2 e) + pow2 (-149))%Q).
Proof.
  destruct m as [|p|p]; cbn [binary_normalize].
  - split; [reflexivity|]. intros _. cbn [F2Q].
    change (inject_Z 0) with 0%Q.
    assert (Hz : (0 - 0 * pow2 e == 0)%Q) by ring.
    assert (Hz' : (0 * pow2 e == 0)%Q) by ring.
    rewrite Hz, Hz'. pose proof (pow2_pos (-149)).
    apply Qabs_Qle_condition. change (Qabs 0) with 0%Q. split; lra.
  - destruct (binary_round_error false p e) as [Hv He].
    split; [exact Hv|]. intros Hfin. specialize (He Hfin).
    cbn [cond_Zopp] in He. change (inject_Z 1) with 1%Q in He.
    rewrite Qmult_1_l in He. rewrite Qabs_scaled by lia. exact He.
  - destruct (binary_round_error true p e) as [Hv He].
    split; [exact Hv|]. intros Hfin. specialize (He Hfin).
    cbn [cond_Zopp] in He.
    assert (Hs : (inject_Z (Zneg p) * pow2 e
                  == inject_Z (- (1)) * (inject_Z (Zpos p) * pow2 e))%Q).
    { change (Zneg p) with (- Zpos p). rewrite !inject_Z_opp.
      change (inject_Z 1) with 1%Q. ring. }
    rewrite Hs, Qabs_Qmult, (Qabs_scaled (Zpos p)) by lia.
    change (Qabs (inject_Z (- (1)))) with 1%Q. rewrite Qmult_1_l. exact He.
Qed.

Lemma float_of_Z_error z :
  Z.abs z <= 2 ^ 127 ->
  is_binary32 (float_of_Z z) /\ is_finite (float_of_Z z) = true /\
  (Qabs (F2Q (float_of_Z z) - inject_Z z)
   <= pow2 (-23) * Qabs (inject_Z z) + pow2 (-149))%Q.
Proof.
  intros Hz. destruct (float_of_Z_le_pow2 z 127 ltac:(lia) Hz) as [Hfin _].
  unfold is_binary32, float_of_Z in *.
  destruct (binary_normalize_error z 0 false) as [Hv He].
  split; [exact Hv|]. split; [exact Hfin|]. specialize (He Hfin).
  change (pow2 0) with 1%Q in He. rewrite Qmult_1_r in He. exact He.
Qed.

Lemma sign_xorb sa sb :
  (inject_Z (cond_Zopp (xorb sa sb) 1)
   == inject_Z (cond_Zopp sa 1) * inject_Z (cond_Zopp sb 1))%Q.
Proof. destruct sa, sb; reflexivity. Qed.

Lemma F2Q_sign s m e :
  (F2Q (S754_finite s m e)
   == inject_Z (cond_Zopp s 1) * (inject_Z (Zpos m) * pow2 e))%Q.
Proof. rewrite F2Q_pow2, inject_cond_Zopp. ring. Qed.

Lemma valid_finite_digits s m e :
  valid_binary prec emax (S754_finite s m e) = true ->
  -149 <= e <= 104 /\ Zpos (digits2_pos m) <= 24 /\
  (Zpos (digits2_pos m) = 24 \/ e = -149).
Proof.
  cbn [valid_binary]. unfold bounded, canonical_mantissa.
  rewrite andb_true_iff, Z.eqb_eq, Z.leb_le.
  unfold fexp, emin, prec, emax. lia.
Qed.

(** The error of a product of binary32 values of magnitude at most
    [2^127]. *)
Lemma fmul_error a b :
  is_binary32 a -> is_binary32 b ->
  is_finite a = true -> is_finite b = true ->
  (Qabs (F2Q a * F2Q b) <= pow2 127)%Q ->
  is_finite (fmul a b) = true /\
  (Qabs (F2Q (fmul a b) - F2Q a * F2Q b)
   <= pow2 (-23) * Qabs (F2Q a * F2Q b) + pow2 (-149))%Q.
Proof.
  intros Hva Hvb Ha Hb Hle.
  pose proof (pow2_pos (-149)) as Heta. pose proof (pow2_pos (-23)) as Hu.
  assert (Hzero : forall x y : Q, (x == 0)%Q \/ (y == 0)%Q ->
            (Qabs (0 - x * y) <= pow2 (-23) * Qabs (x * y) + pow2 (-149))%Q).
  { intros x y Hxy. assert (Hz : (x * y == 0)%Q) by (destruct Hxy as [H|H]; rewrite H; ring).
    rewrite Hz. assert (Hz' : (0 - 0 == 0)%Q) by ring. rewrite Hz'.
    change (Qabs 0) with 0%Q. lra. }
  destruct a as [sa|sa| |sa ma ea]; try discriminate Ha;
    destruct b as [sb|sb| |sb mb eb]; try discriminate Hb;
    try (unfold fmul; cbn [SFmul]; split; [reflexivity|]; cbn [F2Q];
         apply Hzero; (left; reflexivity) || (right; reflexivity)).
  unfold fmul. cbn [SFmul].
  set (m := Zpos (ma * mb)). set (e := ea + eb).
  assert (Hprod : (F2Q (S754_finite sa ma ea) * F2Q (S754_finite sb mb eb)
                   == inject_Z (cond_Zopp (xorb sa sb) 1)
                      * (inject_Z m * pow2 e))%Q).
  { rewrite !F2Q_sign, sign_xorb. unfold m, e.
    rewrite Pos2Z.inj_mul, inject_Z_mult, pow2_add. ring. }
  rewrite Hprod in *. rewrite Qabs_sign_mult in *.
  rewrite Qabs_scaled in * by (unfold m; lia).
  destruct (valid_finite_digits _ _ _ Hva) as (Hea & Hda & Hca).
  destruct (valid_finite_digits _ _ _ Hvb) as (Heb & Hdb & Hcb).
  assert (Halign : e <= fexp prec emax (Zdigits2 m + e)).
  { destruct (Zdigits2_bounds m ltac:(unfold m; lia)) as [_ Hmhi].
    destruct (digits2_pos_bounds ma) as [Halo _].
    destruct (digits2_pos_bounds mb) as [Hblo _].
    assert (Hd : Zpos (digits2_pos ma) + Zpos (digits2_pos mb) - 1
                 <= Zdigits2 m).
    { assert (Hpow : 2 ^ (Zpos (digits2_pos ma) - 1 + (Zpos (digits2_pos mb) - 1))
                     <= m).
      { rewrite Z.pow_add_r by lia. unfold m. rewrite Pos2Z.inj_mul.
        apply Z.mul_le_mono_nonneg; try lia;
          apply Z.lt_le_incl, Z.pow_pos_nonneg; lia. }
      pose proof (Zdigits2_ge m _ Hpow ltac:(lia)). lia. }
    unfold e, fexp, emin, prec, emax. lia. }
  destruct (binary_round_aux_le_pow2 (xorb sa sb) m e loc_Exact 127)
    as [_ Hfin]; [unfold m; lia|lia|unfold m; lia|exact Hle|congruence|].
  specialize (Hfin ltac:(lia) Halign).
  split; [exact Hfin|].
  apply binary_round_aux_error;
    [unfold m; lia| | | |left; reflexivity|exact Hfin].
  - apply Qle_refl.
  - apply Qmult_lt_compat_r; [apply pow2_pos|]. rewrite <- Zlt_Qlt. lia.
  - intros _. reflexivity.
Qed.

(** The error of a finite quotient. *)
Lemma fdiv_error x y :
  is_finite x = true -> is_finite y = true -> ~ (F2Q y == 0)%Q ->
  is_finite (fdiv x y) = true ->
  (Qabs (F2Q (fdiv x y) - F2Q x / F2Q y)
   <= pow2 (-23) * Qabs (F2Q x / F2Q y) + pow2 (-149))%Q.
Proof.
  intros Hx Hy Hy0 Hfin.
  pose proof (pow2_pos (-149)) as Heta. pose proof (pow2_pos (-23)) as Hu.
  destruct y as [sy|sy| |sy my ey]; try discriminate Hy.
  { exfalso. apply Hy0. reflexivity. }
  destruct x as [sx|sx| |sx mx ex]; try discriminate Hx.
  { unfold fdiv. cbn [SFdiv].
    change (F2Q (S754_zero (xorb sx sy))) with 0%Q.
    change (F2Q (S754_zero sx)) with 0%Q.
    generalize (F2Q (S754_finite sy my ey)). intros Y.
    assert (Hz : (0 / Y == 0)%Q) by (unfold Qdiv; ring).
    rewrite Hz. assert (Hz' : (0 - 0 == 0)%Q) by ring. rewrite Hz'.
    change (Qabs 0) with 0%Q. lra. }
  unfold fdiv in *. cbn [SFdiv] in *.
  pose proof (SFdiv_core_binary_spec mx ex my ey) as Hcore.
  destruct (SFdiv_core_binary prec emax (Zpos mx) ex (Zpos my) ey)
    as [[q e'] l].
  destruct Hcore
    as (s & Hs & He' & Hq & Hqle & _ & Hqup & Hqex & _ & Halign).
  pose proof (pow2_pos e') as Hpe'. pose proof (pow2_pos ey) as Hpey.
  pose proof (pow2_pos ex) as Hpex.
  assert (Hy1 : (0 < inject_Z (Zpos my))%Q)
    by (change 0%Q with (inject_Z 0); rewrite <- Zlt_Qlt; lia).
  set (v := (inject_Z (Zpos mx * 2 ^ s) / inject_Z (Zpos my) * pow2 e')%Q).
  assert (Hquot : (F2Q (S754_finite sx mx ex) / F2Q (S754_finite sy my ey)
                   == inject_Z (cond_Zopp (xorb sx sy) 1) * v)%Q).
  { rewrite !F2Q_sign, sign_xorb. unfold v.
    rewrite inject_Z_mult, <- pow2_nonneg_exp by lia.
    replace ex with (s + e' + ey) by lia. rewrite !pow2_add.
    assert (Hsy : (inject_Z (cond_Zopp sy 1) == 1)%Q \/
                  (inject_Z (cond_Zopp sy 1) == -(1))%Q)
      by (destruct sy; [right|left]; reflexivity).
    destruct Hsy as [Hsy|Hsy]; rewrite Hsy; field; lra. }
  assert (Hv1 : (inject_Z q * pow2 e' <= v)%Q).
  { unfold v. apply Qmult_le_compat_r; [|lra].
    apply Qle_shift_div_l; [exact Hy1|].
    rewrite <- inject_Z_mult, <- Zle_Qle. exact Hqle. }
  assert (Hv2 : (v < inject_Z (q + 1) * pow2 e')%Q).
  { unfold v. apply Qmult_lt_compat_r; [lra|].
    apply Qlt_shift_div_r; [exact Hy1|].
    rewrite <- inject_Z_mult, <- Zlt_Qlt. exact Hqup. }
  assert (Hv3 : l = loc_Exact -> (v == inject_Z q * pow2 e')%Q).
  { intros Hl. unfold v. rewrite <- (Hqex Hl), inject_Z_mult.
    field. lra. }
  assert (Hv0 : (0 <= v)%Q).
  { eapply Qle_trans; [|exact Hv1]. apply Qmult_le_0_compat; [|lra].
    change 0%Q with (inject_Z 0). rewrite <- Zle_Qle. exact Hq. }
  rewrite Hquot, Qabs_sign_mult, (Qabs_pos v) by exact Hv0.
  apply binary_round_aux_error; try assumption. right. exact Halign.
Qed.

(** The error of a finite sum. *)
Lemma fadd_error a b :
  is_finite a = true -> is_finite b = true ->
  is_finite (fadd a b) = true ->
  (Qabs (F2Q (fadd a b) - (F2Q a + F2Q b))
   <= pow2 (-23) * Qabs (F2Q a + F2Q b) + pow2 (-149))%Q.
Proof.
  intros Ha Hb Hfin.
  pose proof (pow2_pos (-149)) as Heta. pose proof (pow2_pos (-23)) as Hu.
  assert (Hexact : forall r x : Q, (r == x)%Q ->
            (Qabs (r - x) <= pow2 (-23) * Qabs x + pow2 (-149))%Q).
  { intros r x Hrx. rewrite Hrx. assert (Hz : (x - x == 0)%Q) by ring.
    rewrite Hz. pose proof (Qabs_nonneg x). change (Qabs 0) with 0%Q. nra. }
  destruct a as [sa|sa| |sa ma ea]; try discriminate Ha;
    destruct b as [sb|sb| |sb mb eb]; try discriminate Hb.
  - apply Hexact. destruct sa, sb; reflexivity.
  - apply Hexact. unfold fadd. cbn [SFadd F2Q]. ring.
  - apply Hexact. unfold fadd. cbn [SFadd F2Q]. ring.
  - unfold fadd in *. cbn [SFadd] in *.
    pose proof (shl_align_spec ma ea (Z.min ea eb)) as Hsa.
    pose proof (shl_align_spec mb eb (Z.min ea eb)) as Hsb.
    destruct (shl_align ma ea (Z.min ea eb)) as [ma' ea'].
    destruct (shl_align mb eb (Z.min ea eb)) as [mb' eb'].
    cbn [fst] in *. destruct Hsa as (Hea & Hma & _).
    destruct Hsb as (Heb & Hmb & _).
    set (ez := Z.min ea eb) in *.
    assert (Hma2 : Zpos ma' = Zpos ma * 2 ^ (ea - ez))
      by (rewrite Hma; do 2 f_equal; lia).
    assert (Hmb2 : Zpos mb' = Zpos mb * 2 ^ (eb - ez))
      by (rewrite Hmb; do 2 f_equal; lia).
    clear Hma Hmb Hea Heb ea' eb'.
    set (sum := cond_Zopp sa (Zpos ma') + cond_Zopp sb (Zpos mb')) in *.
    assert (Hsum : (F2Q (S754_finite sa ma ea) + F2Q (S754_finite sb mb eb)
                    == inject_Z sum * pow2 ez)%Q).
    { rewrite !F2Q_sign. unfold sum.
      rewrite inject_Z_plus, (inject_cond_Zopp sa (Zpos ma')),
        (inject_cond_Zopp sb (Zpos mb')), Hma2, Hmb2.
      rewrite <- (scaled_shift (Zpos ma) ea ez), <- (scaled_shift (Zpos mb) eb ez)
        by (unfold ez; lia).
      ring. }
    rewrite Hsum.
    destruct (binary_normalize_error sum ez false) as [_ He].
    apply He. exact Hfin.
Qed.

Lemma signed_common_type_range T d :
  is_signed_v (common_type T Int32) = true -> in_range Int32 d ->
  in_range (common_type T Int32) d.
Proof. destruct T; cbn; intros H; try discriminate H; unfold_int; lia. Qed.

Lemma Qabs_bounds a : (- Qabs a <= a <= Qabs a)%Q.
Proof. apply Qabs_Qle_condition. apply Qle_refl. Qed.

Lemma Qabs_triangle_diff a b c : (Qabs (a - c) <= Qabs (a - b) + Qabs (b - c))%Q.
Proof.
  assert (H : (a - c == (a - b) + (b - c))%Q) by ring.
  rewrite H. apply Qabs_triangle.
Qed.

Lemma Qabs_inject_Z_le z b : Z.abs z <= b -> (Qabs (inject_Z z) <= inject_Z b)%Q.
Proof.
  intros H. apply Qabs_Qle_condition. rewrite <- inject_Z_opp, <- !Zle_Qle.
  lia.
Qed.

(** The rounding error of [Dequantize] at a quantized value whose distance
    from the zero point is below [2^p], when the products stay within the
    format. *)
Lemma Dequantize_error_le T k qp p :
  is_binary32 (scale qp) -> (0 < F2Q (scale qp))%Q ->
  is_signed_v (common_type T Int32) = true ->
  0 <= p <= 31 -> Z.abs (k - zero_point qp) < 2 ^ p ->
  (F2Q (scale qp) * pow2 p <= pow2 127)%Q ->
  (Dequantize_error T k qp
   <= F2Q (scale qp) * (2 * pow2 (p - 23) + pow2 (-149)) + pow2 (-149))%Q.
Proof.
  intros Hv Hpos Hsgn Hp Hd Hmax.
  destruct (valid_positive_ge_least _ Hv Hpos) as (Hfin & Habs & _).
  unfold Dequantize_error, Dequantize.
  set (d := k - zero_point qp) in *.
  assert (H31 : 2 ^ p <= 2 ^ 31) by (apply Z.pow_le_mono_r; lia).
  assert (Hc : c_sub (common_type T Int32) k (zero_point qp) = d).
  { rewrite c_sub_cast. apply cast_id, signed_common_type_range; [exact Hsgn|].
    fold d. change (2 ^ 31) with 2147483648 in H31. unfold_int. lia. }
  rewrite Hc.
  assert (H127 : 2 ^ 31 <= 2 ^ 127) by (apply Z.pow_le_mono_r; lia).
  destruct (float_of_Z_error d ltac:(lia)) as (Hdv & Hdfin & Hderr).
  destruct (float_of_Z_le_pow2 d p ltac:(lia) ltac:(lia)) as [_ Hdle].
  pose proof (Qabs_inject_Z_le d (2 ^ p) ltac:(lia)) as Hdq.
  rewrite <- pow2_nonneg_exp in Hdq by lia.
  set (S := F2Q (scale qp)) in *. set (D := F2Q (float_of_Z d)) in *.
  set (dq := inject_Z d) in *.
  assert (HSD : (Qabs (S * D) <= pow2 127)%Q).
  { rewrite Qabs_Qmult, Habs. eapply Qle_trans; [|exact Hmax].
    apply Qmult_le_l; [exact Hpos|exact Hdle]. }
  destruct (fmul_error (scale qp) (float_of_Z d) Hv Hdv Hfin Hdfin HSD)
    as [_ Hmerr].
  fold S D in Hmerr. rewrite Qabs_Qmult, Habs in Hmerr.
  set (M := F2Q (fmul (scale qp) (float_of_Z d))) in *.
  assert (HuP : (pow2 (p - 23) == pow2 (-23) * pow2 p)%Q).
  { rewrite <- pow2_add. replace (-23 + p) with (p - 23) by lia. reflexivity. }
  rewrite HuP.
  pose proof (pow2_pos (-149)) as Heta. pose proof (pow2_pos (-23)) as Hu.
  pose proof (pow2_pos p) as HP.
  set (u := pow2 (-23)) in *. set (eta := pow2 (-149)) in *.
  set (P := pow2 p) in *.
  pose proof (Qabs_nonneg D) as HD0. pose proof (Qabs_nonneg dq) as Hdq0.
  eapply Qle_trans; [apply (Qabs_triangle_diff M (S * D) (S * dq))|].
  assert (Hsd : (Qabs (S * D - S * dq) == S * Qabs (D - dq))%Q).
  { assert (H : (S * D - S * dq == S * (D - dq))%Q) by ring.
    rewrite H, Qabs_Qmult, Habs. reflexivity. }
  rewrite Hsd.
  set (e1 := Qabs (M - S * D)) in *. set (e2 := Qabs (D - dq)) in *.
  set (aD := Qabs D) in *. set (adq := Qabs dq) in *.
  clearbody e1 e2 aD adq u eta P S. clear - Hpos Hderr Hdle Hdq Hmerr Heta Hu HP HD0 Hdq0.
  assert (H0 : (e2 <= u * P + eta)%Q) by nra.
  assert (H1 : (S * e2 <= S * (u * P + eta))%Q) by nra.
  assert (H2 : (S * aD <= S * P)%Q) by nra.
  assert (H3 : (u * (S * aD) <= u * (S * P))%Q) by nra.
  nra.
Qed.

Lemma quantized_range_width p sgn :
  1 <= p -> spec_hi p sgn - spec_lo p sgn = 2 ^ p - 1.
Proof.
  intros Hp. unfold spec_lo, spec_hi. pose proof (pow2_pred_double p Hp).
  destruct sgn; lia.
Qed.

Lemma quantized_range_abs p sgn z :
  1 <= p -> spec_lo p sgn <= z <= spec_hi p sgn -> Z.abs z <= 2 ^ p.
Proof.
  intros Hp. unfold spec_lo, spec_hi. pose proof (pow2_pred_double p Hp).
  pose proof (Z.pow_pos_nonneg 2 (p - 1) ltac:(lia) ltac:(lia)).
  destruct sgn; lia.
Qed.

(** The rounding error of the transformed value for a source inside
    [[Min(), Max()]]. *)
Lemma transformed_val_error_le sgn x qp :
  valid_qparams sgn qp -> is_binary32 (scale qp) ->
  bounds_fit_int32 (precision qp) sgn -> precision qp <= 31 ->
  is_finite x = true ->
  (F2Q (Min sgn qp) <= F2Q x <= F2Q (Max sgn qp))%Q ->
  (F2Q (scale qp) * pow2 (precision qp) <= pow2 127)%Q ->
  (transformed_val_error x (zero_point qp) (scale qp)
   <= 10 * pow2 (precision qp - 23) + 3 * pow2 (-149))%Q.
Proof.
  intros Hvalid Hv Hfit Hp31 Hxfin Hx Hmax.
  destruct (transformed_val_bounded sgn x qp Hvalid Hv Hfit Hxfin Hx)
    as [Htfin _].
  destruct Hvalid as (Hsfin & Hspos & Hprec & Hzp). destruct Hx as [Hxlo Hxhi].
  unfold Min, Max in Hxlo, Hxhi.
  destruct (valid_positive_ge_least _ Hv Hspos) as (_ & Habs & Hleast).
  set (p := precision qp) in *. set (zp := zero_point qp) in *.
  pose proof (quantized_range_width p sgn ltac:(lia)) as Hwidth.
  pose proof (Z.pow_pos_nonneg 2 p ltac:(lia) ltac:(lia)) as H2p.
  (* the two ends of the real range *)
  pose proof (Dequantize_error_le Int32 (spec_lo p sgn) qp p Hv Hspos
                eq_refl ltac:(lia) ltac:(fold zp; lia) Hmax) as Elo.
  pose proof (Dequantize_error_le Int32 (spec_hi p sgn) qp p Hv Hspos
                eq_refl ltac:(lia) ltac:(fold zp; lia) Hmax) as Ehi.
  unfold Dequantize_error in Elo, Ehi. fold zp in Elo, Ehi.
  apply Qabs_Qle_condition in Elo as [Elo _].
  apply Qabs_Qle_condition in Ehi as [_ Ehi].
  assert (Hlo : (- pow2 p <= inject_Z (spec_lo p sgn - zp))%Q).
  { rewrite pow2_nonneg_exp, <- inject_Z_opp, <- Zle_Qle by lia. lia. }
  assert (Hhi : (inject_Z (spec_hi p sgn - zp) <= pow2 p)%Q).
  { rewrite pow2_nonneg_exp, <- Zle_Qle by lia. lia. }
  (* the operations of the transformed value *)
  assert (Hx32 : (Qabs (F2Q x) <= pow2 32 * Qabs (F2Q (scale qp)))%Q).
  { pose proof (Dequantize_int32_bounded (spec_lo p sgn) qp Hv Hspos) as Hmin.
    pose proof (Dequantize_int32_bounded (spec_hi p sgn) qp Hv Hspos) as Hmx.
    apply Qabs_Qle_condition in Hmin as [Hmin _].
    apply Qabs_Qle_condition in Hmx as [_ Hmx].
    rewrite Habs. apply Qabs_Qle_condition. split; lra. }
  destruct (fdiv_le_pow2 x (scale qp) 32 Hxfin Hsfin ltac:(lra) ltac:(lia)
              Hx32) as [_ Hyfin].
  specialize (Hyfin ltac:(lia)).
  pose proof (fdiv_error x (scale qp) Hxfin Hsfin ltac:(lra) Hyfin) as Ey.
  assert (Hzabs : Z.abs zp <= 2 ^ p)
    by (apply (quantized_range_abs p sgn); [lia|exact Hzp]).
  assert (H127 : 2 ^ p <= 2 ^ 127) by (apply Z.pow_le_mono_r; lia).
  destruct (float_of_Z_error zp ltac:(lia)) as (_ & Hzfin & Ez).
  pose proof (Qabs_inject_Z_le zp (2 ^ p) Hzabs) as Hzq.
  rewrite <- pow2_nonneg_exp in Hzq by lia.
  pose proof (fadd_error (float_of_Z zp) (fdiv x (scale qp)) Hzfin Hyfin Htfin)
    as Et.
  unfold transformed_val_error, transformed_val.
  assert (HuP : (pow2 (p - 23) == pow2 (-23) * pow2 p)%Q).
  { rewrite <- pow2_add. replace (-23 + p) with (p - 23) by lia. reflexivity. }
  rewrite HuP in *.
  change (pow2 (-23)) with (1 # 8388608)%Q in *.
  assert (Heta : (0 < pow2 (-149) <= 1 # 8388608)%Q)
    by (split; vm_compute; reflexivity || discriminate).
  assert (HP2 : (2 <= pow2 p)%Q).
  { rewrite pow2_nonneg_exp by lia. change 2%Q with (inject_Z 2).
    rewrite <- Zle_Qle. change 2 with (2 ^ 1) at 1.
    apply Z.pow_le_mono_r; lia. }
  set (S := F2Q (scale qp)) in *. set (X := F2Q x) in *.
  assert (HS0 : ~ (S == 0)%Q) by lra.
  pose proof (Qmult_div_r X S HS0) as Hw.
  set (w := (X / S)%Q) in *.
  set (y := F2Q (fdiv x (scale qp))) in *.
  set (Z' := F2Q (float_of_Z zp)) in *.
  set (t := F2Q (fadd (float_of_Z zp) (fdiv x (scale qp)))) in *.
  set (eta := pow2 (-149)) in *.
  set (P := pow2 p) in *.
  set (zq := inject_Z zp) in *.
  set (dlo := inject_Z (spec_lo p sgn - zp)) in *.
  set (dhi := inject_Z (spec_hi p sgn - zp)) in *.
  set (Mn := F2Q (Dequantize Int32 (spec_lo p sgn) qp)) in *.
  set (Mx := F2Q (Dequantize Int32 (spec_hi p sgn) qp)) in *.
  clearbody S X w y Z' t eta P zq dlo dhi Mn Mx.
  clear - Hspos Hleast Elo Ehi Hlo Hhi Hxlo Hxhi Ey Ez Hzq Et Heta HP2 Hw.
  (* the real quotient is at most [3 * P] in magnitude *)
  assert (HSP : (- (S * P) <= S * dlo /\ S * dhi <= S * P)%Q) by (split; nra).
  assert (HSe : (S * eta <= S * 1)%Q) by nra.
  assert (HwS : (- (S * (3 * P)) <= S * w <= S * (3 * P))%Q).
  { rewrite Hw. split; nra. }
  assert (Hwb : (- (3 * P) <= w <= 3 * P)%Q) by (split; nra).
  assert (Haw : (Qabs w <= 3 * P)%Q) by (apply Qabs_Qle_condition; lra).
  clear HSP HSe HwS Hwb Elo Ehi Hlo Hhi Hxlo Hxhi Hw Hleast Hspos.
  apply Qabs_Qle_condition in Ey. apply Qabs_Qle_condition in Ez.
  assert (Hsum : (Qabs (Z' + y) <= Qabs zq + Qabs w
                    + ((1 # 8388608) * Qabs zq + eta)
                    + ((1 # 8388608) * Qabs w + eta))%Q).
  { apply Qabs_Qle_condition.
    pose proof (Qabs_bounds zq). pose proof (Qabs_bounds w). split; lra. }
  apply Qabs_Qle_condition in Et.
  pose proof (Qabs_nonneg w) as Hw0. pose proof (Qabs_nonneg zq) as Hz0.
  set (aw := Qabs w) in *. set (az := Qabs zq) in *.
  set (as_ := Qabs (Z' + y)) in *. clearbody aw az as_.
  apply Qabs_Qle_condition. split; lra.
Qed.

(** The rounding errors of a round trip are at most [scale * 2^(p - 18) +
    2^-147] for a precision [p <= 31], a type whose difference with the
    zero point is a signed subtraction, and a range that stays within the
    format. *)
Lemma round_trip_error_le T x q qp :
  let sgn := is_signed_v T in
  valid_qparams sgn qp -> is_binary32 (scale qp) ->
  bounds_fit_int32 (precision qp) sgn -> precision qp <= 31 ->
  is_signed_v (common_type T Int32) = true ->
  is_finite x = true ->
  (F2Q (Min sgn qp) <= F2Q x <= F2Q (Max sgn qp))%Q ->
  (F2Q (scale qp) * pow2 (precision qp) <= pow2 127)%Q ->
  spec_lo (precision qp) sgn <= q <= spec_hi (precision qp) sgn ->
  (round_trip_error T x q sgn qp
   <= F2Q (scale qp) * pow2 (precision qp - 18) + pow2 (-147))%Q.
Proof.
  intros sgn Hvalid Hv Hfit Hp31 Hsgn Hxfin Hx Hmax Hq.
  pose proof (transformed_val_error_le sgn x qp Hvalid Hv Hfit Hp31 Hxfin Hx
                Hmax) as Et.
  destruct Hvalid as (Hsfin & Hspos & Hprec & Hzp).
  set (p := precision qp) in *. set (zp := zero_point qp) in *.
  pose proof (quantized_range_width p sgn ltac:(lia)) as Hwidth.
  pose proof (Z.pow_pos_nonneg 2 p ltac:(lia) ltac:(lia)) as H2p.
  pose proof (Dequantize_error_le T q qp p Hv Hspos Hsgn ltac:(lia)
                ltac:(fold zp; lia) Hmax) as Eq.
  pose proof (Dequantize_error_le Int32 (spec_lo p sgn) qp p Hv Hspos
                eq_refl ltac:(lia) ltac:(fold zp; lia) Hmax) as Elo.
  pose proof (Dequantize_error_le Int32 (spec_hi p sgn) qp p Hv Hspos
                eq_refl ltac:(lia) ltac:(fold zp; lia) Hmax) as Ehi.
  unfold round_trip_error. fold p zp.
  assert (Hblo : (0 <= boundary_error q (spec_lo p sgn) qp
                  <= Dequantize_error Int32 (spec_lo p sgn) qp)%Q).
  { unfold boundary_error. destruct (q =? spec_lo p sgn).
    - split; [apply Qabs_nonneg|apply Qle_refl].
    - split; [apply Qle_refl|apply Qabs_nonneg]. }
  assert (Hbhi : (0 <= boundary_error q (spec_hi p sgn) qp
                  <= Dequantize_error Int32 (spec_hi p sgn) qp)%Q).
  { unfold boundary_error. destruct (q =? spec_hi p sgn).
    - split; [apply Qabs_nonneg|apply Qle_refl].
    - split; [apply Qle_refl|apply Qabs_nonneg]. }
  assert (HuP : forall j, (pow2 (p - j) == pow2 (- j) * pow2 p)%Q).
  { intros j. rewrite <- pow2_add. replace (- j + p) with (p - j) by lia.
    reflexivity. }
  rewrite (HuP 23) in *. rewrite (HuP 18).
  change (pow2 (- (23))) with (1 # 8388608)%Q in *.
  change (pow2 (- (18))) with (1 # 262144)%Q.
  assert (H147 : (pow2 (-147) == 4 * pow2 (-149))%Q)
    by (vm_compute; reflexivity).
  rewrite H147. clear H147.
  assert (Heta : (0 < pow2 (-149) <= 1 # 8388608)%Q)
    by (split; vm_compute; reflexivity || discriminate).
  assert (HP2 : (2 <= pow2 p)%Q).
  { rewrite pow2_nonneg_exp by lia. change 2%Q with (inject_Z 2).
    rewrite <- Zle_Qle. change 2 with (2 ^ 1) at 1.
    apply Z.pow_le_mono_r; lia. }
  set (S := F2Q (scale qp)) in *. set (eta := pow2 (-149)) in *.
  set (P := pow2 p) in *.
  set (et := transformed_val_error x zp (scale qp)) in *.
  set (eq := Dequantize_error T q qp) in *.
  set (elo := Dequantize_error Int32 (spec_lo p sgn) qp) in *.
  set (ehi := Dequantize_error Int32 (spec_hi p sgn) qp) in *.
  set (blo := boundary_error q (spec_lo p sgn) qp) in *.
  set (bhi := boundary_error q (spec_hi p sgn) qp) in *.
  clearbody S eta P et eq elo ehi blo bhi.
  clear - Hspos Et Eq Elo Ehi Hblo Hbhi Heta HP2.
  assert (H1 : (S * et <= S * (10 * ((1 # 8388608) * P) + 3 * eta))%Q) by nra.
  assert (H2 : (S * (6 * eta) <= S * (16 * ((1 # 8388608) * P)))%Q) by nra.
  nra.
Qed.

(** ** Quantize *)




(** The transformed value is inside the range whenever the real quotient
    [src / scale] is at most [2^61] in magnitude, for a 32-bit zero point. *)
Lemma transformed_val_in_int64 x zp scale :
  is_finite x = true -> is_finite scale = true -> ~ (F2Q scale == 0)%Q ->
  in_range Int32 zp ->
  (Qabs (F2Q x) <= pow2 61 * Qabs (F2Q scale))%Q ->
  let t := fadd (float_of_Z zp) (fdiv x scale) in
  is_finite t = true /\
  (inject_Z (lowest Int64) <= F2Q t <= inject_Z (max_of Int64))%Q.
Proof.
  intros Hx Hs Hs0 Hzp Hle t.
  destruct (fdiv_le_pow2 x scale 61 Hx Hs Hs0 ltac:(lia) Hle)
    as [Hdiv Hdivfin].
  destruct (float_of_Z_le_pow2 zp 31 ltac:(lia) (int32_abs _ Hzp))
    as [Hzfin Hzle].
  assert (H62 : (pow2 31 + pow2 61 <= pow2 62)%Q) by (vm_compute; discriminate).
  destruct (fadd_le_pow2 (float_of_Z zp) (fdiv x scale) 62 Hzfin
              (Hdivfin ltac:(lia)) ltac:(lia) ltac:(lra)) as [Htfin Htle].
  fold t in Htfin, Htle. split; [exact Htfin|].
  apply Qabs_Qle_condition in Htle.
  assert (Hlo : (inject_Z (lowest Int64) <= - pow2 62)%Q)
    by (vm_compute; discriminate).
  assert (Hhi : (pow2 62 <= inject_Z (max_of Int64))%Q)
    by (vm_compute; discriminate).
  split; lra.
Qed.

(** The lowest [int64_t] value is inside the range: [x = -2^63] at scale 1
    is converted and saturated to 0. *)
Lemma Quantize_lowest_int64 :
  Quantize UInt8 (S754_finite true 8388608 40) 0 (float_of_Z 1) 8 false
  = Some 0.
Proof. vm_compute. reflexivity. Qed.

(** ** Dequantize: the integer difference *)

Lemma common_type_narrow T : bits T <= 16 -> common_type T Int32 = Int32.
Proof. destruct T; cbn; intros; try reflexivity; lia. Qed.

Lemma narrow_range T z :
  bits T <= 16 -> in_range T z -> -32768 <= z <= 65535.
Proof. destruct T; unfold_int; lia. Qed.




(** ** Dequantize: the product *)

(** C8: for [T = uint32_t] the difference is an unsigned 32-bit
    subtraction, so with [q = 0], [zero_point = 1] and scale 1 the code
    returns [2^32] where [scale * (q - zero_point)], the equation the header
    states for a quantized value, is [-1]; the instantiations for [uint8_t]
    and [int32_t] return [-1] on the same arguments. *)
Theorem Dequantize_uint32_difference_wraps :
  let qp := {| scale := float_of_Z 1; zero_point := 1; precision := 32 |} in
  in_range UInt32 0 /\ in_range Int32 (zero_point qp) /\
  c_sub (common_type UInt32 Int32) 0 1 = 4294967295 /\
  (F2Q (Dequantize UInt32 0 qp) == inject_Z 4294967296)%Q /\
  (F2Q (fmul (scale qp) (float_of_Z (0 - zero_point qp))) == inject_Z (-1))%Q /\
  Dequantize UInt32 0 qp <> fmul (scale qp) (float_of_Z (0 - zero_point qp)) /\
  Dequantize UInt8 0 qp = fmul (scale qp) (float_of_Z (0 - zero_point qp)) /\
  Dequantize Int32 0 qp = fmul (scale qp) (float_of_Z (0 - zero_point qp)).
Proof.
  intros qp.
  split; [apply in_rangeb_spec; reflexivity|].
  split; [apply in_rangeb_spec; reflexivity|].
  split; [vm_compute; reflexivity|]. split; [vm_compute; reflexivity|].
  split; [vm_compute; reflexivity|]. split; [vm_compute; discriminate|].
  split; vm_compute; reflexivity.
Qed.

(** Wherever the integer difference [q - zero_point] is a value of the type
    the subtraction is evaluated in, as it is for every [T] of at most 16
    bits with a zero point of [T], [Dequantize] is the binary32 product of
    the scale and that difference converted to [float]; nothing is rounded
    to an integer and nothing is clamped: 3 at scale 0.5 gives 1.5, and 255
    at scale 1000 gives 255000. *)
Lemma Dequantize_is_float_product T q qp :
  in_range T q -> in_range Int32 (zero_point qp) ->
  in_range (common_type T Int32) (q - zero_point qp) ->
  Dequantize T q qp = fmul (scale qp) (float_of_Z (q - zero_point qp)) /\
  (F2Q (Dequantize UInt8 3
          {| scale := float_half; zero_point := 0; precision := 8 |})
   == 3 # 2)%Q /\
  (F2Q (Dequantize UInt8 255
          {| scale := float_of_Z 1000; zero_point := 0; precision := 8 |})
   == inject_Z 255000)%Q.
Proof.
  intros Hq Hzp Hd. split; [|split; vm_compute; reflexivity].
  unfold Dequantize. rewrite c_sub_cast, cast_id by assumption. reflexivity.
Qed.

(** ** The quantization error *)

Lemma inject_Z_half_le a b :
  (inject_Z a - (1 # 2) <= inject_Z b)%Q -> a <= b.
Proof. unfold Qle, Qminus, Qplus, Qopp, inject_Z. cbn. lia. Qed.

Lemma inject_Z_half_ge a b :
  (inject_Z b <= inject_Z a + (1 # 2))%Q -> b <= a.
Proof. unfold Qle, Qminus, Qplus, Qopp, inject_Z. cbn. lia. Qed.

Lemma inject_Z_minus a b : inject_Z (a - b) = (inject_Z a - inject_Z b)%Q.
Proof.
  unfold Z.sub. rewrite inject_Z_plus, inject_Z_opp. reflexivity.
Qed.

(** C3 as stated fails in binary32: with scale 1, zero point 128 and 8
    unsigned bits, [x = 0.5 + 2^-24] lies in [[Min(), Max()] = [-128, 127]];
    [128 + x] rounds to the binary32 value 128.5, which [std::nearbyint]
    takes to 128, and 128 dequantizes to 0, at distance [0.5 + 2^-24] from
    [x], above [scale / 2]. *)
Lemma Quantize_Dequantize_error_exceeds_half_scale :
  let qp := {| scale := float_of_Z 1; zero_point := 128; precision := 8 |} in
  valid_qparams false qp /\
  (F2Q (Min false qp) <= F2Q float_half_succ <= F2Q (Max false qp))%Q /\
  transformed_val float_half_succ 128 (float_of_Z 1)
    = S754_finite false 8421376 (-16) /\
  Quantize_qparams UInt8 float_half_succ qp = Some 128 /\
  Dequantize UInt8 128 qp = S754_zero false /\
  ~ (Qabs (F2Q (Dequantize UInt8 128 qp) - F2Q float_half_succ)
     <= F2Q (scale qp) / 2)%Q.
Proof.
  intros qp.
  split; [split; [reflexivity|split; [reflexivity|split; cbn; lia]]|].
  split; [split; vm_compute; discriminate|].
  split; [vm_compute; reflexivity|]. split; [vm_compute; reflexivity|].
  split; [vm_compute; reflexivity|].
  vm_compute. intros H. apply H. reflexivity.
Qed.

Lemma Qabs_diff_zero a b : (a == b)%Q -> (Qabs (a - b) == 0)%Q.
Proof.
  intros Hab. rewrite Hab.
  assert (H0 : (b - b == 0)%Q) by ring. rewrite H0. reflexivity.
Qed.

Lemma boundary_error_nonneg q b qp : (0 <= boundary_error q b qp)%Q.
Proof.
  unfold boundary_error, Dequantize_error.
  destruct (q =? b); [apply Qabs_nonneg|apply Qle_refl].
Qed.

Lemma boundary_error_at b qp :
  boundary_error b b qp = Dequantize_error Int32 b qp.
Proof. unfold boundary_error. rewrite Z.eqb_refl. reflexivity. Qed.

(** The real error of a saturated rounding: [u] is the real quotient, [tt]
    its computed value with error at most [et], [n] the rounding of [tt],
    and the real value [s * u] lies between the two ends up to [emin] and
    [emax], which only count when the result is that end. *)
Lemma scaled_clamp_error (s u tt et emin emax a b : Q) (n lo hi zp : Z) :
  (0 < s)%Q -> lo <= hi ->
  (- et <= tt - (inject_Z zp + u) <= et)%Q ->
  (- (1 # 2) <= inject_Z n - tt <= 1 # 2)%Q ->
  (s * (inject_Z lo - inject_Z zp) - emin <= s * u)%Q ->
  (s * u <= s * (inject_Z hi - inject_Z zp) + emax)%Q ->
  let q := Z.min (Z.max n lo) hi in
  (0 <= a)%Q -> (0 <= b)%Q ->
  (q = lo -> a == emin)%Q -> (q = hi -> b == emax)%Q ->
  (- (s / 2 + s * et + a + b)
   <= s * (inject_Z q - inject_Z zp) - s * u
   <= s / 2 + s * et + a + b)%Q.
Proof.
  intros Hs Hle [Ht1 Ht2] [Hn1 Hn2] Hlo Hhi q Ha Hb Hqa Hqb.
  assert (H2 : (s / 2 == s * (1 # 2))%Q) by field.
  assert (Het : (0 <= et)%Q) by lra.
  destruct (Z.le_gt_cases n hi) as [Hnhi|Hnhi];
    [destruct (Z.le_gt_cases lo n) as [Hnlo|Hnlo]|].
  - replace q with n by (unfold q; lia). rewrite H2. split; nra.
  - assert (Hq : q = lo) by (unfold q; lia). specialize (Hqa Hq).
    rewrite Hq.
    assert (Hn : (inject_Z n <= inject_Z lo)%Q) by (rewrite <- Zle_Qle; lia).
    rewrite H2, Hqa. split; nra.
  - assert (Hq : q = hi) by (unfold q; lia). specialize (Hqb Hq).
    rewrite Hq.
    assert (Hn : (inject_Z hi <= inject_Z n)%Q) by (rewrite <- Zle_Qle; lia).
    rewrite H2, Hqb. split; nra.
Qed.

(** C3, amended: for valid parameters whose bounds fit and every finite
    [x] inside [[Min(), Max()]], [Quantize] returns a value [q] of the
    quantized range (the transformed value is finite and within the
    [int64_t] range) and [|Dequantize(q) - x|] is at most [scale / 2] plus
    the rounding errors the binary32 operations commit on the way
    ([round_trip_error]); it is at most [scale / 2] where these operations
    are exact.  For a precision of at most 31 bits, a type [T] whose
    difference with the zero point is a signed subtraction and
    [scale * 2^precision <= 2^127] these errors are at most
    [scale * 2^(precision - 18) + 2^-147]. *)
Theorem Quantize_Dequantize_error_bound T x qp :
  let sgn := is_signed_v T in
  let lo := spec_lo (precision qp) sgn in
  let hi := spec_hi (precision qp) sgn in
  let t := transformed_val x (zero_point qp) (scale qp) in
  valid_qparams sgn qp -> is_binary32 (scale qp) ->
  bounds_fit_int32 (precision qp) sgn ->
  in_range T lo -> in_range T hi ->
  is_finite x = true ->
  (F2Q (Min sgn qp) <= F2Q x <= F2Q (Max sgn qp))%Q ->
  exists q,
    is_finite t = true /\ (Qabs (F2Q t) <= pow2 33)%Q /\
    Quantize_qparams T x qp = Some q /\ lo <= q <= hi /\
    (Qabs (F2Q (Dequantize T q qp) - F2Q x)
     <= F2Q (scale qp) / 2 + round_trip_error T x q sgn qp)%Q /\
    (transformed_val_exact x (zero_point qp) (scale qp) ->
     Dequantize_exact T q qp ->
     (q = lo -> Dequantize_exact Int32 lo qp) ->
     (q = hi -> Dequantize_exact Int32 hi qp) ->
     (Qabs (F2Q (Dequantize T q qp) - F2Q x) <= F2Q (scale qp) / 2)%Q) /\
    (precision qp <= 31 -> is_signed_v (common_type T Int32) = true ->
     (F2Q (scale qp) * pow2 (precision qp) <= pow2 127)%Q ->
     (Qabs (F2Q (Dequantize T q qp) - F2Q x)
      <= F2Q (scale qp) / 2
         + (F2Q (scale qp) * pow2 (precision qp - 18) + pow2 (-147)))%Q).
Proof.
  intros sgn lo hi t Hvalid Hbin Hfit HloT HhiT Hxfin Hx.
  pose proof (fun q => round_trip_error_le T x q qp Hvalid Hbin Hfit) as Hprior.
  cbv zeta in Hprior. fold sgn in Hprior.
  destruct (transformed_val_bounded sgn x qp Hvalid Hbin Hfit Hxfin Hx)
    as [Htfin Ht33]. fold t in Htfin, Ht33.
  assert (Habs : (Qabs (F2Q t) <= inject_Z (max_of Int64))%Q).
  { eapply Qle_trans; [exact Ht33|]. vm_compute. discriminate. }
  destruct Hvalid as (Hsfin & Hspos & Hprec & Hzp). destruct Hx as [Hxlo Hxhi].
  destruct (spec_bounds_int32 _ _ Hfit) as [Hlo32 Hhi32].
  fold lo hi in Hlo32, Hhi32.
  pose proof (spec_lo_le_hi (precision qp) sgn (proj1 Hfit)) as Hle.
  fold lo hi in Hle.
  destruct (lrintf_spec t (max_of Int64) Htfin) as (n & Hn & _ & Hnear & _);
    [unfold_int; lia|exact Habs|].
  set (q := Z.min (Z.max n lo) hi).
  assert (Hq : Quantize_qparams T x qp = Some q).
  { unfold Quantize_qparams, Quantize. fold sgn t.
    rewrite nearbyint_then_cast, Hn. cbn [mbind option_bind]. f_equal.
    apply clamp_saturates; auto using int32_in_int64. }
  assert (Hbound : (Qabs (F2Q (Dequantize T q qp) - F2Q x)
     <= F2Q (scale qp) / 2 + round_trip_error T x q sgn qp)%Q).
  { unfold round_trip_error. fold lo hi.
    pose proof (boundary_error_nonneg q lo qp) as Ha.
    pose proof (boundary_error_nonneg q hi qp) as Hb.
    assert (Hqa : q = lo ->
                  (boundary_error q lo qp == Dequantize_error Int32 lo qp)%Q)
      by (intros ->; rewrite boundary_error_at; reflexivity).
    assert (Hqb : q = hi ->
                  (boundary_error q hi qp == Dequantize_error Int32 hi qp)%Q)
      by (intros ->; rewrite boundary_error_at; reflexivity).
    set (a := boundary_error q lo qp) in *.
    set (b := boundary_error q hi qp) in *.
    unfold transformed_val_error, Dequantize_error in *. fold t.
    unfold Min, Max in Hxlo, Hxhi. fold lo hi in Hxlo, Hxhi.
    set (s := F2Q (scale qp)) in *. set (zp := zero_point qp) in *.
    assert (Hs0 : ~ (s == 0)%Q) by lra.
    pose proof (Qmult_div_r (F2Q x) s Hs0) as Hu.
    set (u := (F2Q x / s)%Q) in *.
    rewrite !inject_Z_minus in *.
    pose proof (Qabs_bounds (F2Q t - (inject_Z zp + u))) as Het.
    pose proof (Qabs_bounds
                  (F2Q (Dequantize T q qp)
                   - s * (inject_Z q - inject_Z zp))) as Her.
    pose proof (Qabs_bounds
                  (F2Q (Dequantize Int32 lo qp)
                   - s * (inject_Z lo - inject_Z zp))) as Hemin.
    pose proof (Qabs_bounds
                  (F2Q (Dequantize Int32 hi qp)
                   - s * (inject_Z hi - inject_Z zp))) as Hemax.
    set (et := Qabs (F2Q t - (inject_Z zp + u))) in *.
    set (er := Qabs (F2Q (Dequantize T q qp)
                     - s * (inject_Z q - inject_Z zp))) in *.
    set (emin := Qabs (F2Q (Dequantize Int32 lo qp)
                       - s * (inject_Z lo - inject_Z zp))) in *.
    set (emax := Qabs (F2Q (Dequantize Int32 hi qp)
                       - s * (inject_Z hi - inject_Z zp))) in *.
    apply Qabs_Qle_condition in Hnear.
    assert (H1 : (s * (inject_Z lo - inject_Z zp) - emin <= s * u)%Q)
      by (rewrite Hu; lra).
    assert (H2 : (s * u <= s * (inject_Z hi - inject_Z zp) + emax)%Q)
      by (rewrite Hu; lra).
    pose proof (scaled_clamp_error s u (F2Q t) et emin emax a b n lo hi zp
                  Hspos Hle Het Hnear H1 H2 Ha Hb Hqa Hqb) as Hclamp.
    cbv zeta in Hclamp. fold q in Hclamp. rewrite Hu in Hclamp.
    apply Qabs_Qle_condition. split; lra. }
  exists q. split; [exact Htfin|]. split; [exact Ht33|].
  split; [exact Hq|]. split; [unfold q; lia|].
  split; [exact Hbound|].
  split;
    [|intros Hp31 Hsgn Hmax;
      pose proof (Hprior q Hp31 Hsgn Hxfin (conj Hxlo Hxhi) Hmax
                    ltac:(unfold q; fold lo hi; lia)) as Hrt;
      lra].
  intros Ht Hd Hdlo Hdhi.
  unfold round_trip_error, transformed_val_error, Dequantize_error in Hbound.
  fold lo hi in Hbound.
  rewrite (Qabs_diff_zero _ _ Ht), (Qabs_diff_zero _ _ Hd) in Hbound.
  assert (Ha : (boundary_error q lo qp == 0)%Q).
  { unfold boundary_error. destruct (Z.eqb_spec q lo) as [He|He];
      [|reflexivity].
    apply Qabs_diff_zero, (Hdlo He). }
  assert (Hb : (boundary_error q hi qp == 0)%Q).
  { unfold boundary_error. destruct (Z.eqb_spec q hi) as [He|He];
      [|reflexivity].
    apply Qabs_diff_zero, (Hdhi He). }
  rewrite Ha, Hb in Hbound. lra.
Qed.

Lemma Quantize_Dequantize_error_bound_witness :
  (exists q,
     is_finite (transformed_val float_tenth 128 float_2_255) = true /\
     (Qabs (F2Q (transformed_val float_tenth 128 float_2_255)) <= pow2 33)%Q /\
     Quantize_qparams UInt8 float_tenth unit_range_qparams = Some q /\
     spec_lo 8 false <= q <= spec_hi 8 false /\
     (Qabs (F2Q (Dequantize UInt8 q unit_range_qparams) - F2Q float_tenth)
      <= F2Q float_2_255 / 2
         + round_trip_error UInt8 float_tenth q false unit_range_qparams)%Q /\
     (transformed_val_exact float_tenth 128 float_2_255 ->
      Dequantize_exact UInt8 q unit_range_qparams ->
      (q = spec_lo 8 false ->
       Dequantize_exact Int32 (spec_lo 8 false) unit_range_qparams) ->
      (q = spec_hi 8 false ->
       Dequantize_exact Int32 (spec_hi 8 false) unit_range_qparams) ->
      (Qabs (F2Q (Dequantize UInt8 q unit_range_qparams) - F2Q float_tenth)
       <= F2Q float_2_255 / 2)%Q) /\
     (Qabs (F2Q (Dequantize UInt8 q unit_range_qparams) - F2Q float_tenth)
      <= F2Q float_2_255 / 2
         + (F2Q float_2_255 * pow2 (8 - 18) + pow2 (-147)))%Q) /\
  ~ Dequantize_exact Int32 (spec_hi 8 false) unit_range_qparams.
Proof.
  split.
  - destruct (Quantize_Dequantize_error_bound UInt8 float_tenth
                unit_range_qparams)
      as (q & H1 & H2 & H3 & H4 & H5 & H6 & H7).
    + split; [reflexivity|split; [reflexivity|split; cbn; lia]].
    + reflexivity.
    + split; cbn; lia.
    + apply in_rangeb_spec. reflexivity.
    + apply in_rangeb_spec. reflexivity.
    + reflexivity.
    + split; vm_compute; discriminate.
    + exists q. split; [exact H1|]. split; [exact H2|]. split; [exact H3|].
      split; [exact H4|]. split; [exact H5|]. split; [exact H6|].
      apply H7; [cbn; lia|reflexivity|vm_compute; discriminate].
  - vm_compute. discriminate.
Defined.

(** At the parameters of the witness and [x = 0] no operation rounds: the
    round trip returns 128 and 0, with [round_trip_error] zero, although
    [Max()] itself is rounded. *)
Lemma Quantize_Dequantize_error_at_zero :
  Quantize_qparams UInt8 (S754_zero false) unit_range_qparams = Some 128 /\
  Dequantize UInt8 128 unit_range_qparams = S754_zero false /\
  (round_trip_error UInt8 (S754_zero false) 128 false unit_range_qparams
   == 0)%Q /\
  (Dequantize_error Int32 255 unit_range_qparams == 1 # 1073741824)%Q.
Proof.
  split; [vm_compute; reflexivity|]. split; [vm_compute; reflexivity|].
  split; vm_compute; reflexivity.
Qed.

(** The bound is attained where the half-scale bound fails: at scale 1,
    zero point 128 and [x = 0.5 + 2^-24] the only rounding error is the
    [2^-24] lost in [128 + x], and the round trip is off by exactly
    [scale / 2 + 2^-24]. *)
Lemma Quantize_Dequantize_error_bound_attained :
  Quantize_qparams UInt8 float_half_succ unit_scale_qparams = Some 128 /\
  (round_trip_error UInt8 float_half_succ 128 false unit_scale_qparams
   == 1 # 16777216)%Q /\
  (Qabs (F2Q (Dequantize UInt8 128 unit_scale_qparams) - F2Q float_half_succ)
   == F2Q (scale unit_scale_qparams) / 2
      + round_trip_error UInt8 float_half_succ 128 false unit_scale_qparams)%Q.
Proof.
  split; [vm_compute; reflexivity|]. split; vm_compute; reflexivity.
Qed.

(** ** The fixed-point requantizer *)

Lemma quantized_down_sum zp s :
  in_range Int32 zp -> in_range Int64 s ->
  c_add (common_type Int32 Int64) zp s = cast Int64 (zp + s).
Proof.
  intros Hzp Hs. change (common_type Int32 Int64) with Int64. unfold c_add.
  rewrite (cast_id Int64 zp) by (apply int32_in_int64; assumption).
  rewrite (cast_id Int64 s) by assumption. reflexivity.
Qed.

(** At precision 32 without sign the local [max] of [clamp] is [-1], below
    the local [min]: every source yields [-1] converted to [T2]. *)
Lemma clamp_unsigned_32 T2 src : clamp Int64 T2 src 32 false = cast T2 (-1).
Proof.
  unfold clamp. change (clamp_min 32 false) with 0.
  change (clamp_max 32 false) with (-1).
  change (cast Int64 0) with 0. change (cast Int64 (-1)) with (-1).
  unfold std_min, std_max.
  destruct (Z.ltb_spec src 0); destruct (Z.ltb_spec (-1) 0);
    destruct (Z.ltb_spec (-1) src); try lia; reflexivity.
Qed.

Section RequantizationProperties.

Variable SRMWS : Z -> Z -> Z -> Z.

(** C4: the fixed-point [Requantize] is [clamp<int64_t, T>] of
    [zero_point + SaturatingRoundingMulWithShift(src, multiplier,
    right_shift)]; the sum is a 64-bit one, so it is the exact sum
    whenever that is an [int64_t] value, and for the precisions whose
    bounds fit the result is the sum saturated to the bounds. *)
Theorem Requantize_clamps_64bit_sum T src zp mult rs p sgn :
  in_range Int32 src -> in_range Int32 zp -> in_range Int32 mult ->
  in_range Int64 (SRMWS src mult rs) ->
  let sum := zp + SRMWS src mult rs in
  Requantize SRMWS T src zp mult rs p sgn
    = clamp Int64 T (cast Int64 sum) p sgn /\
  (in_range Int64 sum ->
     Requantize SRMWS T src zp mult rs p sgn = clamp Int64 T sum p sgn /\
     (bounds_fit_int32 p sgn ->
      in_range T (spec_lo p sgn) -> in_range T (spec_hi p sgn) ->
      Requantize SRMWS T src zp mult rs p sgn
        = Z.min (Z.max sum (spec_lo p sgn)) (spec_hi p sgn))).
Proof.
  intros Hsrc Hzp Hmult Hs sum. unfold Requantize.
  rewrite quantized_down_sum by assumption. fold sum.
  split; [reflexivity|]. intros Hsum.
  rewrite (cast_id Int64 sum) by assumption.
  split; [reflexivity|]. intros Hp Hlo Hhi.
  destruct (spec_bounds_int32 p sgn Hp) as [Hlo32 Hhi32].
  apply clamp_saturates; auto using int32_in_int64.
Qed.

(** C6: both parameter-struct entry points pass [result_is_signed =
    false] to the requantizer beneath them, whatever [T] is.  For a
    precision in [[1, 31]] the result is the 64-bit sum saturated to
    [[0, 2^precision - 1]] and then converted to [T], which enters nowhere
    else; in the real-multiplier path the sum is [zero_point] plus the
    product rounded to the nearest integer, ties to even.  At precision 32
    the upper bound is stored in the 32-bit local of [clamp] as [-1] and
    both entry points return [-1] converted to [T] whatever the sum is,
    where the claim gives the sum saturated to [[0, 2^32 - 1]]. *)
Theorem requantize_params_clamp_unsigned T src params :
  let tq := target_qparams params in
  let zp := zero_point tq in
  let p := precision tq in
  let fixed :=
    c_add Int64 zp (SRMWS src (multiplier params) (right_shift params)) in
  let prod := fmul (float_of_Z src) (real_multiplier params) in
  RequantizeFixedPoint SRMWS T src params
    = Requantize SRMWS T src zp (multiplier params) (right_shift params) p
        false /\
  Requantize_params T src params
    = Requantize_float T src zp (real_multiplier params) p false /\
  (1 <= p <= 31 ->
     RequantizeFixedPoint SRMWS T src params
       = cast T (Z.min (Z.max fixed 0) (2 ^ p - 1)) /\
     Requantize_params T src params
       = (r ← lrintf prod;
          Some (cast T (Z.min (Z.max (c_add Int64 zp r) 0) (2 ^ p - 1)))) /\
     (in_range Int32 zp -> is_finite prod = true ->
      (Qabs (F2Q prod) <= inject_Z (2 ^ 62))%Q ->
      exists n,
        nearest_even n (F2Q prod) /\
        Requantize_params T src params
          = Some (cast T (Z.min (Z.max (zp + n) 0) (2 ^ p - 1))))) /\
  (p = 32 ->
     RequantizeFixedPoint SRMWS T src params = cast T (-1) /\
     Requantize_params T src params = (_ ← lrintf prod; Some (cast T (-1)))).
Proof.
  intros tq zp p fixed prod. split; [reflexivity|]. split; [reflexivity|].
  split.
  - intros Hp.
    assert (Hfit : bounds_fit_int32 p false) by (split; lia).
    destruct (spec_bounds_int32 _ _ Hfit) as [Hlo Hhi].
    assert (Hsat : forall x, in_range Int64 x ->
                   clamp Int64 T x p false
                   = cast T (Z.min (Z.max x 0) (2 ^ p - 1))).
    { intros x Hx. rewrite clamp_narrows_last by assumption. f_equal.
      apply clamp_saturates; auto using int32_in_int64. }
    assert (Hflt : Requantize_params T src params
                   = (r ← lrintf prod;
                      Some (cast T (Z.min (Z.max (c_add Int64 zp r) 0)
                                      (2 ^ p - 1))))).
    { unfold Requantize_params, Requantize_float. fold tq zp p prod.
      destruct (lrintf prod) as [r|]; [|reflexivity].
      cbn [mbind option_bind]. f_equal.
      change (common_type Int32 c_long) with Int64. change c_long with Int64.
      apply Hsat, cast_in_range. }
    split; [|split; [exact Hflt|]].
    + unfold RequantizeFixedPoint, Requantize. fold tq zp p.
      change (common_type Int32 Int64) with Int64. fold fixed.
      apply Hsat, cast_in_range.
    + intros Hzp Hfin Habs.
      destruct (lrintf_spec prod (2 ^ 62) Hfin) as (n & Hn & Hrange & Hnear);
        [unfold_int; lia|exact Habs|].
      exists n. split; [exact Hnear|].
      rewrite Hflt, Hn. cbn [mbind option_bind]. do 4 f_equal.
      change (2 ^ 62) with 4611686018427387904 in Hrange.
      change Int64 with (common_type Int32 Int64).
      rewrite quantized_down_sum; [|assumption|unfold_int; lia].
      apply cast_id. unfold_int. lia.
  - intros Hp. split.
    + unfold RequantizeFixedPoint, Requantize. fold tq zp p. rewrite Hp.
      apply clamp_unsigned_32.
    + unfold Requantize_params, Requantize_float. fold tq zp p prod.
      rewrite Hp. destruct (lrintf prod) as [r|]; [|reflexivity].
      cbn [mbind option_bind]. f_equal. apply clamp_unsigned_32.
Qed.

End RequantizationProperties.

Lemma Requantize_clamps_64bit_sum_witness :
  Requantize SaturatingRoundingMulWithShift_spec UInt8 1000 3 2000 10 8 false
    = 255 /\
  Requantize SaturatingRoundingMulWithShift_spec UInt8 100 3 2000 10 8 false
    = 198.
Proof.
  assert (Hr : forall T z, in_rangeb T z = true -> in_range T z)
    by (intros T z; apply in_rangeb_spec).
  split.
  - destruct (Requantize_clamps_64bit_sum
                SaturatingRoundingMulWithShift_spec UInt8 1000 3 2000 10 8
                false) as [_ H]; try (apply Hr; reflexivity).
    destruct H as [_ H]; [apply Hr; reflexivity|].
    rewrite H; [vm_compute; reflexivity | split; lia
                | apply Hr; reflexivity | apply Hr; reflexivity].
  - destruct (Requantize_clamps_64bit_sum
                SaturatingRoundingMulWithShift_spec UInt8 100 3 2000 10 8
                false) as [_ H]; try (apply Hr; reflexivity).
    destruct H as [_ H]; [apply Hr; reflexivity|].
    rewrite H; [vm_compute; reflexivity | split; lia
                | apply Hr; reflexivity | apply Hr; reflexivity].
Defined.

Lemma requantize_params_clamp_unsigned_witness :
  (RequantizeFixedPoint SaturatingRoundingMulWithShift_spec Int8 1000
     example_requantization_params = -1 /\
   Requantize_params Int8 1000 example_requantization_params = Some (-1) /\
   RequantizeFixedPoint SaturatingRoundingMulWithShift_spec Int8 5
     example_requantization_params = 13 /\
   Requantize_params Int8 5 example_requantization_params = Some 13) /\
  (RequantizeFixedPoint SaturatingRoundingMulWithShift_spec UInt32 5
     full_width_requantization_params = 4294967295 /\
   Requantize_params UInt32 5 full_width_requantization_params
     = Some 4294967295 /\
   Z.min (Z.max (3 + 10) (spec_lo 32 false)) (spec_hi 32 false) = 13).
Proof.
  split.
  - destruct (requantize_params_clamp_unsigned
                SaturatingRoundingMulWithShift_spec Int8 1000
                example_requantization_params) as (_ & _ & Hp & _).
    destruct (Hp ltac:(cbn; lia)) as (Hfix & Hflt & _).
    destruct (requantize_params_clamp_unsigned
                SaturatingRoundingMulWithShift_spec Int8 5
                example_requantization_params) as (_ & _ & Hp' & _).
    destruct (Hp' ltac:(cbn; lia)) as (Hfix' & Hflt' & _).
    rewrite Hfix, Hflt, Hfix', Hflt'.
    split; [vm_compute; reflexivity|]. split; [vm_compute; reflexivity|].
    split; vm_compute; reflexivity.
  - destruct (requantize_params_clamp_unsigned
                SaturatingRoundingMulWithShift_spec UInt32 5
                full_width_requantization_params) as (_ & _ & _ & Hp).
    destruct (Hp eq_refl) as (Hfix & Hflt).
    rewrite Hfix, Hflt. split; [vm_compute; reflexivity|].
    split; vm_compute; reflexivity.
Defined.

(** ** The real-multiplier requantizer *)

(** C2 as stated fails: [std::lrintf] rounds the tie [1 * 0.5f] to the even
    integer 0, where rounding half away from zero gives 1. *)
Lemma Requantize_float_not_half_away :
  in_range Int32 1 /\ in_range Int32 0 /\
  Requantize_float UInt8 1 0 float_half 8 false = Some 0 /\
  clamp c_long UInt8
    (0 + round_half_away_from_zero (fmul (float_of_Z 1) float_half)) 8 false
    = 1 /\
  Requantize_float UInt8 1 0 float_half 8 false
    <> Some (clamp c_long UInt8
               (0 + round_half_away_from_zero
                      (fmul (float_of_Z 1) float_half)) 8 false).
Proof.
  split; [apply in_rangeb_spec; reflexivity|].
  split; [apply in_rangeb_spec; reflexivity|].
  split; [vm_compute; reflexivity|].
  split; [vm_compute; reflexivity|].
  vm_compute. discriminate.
Qed.

(** C2, amended: the real-multiplier [Requantize] returns
    [clamp(zero_point + n)] where [n] is the binary32 product
    [src * multiplier] rounded to a nearest integer with a tie going to the
    even neighbour (the default rounding direction of [std::lrintf]), for a
    finite product of magnitude at most [2^62]. *)
Theorem Requantize_float_rounds_half_even T src zp mult p sgn :
  in_range Int32 src -> in_range Int32 zp ->
  let prod := fmul (float_of_Z src) mult in
  is_finite prod = true ->
  (Qabs (F2Q prod) <= inject_Z (2 ^ 62))%Q ->
  exists n,
    nearest_even n (F2Q prod) /\
    Requantize_float T src zp mult p sgn
      = Some (clamp c_long T (zp + n) p sgn).
Proof.
  intros Hsrc Hzp prod Hfin Habs.
  destruct (lrintf_spec prod (2 ^ 62) Hfin) as (n & Hn & Hrange & Hnear);
    [unfold_int; lia|exact Habs|].
  exists n. split; [exact Hnear|].
  unfold Requantize_float. fold prod. rewrite Hn.
  cbn [mbind option_bind]. do 2 f_equal.
  change (common_type Int32 c_long) with Int64.
  change (2 ^ 62) with 4611686018427387904 in Hrange.
  rewrite quantized_down_sum; [|assumption|unfold_int; lia].
  apply cast_id. unfold_int. lia.
Qed.

Lemma Requantize_float_rounds_half_even_witness :
  exists n,
    nearest_even n (F2Q (fmul (float_of_Z 5) float_half)) /\
    Requantize_float UInt8 5 3 float_half 8 false
      = Some (clamp c_long UInt8 (3 + n) 8 false).
Proof.
  apply (Requantize_float_rounds_half_even UInt8 5 3 float_half 8 false).
  - apply in_rangeb_spec. reflexivity.
  - apply in_rangeb_spec. reflexivity.
  - reflexivity.
  - vm_compute. discriminate.
Defined.

(** ** The bulk Dequantize loop *)

Lemma loop_guard i bound :
  in_range size_t i -> in_range size_t bound ->
  c_ltb size_t i bound = (i <? bound).
Proof.
  intros Hi Hb. unfold c_ltb. rewrite !cast_id by assumption. reflexivity.
Qed.

Lemma loop_increment i bound :
  in_range size_t i -> in_range size_t bound -> i < bound ->
  c_add size_t i 1 = i + 1 /\ in_range size_t (i + 1).
Proof.
  intros Hi Hb Hlt.
  assert (Hi1 : in_range size_t (i + 1)) by (unfold_int; lia).
  split; [|exact Hi1]. unfold c_add.
  rewrite (cast_id size_t i) by assumption.
  rewrite (cast_id size_t 1) by (unfold_int; lia).
  apply cast_id. exact Hi1.
Qed.

(** A run that completes has performed one iteration for every index from
    [i] up to the bound, and every destination cell of those indices was
    allocated. *)
Lemma loop_done_count fuel T src dst bound qp :
  in_range size_t bound ->
  forall i n h h' k,
    in_range size_t i -> i <= bound ->
    Dequantize_loop fuel T src dst bound qp i n h = Done h' k ->
    k = n + (bound - i) /\
    forall j, i <= j < bound -> is_Some (h !! (dst + j)).
Proof.
  intros Hb. induction fuel as [|fuel IH]; intros i n h h' k Hi Hle Hrun.
  - discriminate Hrun.
  - cbn [Dequantize_loop] in Hrun. rewrite loop_guard in Hrun by assumption.
    destruct (Z.ltb_spec i bound) as [Hlt|Hge].
    + destruct (h !! (src + i)) as [[q|f]|] eqn:Hs; try discriminate Hrun.
      destruct (h !! (dst + i)) as [c|] eqn:Hd; try discriminate Hrun.
      destruct (loop_increment i bound Hi Hb Hlt) as [Hinc Hi1].
      rewrite Hinc in Hrun.
      apply IH in Hrun as [Hk Halloc]; [|assumption|lia].
      split; [lia|]. intros j Hj.
      destruct (decide (j = i)) as [->|Hne]; [rewrite Hd; eauto|].
      specialize (Halloc j ltac:(lia)).
      rewrite lookup_insert_ne in Halloc by lia. exact Halloc.
    + injection Hrun as <- <-. split; [lia|]. intros j Hj. lia.
Qed.

(** With readable sources, allocated destinations and the two ranges apart,
    [k] further iterations complete, write the dequantized sources and leave
    every other cell as it was. *)
Lemma loop_runs T src dst bound qp (q : Z -> Z) :
  in_range size_t bound ->
  forall (k : nat) i n h,
    0 <= i -> i + Z.of_nat k = bound ->
    (forall j, i <= j < bound -> h !! (src + j) = Some (CInt (q j))) ->
    (forall j, i <= j < bound -> is_Some (h !! (dst + j))) ->
    (forall j j', i <= j < bound -> i <= j' < bound -> src + j <> dst + j') ->
    exists h',
      Dequantize_loop (S k) T src dst bound qp i n h
        = Done h' (n + Z.of_nat k) /\
      (forall j, i <= j < bound ->
         h' !! (dst + j) = Some (CFloat (Dequantize T (q j) qp))) /\
      (forall a, ~ (dst + i <= a < dst + bound) -> h' !! a = h !! a).
Proof.
  intros Hb. induction k as [|k IH]; intros i n h Hi Hik Hsrc Hdst Hdisj.
  - exists h. cbn [Dequantize_loop].
    rewrite loop_guard by (assumption || (unfold_int; lia)).
    destruct (Z.ltb_spec i bound); [lia|].
    split; [f_equal; lia|]. split; [intros j Hj; lia|reflexivity].
  - assert (Hir : in_range size_t i) by (unfold_int; lia).
    assert (Hlt : i < bound) by lia.
    destruct (loop_increment i bound Hir Hb Hlt) as [Hinc Hi1].
    set (h1 := <[dst + i := CFloat (Dequantize T (q i) qp)]> h).
    destruct (IH (i + 1) (n + 1) h1) as (h' & Hrun & Hwritten & Hframe).
    + lia.
    + lia.
    + intros j Hj. unfold h1. rewrite lookup_insert_ne.
      * apply Hsrc. lia.
      * intros Heq. apply (Hdisj j i); lia.
    + intros j Hj. unfold h1. rewrite lookup_insert_ne by lia.
      apply Hdst. lia.
    + intros j j' Hj Hj'. apply Hdisj; lia.
    + exists h'. split; [|split].
      * change (Dequantize_loop (S (S k)) T src dst bound qp i n h) with
          (if c_ltb size_t i bound then
             match h !! (src + i), h !! (dst + i) with
             | Some (CInt q0), Some _ =>
                 Dequantize_loop (S k) T src dst bound qp
                   (c_add size_t i 1) (n + 1)
                   (<[dst + i := CFloat (Dequantize T q0 qp)]> h)
             | _, _ => Fault
             end
           else Done h n).
        rewrite loop_guard by assumption.
        destruct (Z.ltb_spec i bound); [|lia].
        rewrite (Hsrc i) by lia.
        destruct (Hdst i ltac:(lia)) as [c ->].
        rewrite Hinc. fold h1. rewrite Hrun. f_equal. lia.
      * intros j Hj. destruct (decide (j = i)) as [->|Hne].
        -- rewrite Hframe by lia. unfold h1. apply lookup_insert_eq.
        -- apply Hwritten. lia.
      * intros a Ha. rewrite Hframe by lia. unfold h1.
        apply lookup_insert_ne. lia.
Qed.

Lemma cast_size_t_nonneg len :
  in_range c_int len -> 0 <= len -> cast size_t len = len.
Proof. intros H Hl. apply cast_id. unfold_int. lia. Qed.

Lemma cast_size_t_negative len :
  in_range c_int len -> len < 0 ->
  cast size_t len = 2 ^ 64 + len.
Proof.
  intros H Hl. unfold_int. Z.to_euclidean_division_equations. lia.
Qed.

(** A completed run is not changed by more fuel. *)
Lemma loop_fuel_mono T src dst bound qp fuel :
  forall i n h h' k (extra : nat),
    Dequantize_loop fuel T src dst bound qp i n h = Done h' k ->
    Dequantize_loop (fuel + extra) T src dst bound qp i n h = Done h' k.
Proof.
  induction fuel as [|fuel IH]; intros i n h h' k extra Hrun.
  - discriminate Hrun.
  - cbn [Dequantize_loop Nat.add] in *.
    destruct (c_ltb size_t i bound); [|exact Hrun].
    destruct (h !! (src + i)) as [[q|f]|]; try discriminate Hrun.
    destruct (h !! (dst + i)); try discriminate Hrun.
    apply IH. exact Hrun.
Qed.

(** With valid buffers and [len >= 0] the loop completes within
    [len + 1] units of fuel. *)
Lemma Dequantize_bulk_completes T src dst len qp h (q : Z -> Z) :
  in_range c_int len -> 0 <= len ->
  (forall i, 0 <= i < len -> h !! (src + i) = Some (CInt (q i))) ->
  (forall i, 0 <= i < len -> is_Some (h !! (dst + i))) ->
  (forall i j, 0 <= i < len -> 0 <= j < len -> src + i <> dst + j) ->
  exists h',
    Dequantize_bulk (S (Z.to_nat len)) T src dst len qp h = Done h' len.
Proof.
  intros Hlen Hpos Hsrc Hdst Hdisj. unfold Dequantize_bulk.
  rewrite cast_size_t_nonneg by assumption.
  assert (Hb : in_range size_t len) by (unfold_int; lia).
  destruct (loop_runs T src dst len qp q Hb (Z.to_nat len) 0 0 h)
    as (h' & Hrun & _); try assumption; try lia.
  exists h'. rewrite Hrun. f_equal. lia.
Qed.

(** C7: for [len >= 0], readable sources, allocated destinations and the
    two ranges apart, the bulk [Dequantize] completes with any fuel above
    [len], leaves [Dequantize(src[i], qparams)] in [dst[i]] for every
    [0 <= i < len], each from the source element of the same index alone,
    and changes no cell outside [dst[0 .. len)]. *)
Theorem Dequantize_bulk_is_map T src dst len qp h (q : Z -> Z) fuel :
  in_range c_int len -> 0 <= len -> (Z.to_nat len < fuel)%nat ->
  (forall i, 0 <= i < len -> h !! (src + i) = Some (CInt (q i))) ->
  (forall i, 0 <= i < len -> is_Some (h !! (dst + i))) ->
  (forall i j, 0 <= i < len -> 0 <= j < len -> src + i <> dst + j) ->
  exists h',
    Dequantize_bulk fuel T src dst len qp h = Done h' len /\
    (forall i, 0 <= i < len ->
       h' !! (dst + i) = Some (CFloat (Dequantize T (q i) qp))) /\
    (forall a, ~ (dst <= a < dst + len) -> h' !! a = h !! a).
Proof.
  intros Hlen Hpos Hfuel Hsrc Hdst Hdisj. unfold Dequantize_bulk.
  rewrite cast_size_t_nonneg by assumption.
  assert (Hb : in_range size_t len) by (unfold_int; lia).
  destruct (loop_runs T src dst len qp q Hb (Z.to_nat len) 0 0 h)
    as (h' & Hrun & Hwritten & Hframe); try assumption; try lia.
  exists h'. split; [|split].
  - replace fuel with (S (Z.to_nat len) + (fuel - S (Z.to_nat len)))%nat
      by lia.
    apply loop_fuel_mono. rewrite Hrun. f_equal. lia.
  - exact Hwritten.
  - intros a Ha. apply Hframe. lia.
Qed.


(** ** Bulk Dequantize on a concrete memory *)

Lemma Dequantize_bulk_is_map_witness :
  exists h',
    Dequantize_bulk 3 UInt8 0 10 2 example_qparams example_heap = Done h' 2 /\
    (forall i, 0 <= i < 2 ->
       h' !! (10 + i)
       = Some (CFloat (Dequantize UInt8 (example_src i) example_qparams))) /\
    (forall a, ~ (10 <= a < 10 + 2) -> h' !! a = example_heap !! a).
Proof.
  apply (Dequantize_bulk_is_map UInt8 0 10 2 example_qparams example_heap
           example_src 3).
  - apply in_rangeb_spec. reflexivity.
  - lia.
  - cbn. lia.
  - intros i Hi. assert (Hc : i = 0 \/ i = 1) by lia.
    destruct Hc as [-> | ->]; vm_compute; reflexivity.
  - intros i Hi. assert (Hc : i = 0 \/ i = 1) by lia.
    destruct Hc as [-> | ->]; exists (CFloat (S754_zero false));
      vm_compute; reflexivity.
  - intros i j Hi Hj. lia.
Defined.


(** * Further properties of the header *)

(** ** clamp *)

(** X1: for every precision whose bounds fit the 32-bit locals (1 to 32
    signed, 1 to 31 unsigned) and types [T1], [T2] that hold both bounds,
    none of the four assertions of [clamp] fires, the result is
    [min(max(src, lo), hi)], it lies in [[lo, hi]] and is a value of
    [T2]. *)
Theorem clamp_saturates_to_bounds T1 T2 src p sgn :
  bounds_fit_int32 p sgn ->
  in_range T1 (spec_lo p sgn) -> in_range T1 (spec_hi p sgn) ->
  in_range T2 (spec_lo p sgn) -> in_range T2 (spec_hi p sgn) ->
  clamp_asserts T1 T2 p sgn = true /\
  clamp T1 T2 src p sgn = Z.min (Z.max src (spec_lo p sgn)) (spec_hi p sgn) /\
  spec_lo p sgn <= clamp T1 T2 src p sgn <= spec_hi p sgn /\
  in_range T2 (clamp T1 T2 src p sgn).
Proof.
  intros Hp Hl1 Hh1 Hl2 Hh2.
  split; [apply clamp_asserts_hold; assumption|].
  split; [apply clamp_saturates; assumption|].
  pose proof (clamp_bounded T1 T2 src p sgn Hp Hl1 Hh1 Hl2 Hh2) as Hb.
  split; [exact Hb|]. unfold in_range in *. lia.
Qed.

Lemma clamp_saturates_to_bounds_witness :
  clamp_asserts Int64 Int8 8 true = true /\
  clamp Int64 Int8 (-300) 8 true
    = Z.min (Z.max (-300) (spec_lo 8 true)) (spec_hi 8 true) /\
  spec_lo 8 true <= clamp Int64 Int8 (-300) 8 true <= spec_hi 8 true /\
  in_range Int8 (clamp Int64 Int8 (-300) 8 true).
Proof.
  apply (clamp_saturates_to_bounds Int64 Int8 (-300) 8 true).
  - split; vm_compute; discriminate.
  - apply in_rangeb_spec. reflexivity.
  - apply in_rangeb_spec. reflexivity.
  - apply in_rangeb_spec. reflexivity.
  - apply in_rangeb_spec. reflexivity.
Defined.

Lemma std_min_max_in_range T x a b :
  in_range T x -> in_range T a -> in_range T b ->
  in_range T (std_min (std_max x a) b).
Proof.
  intros Hx Ha Hb. unfold std_min, std_max.
  repeat match goal with |- context [if ?c then _ else _] => destruct c end;
    assumption.
Qed.

(** X2: with source and destination of one type [T], [clamp] is monotone
    and idempotent at every precision and signedness, the ones whose bounds
    do not fit included, and it returns a value of [T]. *)
Theorem clamp_monotone_idempotent T src1 src2 p sgn :
  in_range T src1 -> in_range T src2 -> src1 <= src2 ->
  clamp T T src1 p sgn <= clamp T T src2 p sgn /\
  clamp T T (clamp T T src1 p sgn) p sgn = clamp T T src1 p sgn /\
  in_range T (clamp T T src1 p sgn).
Proof.
  intros H1 H2 Hle. unfold clamp.
  set (a := cast T (clamp_min p sgn)). set (b := cast T (clamp_max p sgn)).
  assert (Ha : in_range T a) by apply cast_in_range.
  assert (Hb : in_range T b) by apply cast_in_range.
  rewrite !(cast_id T (std_min (std_max _ a) b))
    by (apply std_min_max_in_range; try assumption;
        apply std_min_max_in_range; assumption).
  split; [|split].
  - rewrite !std_max_Zmax, !std_min_Zmin. lia.
  - rewrite !std_max_Zmax, !std_min_Zmin. lia.
  - apply std_min_max_in_range; assumption.
Qed.

Lemma clamp_monotone_idempotent_witness :
  clamp Int64 Int64 (-7) 32 false <= clamp Int64 Int64 900 32 false /\
  clamp Int64 Int64 (clamp Int64 Int64 (-7) 32 false) 32 false
    = clamp Int64 Int64 (-7) 32 false /\
  in_range Int64 (clamp Int64 Int64 (-7) 32 false).
Proof.
  apply (clamp_monotone_idempotent Int64 (-7) 900 32 false).
  - apply in_rangeb_spec. reflexivity.
  - apply in_rangeb_spec. reflexivity.
  - lia.
Defined.

(** X3: the assertion [min >= numeric_limits<T2>::lowest()] compares after
    the usual arithmetic conversions, so for [T2 = uint32_t] it holds
    whatever the bound is: a signed precision from 1 to 32 passes all four
    assertions of [clamp<int64_t, uint32_t>], and a negative clamped value
    is returned increased by [2^32].  For [T2 = uint8_t] or [uint16_t] the
    same precisions fail the assertions. *)
Theorem clamp_assert_blind_to_unsigned32 p :
  1 <= p <= 32 ->
  (forall q sgn,
     c_leb (common_type Int32 UInt32) (lowest UInt32) (clamp_min q sgn)
     = true) /\
  ~ in_range UInt32 (spec_lo p true) /\
  clamp_asserts Int64 UInt32 p true = true /\
  (forall src, src < 0 ->
     clamp Int64 UInt32 src p true = Z.max src (spec_lo p true) + 2 ^ 32) /\
  (forall T1, clamp_asserts T1 UInt8 p true = false) /\
  (forall T1, clamp_asserts T1 UInt16 p true = false).
Proof.
  intros Hp.
  assert (Hfit : bounds_fit_int32 p true) by (split; lia).
  destruct (spec_bounds_int32 p true Hfit) as [Hlo Hhi].
  pose proof (clamp_min_spec p true Hfit) as Hmin.
  pose proof (clamp_max_spec p true Hfit) as Hmax.
  assert (Hneg : spec_lo p true < 0).
  { cbn [spec_lo]. pose proof (Z.pow_pos_nonneg 2 (p - 1)). lia. }
  assert (Hpos : 0 <= spec_hi p true).
  { cbn [spec_hi]. pose proof (Z.pow_pos_nonneg 2 (p - 1)). lia. }
  split; [|split; [|split; [|split; [|split]]]].
  - intros q sgn. unfold c_leb. apply Z.leb_le.
    change (common_type Int32 UInt32) with UInt32.
    pose proof (cast_in_range UInt32 (clamp_min q sgn)) as H.
    rewrite (cast_id UInt32 (lowest UInt32)) by (unfold_int; lia).
    unfold in_range in H. lia.
  - unfold_int. lia.
  - unfold clamp_asserts. rewrite Hmin, Hmax.
    rewrite !andb_true_iff. unfold c_leb. rewrite !Z.leb_le.
    change (common_type Int32 Int64) with Int64.
    change (common_type Int32 UInt32) with UInt32.
    pose proof (cast_in_range UInt32 (spec_lo p true)).
    pose proof (cast_in_range UInt32 (spec_hi p true)).
    rewrite !(cast_id Int64) by (unfold_int; lia).
    rewrite !(cast_id UInt32 (lowest UInt32)) by (unfold_int; lia).
    rewrite !(cast_id UInt32 (max_of UInt32)) by (unfold_int; lia).
    unfold_int. lia.
  - intros src Hsrc. unfold clamp. rewrite Hmin, Hmax.
    rewrite !(cast_id Int64) by (apply int32_in_int64; assumption).
    rewrite std_max_Zmax, std_min_Zmin.
    replace (Z.min (Z.max src (spec_lo p true)) (spec_hi p true))
      with (Z.max src (spec_lo p true)) by lia.
    assert (Hv : - 2147483648 <= Z.max src (spec_lo p true) < 0)
      by (unfold_int; lia).
    set (v := Z.max src (spec_lo p true)) in *. clearbody v.
    unfold_int. Z.to_euclidean_division_equations. lia.
  - intros T1. unfold clamp_asserts. rewrite Hmin.
    assert (Hf : c_leb (common_type Int32 UInt8) (lowest UInt8)
                   (spec_lo p true) = false).
    { unfold c_leb. apply Z.leb_gt. change (common_type Int32 UInt8) with Int32.
      rewrite (cast_id Int32 (spec_lo p true)) by assumption.
      rewrite cast_id by (unfold_int; lia). unfold_int. lia. }
    rewrite Hf. rewrite andb_false_r. reflexivity.
  - intros T1. unfold clamp_asserts. rewrite Hmin.
    assert (Hf : c_leb (common_type Int32 UInt16) (lowest UInt16)
                   (spec_lo p true) = false).
    { unfold c_leb. apply Z.leb_gt.
      change (common_type Int32 UInt16) with Int32.
      rewrite (cast_id Int32 (spec_lo p true)) by assumption.
      rewrite cast_id by (unfold_int; lia). unfold_int. lia. }
    rewrite Hf. rewrite andb_false_r. reflexivity.
Qed.

Lemma clamp_assert_blind_to_unsigned32_witness :
  clamp_asserts Int64 UInt32 8 true = true /\
  clamp Int64 UInt32 (-5) 8 true = 4294967291.
Proof.
  destruct (clamp_assert_blind_to_unsigned32 8 ltac:(lia))
    as (_ & _ & Ha & Hc & _).
  split; [exact Ha|]. rewrite Hc by lia. reflexivity.
Defined.

(** ** Non-finite operands *)

Lemma fdiv_not_finite_l x y : is_finite x = false -> is_finite (fdiv x y) = false.
Proof. destruct x, y; intros H; try discriminate H; reflexivity. Qed.

Lemma fdiv_by_zero x s : is_finite (fdiv x (S754_zero s)) = false.
Proof. destruct x; reflexivity. Qed.

Lemma fadd_not_finite_r x y : is_finite y = false -> is_finite (fadd x y) = false.
Proof.
  destruct y as [s|s| |s m e]; intros H; try discriminate H.
  - destruct x as [sx|sx| |sx mx ex]; try reflexivity.
    destruct sx, s; reflexivity.
  - destruct x; reflexivity.
Qed.

Lemma fmul_not_finite_r x y : is_finite y = false -> is_finite (fmul x y) = false.
Proof. destruct x, y; intros H; try discriminate H; reflexivity. Qed.

Lemma float_to_int_not_finite T x :
  is_finite x = false -> float_to_int T (nearbyint x) = None.
Proof. destruct x; intros H; try discriminate H; reflexivity. Qed.

Lemma lrintf_not_finite x : is_finite x = false -> lrintf x = None.
Proof. destruct x; intros H; try discriminate H; reflexivity. Qed.

(** A finite value of magnitude [2^63] or more, [-2^63] itself apart, has no
    rounding that is a [long]. *)
Lemma lrintf_out_of_range x :
  is_finite x = true ->
  (inject_Z (2 ^ 63) <= F2Q x \/ F2Q x <= inject_Z (- 2 ^ 63 - 1))%Q ->
  lrintf x = None.
Proof.
  intros Hfin Hbig. destruct x as [s|s| |s m e]; try discriminate Hfin.
  - exfalso. cbn [F2Q] in Hbig. unfold Qle, inject_Z in Hbig. cbn in Hbig.
    lia.
  - cbn [lrintf].
    assert (Hout : forall v, 2 ^ 63 <= v \/ v <= - 2 ^ 63 - 1 ->
                             in_rangeb c_long v = false).
    { intros v Hv. destruct (in_rangeb c_long v) eqn:Hr; [|reflexivity].
      apply in_rangeb_spec in Hr. exfalso. unfold_int.
      change (2 ^ 63) with 9223372036854775808 in Hv. lia. }
    destruct (Z.leb_spec 0 e) as [He|He].
    + rewrite F2Q_nonneg_exp in Hbig by assumption.
      rewrite <- !Zle_Qle in Hbig. rewrite Hout by assumption. reflexivity.
    + destruct e as [|e|k]; try lia. cbn [F2Q] in Hbig.
      change (- Zneg k) with (Zpos k).
      destruct (rne_shift_nearest (Zpos m) (Zpos k) ltac:(lia) ltac:(lia))
        as (Hn & Hnear & _).
      set (n := rne_shift (Zpos m) (Zpos k)) in *. clearbody n.
      assert (Hd : 0 < 2 ^ Zpos k) by (apply Z.pow_pos_nonneg; lia).
      unfold Qle, inject_Z in Hbig. cbn [Qnum Qden] in Hbig.
      rewrite Pos2Z.inj_pow in Hbig. rewrite !Z.mul_1_r in Hbig.
      change (2 ^ 63) with 9223372036854775808 in *.
      rewrite Hout; [reflexivity|].
      change (2 ^ 63) with 9223372036854775808.
      destruct s; cbn [cond_Zopp] in *; nia.
Qed.

(** ** Quantize *)

Lemma Quantize_of_lrintf T x zp scale p sgn n :
  lrintf (transformed_val x zp scale) = Some n ->
  Quantize T x zp scale p sgn = Some (clamp Int64 T n p sgn).
Proof.
  intros Hn. unfold Quantize. rewrite nearbyint_then_cast, Hn. reflexivity.
Qed.

Lemma spec_lo_nonpos p sgn : spec_lo p sgn <= 0.
Proof.
  unfold spec_lo. destruct sgn; [|lia].
  pose proof (Z.pow_nonneg 2 (p - 1)). lia.
Qed.

Lemma spec_hi_nonneg p sgn : 1 <= p -> 0 <= spec_hi p sgn.
Proof.
  intros Hp. unfold spec_hi.
  pose proof (Z.pow_pos_nonneg 2 (p - 1)). pose proof (Z.pow_pos_nonneg 2 p).
  destruct sgn; lia.
Qed.

(** X4: for a precision whose bounds fit and a type [T] that holds them,
    every value [Quantize] returns lies in [[lo, hi]]; a finite transformed
    value at or above [hi] (up to [INT64_MAX]) quantizes to [hi], and one at
    or below [lo] (down to [-INT64_MAX]) quantizes to [lo]. *)
Theorem Quantize_saturates T x zp scale p sgn :
  bounds_fit_int32 p sgn ->
  in_range T (spec_lo p sgn) -> in_range T (spec_hi p sgn) ->
  let t := transformed_val x zp scale in
  (forall q, Quantize T x zp scale p sgn = Some q ->
             spec_lo p sgn <= q <= spec_hi p sgn /\ in_range T q) /\
  (is_finite t = true ->
   (inject_Z (spec_hi p sgn) <= F2Q t <= inject_Z (max_of Int64))%Q ->
   Quantize T x zp scale p sgn = Some (spec_hi p sgn)) /\
  (is_finite t = true ->
   (- inject_Z (max_of Int64) <= F2Q t <= inject_Z (spec_lo p sgn))%Q ->
   Quantize T x zp scale p sgn = Some (spec_lo p sgn)).
Proof.
  intros Hp Hlo Hhi t.
  destruct (spec_bounds_int32 p sgn Hp) as [Hlo32 Hhi32].
  pose proof (spec_lo_le_hi p sgn (proj1 Hp)) as Hle.
  pose proof (spec_lo_nonpos p sgn) as Hneg.
  pose proof (spec_hi_nonneg p sgn (proj1 Hp)) as Hpos.
  assert (Hsat : forall n, clamp Int64 T n p sgn
                 = Z.min (Z.max n (spec_lo p sgn)) (spec_hi p sgn))
    by (intros n; apply clamp_saturates; auto using int32_in_int64).
  split; [|split].
  - intros q. unfold Quantize. fold t.
    destruct (float_to_int Int64 (nearbyint t)) as [n|];
      cbn [mbind option_bind]; [|discriminate].
    intros [= <-]. rewrite Hsat. unfold in_range in *. lia.
  - intros Hfin [H1 H2].
    assert (Habs : (Qabs (F2Q t) <= inject_Z (max_of Int64))%Q).
    { apply Qabs_Qle_condition. rewrite Zle_Qle in Hpos.
      change (inject_Z 0) with 0%Q in Hpos. split; lra. }
    destruct (lrintf_spec t (max_of Int64) Hfin) as (n & Hn & _ & Hnear & _);
      [unfold_int; lia|exact Habs|].
    rewrite (Quantize_of_lrintf T x zp scale p sgn n Hn), Hsat.
    apply Qabs_Qle_condition in Hnear as [Hn1 Hn2].
    assert (spec_hi p sgn <= n) by (apply inject_Z_half_le; lra).
    f_equal. lia.
  - intros Hfin [H1 H2].
    assert (Habs : (Qabs (F2Q t) <= inject_Z (max_of Int64))%Q).
    { apply Qabs_Qle_condition. rewrite Zle_Qle in Hneg.
      change (inject_Z 0) with 0%Q in Hneg. split; lra. }
    destruct (lrintf_spec t (max_of Int64) Hfin) as (n & Hn & _ & Hnear & _);
      [unfold_int; lia|exact Habs|].
    rewrite (Quantize_of_lrintf T x zp scale p sgn n Hn), Hsat.
    apply Qabs_Qle_condition in Hnear as [Hn1 Hn2].
    assert (n <= spec_lo p sgn) by (apply inject_Z_half_ge; lra).
    f_equal. lia.
Qed.

Lemma Quantize_saturates_witness :
  Quantize UInt8 (float_of_Z 1000) 10 float_half 8 false = Some 255 /\
  Quantize UInt8 (float_of_Z (-1000)) 10 float_half 8 false = Some 0.
Proof.
  assert (Hp : bounds_fit_int32 8 false) by (split; vm_compute; discriminate).
  assert (Hl : in_range UInt8 (spec_lo 8 false))
    by (apply in_rangeb_spec; reflexivity).
  assert (Hh : in_range UInt8 (spec_hi 8 false))
    by (apply in_rangeb_spec; reflexivity).
  split.
  - destruct (Quantize_saturates UInt8 (float_of_Z 1000) 10 float_half 8
                false Hp Hl Hh) as (_ & Hhi & _).
    apply Hhi; [reflexivity|split; vm_compute; discriminate].
  - destruct (Quantize_saturates UInt8 (float_of_Z (-1000)) 10 float_half 8
                false Hp Hl Hh) as (_ & _ & Hlo).
    apply Hlo; [reflexivity|split; vm_compute; discriminate].
Defined.

(** X5: [Quantize] has no defined result when the transformed value is not
    finite, which is the case for every [src] that is a NaN or an infinity
    and for every [src] when [scale] is a zero (the division yields an
    infinity or a NaN), nor when the transformed value is finite and at
    least [2^63] or at most [-2^63 - 1]: such values are not saturated, the
    conversion to [int64_t] precedes [clamp]. *)
Theorem Quantize_undefined T x zp scale p sgn :
  let t := transformed_val x zp scale in
  (is_finite t = false -> Quantize T x zp scale p sgn = None) /\
  (is_finite x = false -> Quantize T x zp scale p sgn = None) /\
  (forall s, scale = S754_zero s -> Quantize T x zp scale p sgn = None) /\
  (is_finite t = true ->
   (inject_Z (2 ^ 63) <= F2Q t \/ F2Q t <= inject_Z (- 2 ^ 63 - 1))%Q ->
   Quantize T x zp scale p sgn = None).
Proof.
  intros t.
  assert (Hnf : is_finite t = false -> Quantize T x zp scale p sgn = None).
  { intros H. unfold Quantize. fold t.
    rewrite float_to_int_not_finite by exact H. reflexivity. }
  split; [exact Hnf|]. split; [|split].
  - intros Hx. apply Hnf. unfold t, transformed_val.
    apply fadd_not_finite_r, fdiv_not_finite_l, Hx.
  - intros s ->. apply Hnf. unfold t, transformed_val.
    apply fadd_not_finite_r, fdiv_by_zero.
  - intros Hfin Hbig. unfold Quantize. fold t.
    rewrite nearbyint_then_cast, (lrintf_out_of_range t Hfin Hbig).
    reflexivity.
Qed.

Lemma Quantize_undefined_witness :
  Quantize UInt8 (S754_infinity false) 0 float_half 8 false = None /\
  Quantize UInt8 float_half 0 (S754_zero false) 8 false = None /\
  Quantize UInt8 (S754_finite false 8388608 60) 0 float_half 8 false = None.
Proof.
  split; [|split].
  - destruct (Quantize_undefined UInt8 (S754_infinity false) 0 float_half 8
                false) as (_ & H & _).
    apply H. reflexivity.
  - destruct (Quantize_undefined UInt8 float_half 0 (S754_zero false) 8
                false) as (_ & _ & H & _).
    apply (H false). reflexivity.
  - destruct (Quantize_undefined UInt8 (S754_finite false 8388608 60) 0
                float_half 8 false) as (_ & _ & _ & H).
    apply H; [reflexivity|]. left. vm_compute. discriminate.
Defined.

(** ** Round trip and zero point *)

Lemma nearest_integer_unique n q :
  nearest_even n (inject_Z q) -> n = q.
Proof.
  intros [H _]. apply Qabs_Qle_condition in H as [H1 H2].
  assert (q <= n) by (apply inject_Z_half_le; lra).
  assert (n <= q) by (apply inject_Z_half_ge; lra). lia.
Qed.

(** X6: quantizing a dequantized value gives the value back.  For valid
    parameters whose bounds fit, a type [T] that holds them and [q] in
    [[lo, hi]], whenever the binary32 operations are exact at [q] (the
    product of [Dequantize] and the transformed value of [Quantize]),
    [Quantize(Dequantize(q))] is [q]. *)
Theorem Quantize_Dequantize_round_trip T q qp :
  let sgn := is_signed_v T in
  let lo := spec_lo (precision qp) sgn in
  let hi := spec_hi (precision qp) sgn in
  let x := Dequantize T q qp in
  let t := transformed_val x (zero_point qp) (scale qp) in
  valid_qparams sgn qp -> bounds_fit_int32 (precision qp) sgn ->
  in_range T lo -> in_range T hi -> lo <= q <= hi ->
  Dequantize_exact T q qp ->
  is_finite t = true ->
  transformed_val_exact x (zero_point qp) (scale qp) ->
  Quantize_qparams T x qp = Some q.
Proof.
  intros sgn lo hi x t (Hsfin & Hspos & _ & _) Hfit HloT HhiT Hq Hdeq Hfin
    Hexact.
  unfold Dequantize_exact in Hdeq. fold x in Hdeq.
  unfold transformed_val_exact in Hexact. fold t in Hexact.
  set (s := F2Q (scale qp)) in *. set (zp := zero_point qp) in *.
  assert (Hs0 : ~ (s == 0)%Q) by lra.
  assert (Ht : (F2Q t == inject_Z q)%Q).
  { rewrite Hexact, Hdeq, inject_Z_minus. field. exact Hs0. }
  destruct (spec_bounds_int32 _ _ Hfit) as [Hlo32 Hhi32].
  fold lo hi in Hlo32, Hhi32.
  assert (Habs : (Qabs (F2Q t) <= inject_Z (2 ^ 31))%Q).
  { rewrite Ht. apply Qabs_Qle_condition. rewrite <- inject_Z_opp.
    rewrite <- !Zle_Qle. unfold_int. lia. }
  destruct (lrintf_spec t (2 ^ 31) Hfin) as (n & Hn & _ & Hnear);
    [unfold_int; lia|exact Habs|].
  assert (Hnq : n = q).
  { apply nearest_integer_unique. destruct Hnear as [H1 H2].
    split; [rewrite <- Ht; exact H1|]. intros H. apply H2.
    rewrite Ht. exact H. }
  subst n. unfold Quantize_qparams. fold zp sgn.
  rewrite (Quantize_of_lrintf T x zp (scale qp) (precision qp) sgn q Hn).
  rewrite clamp_saturates; auto using int32_in_int64.
  fold lo hi. f_equal. lia.
Qed.

Lemma Quantize_Dequantize_round_trip_witness :
  Quantize_qparams UInt8 (Dequantize UInt8 130 example_qparams)
    example_qparams = Some 130.
Proof.
  apply (Quantize_Dequantize_round_trip UInt8 130 example_qparams).
  - split; [reflexivity|split; [reflexivity|split; cbn; lia]].
  - split; cbn; lia.
  - apply in_rangeb_spec. reflexivity.
  - apply in_rangeb_spec. reflexivity.
  - cbn. lia.
  - vm_compute. reflexivity.
  - reflexivity.
  - vm_compute. reflexivity.
Defined.

(** X7: the zero point dequantizes to zero.  For every [T], every zero point
    that is a value of [T] (the call converts its argument to [T]) and every
    finite scale, [Dequantize(zero_point)] is the zero of the sign of the
    scale; the difference [zero_point - zero_point] cannot overflow. *)
Theorem Dequantize_zero_point T qp :
  in_range T (zero_point qp) -> is_finite (scale qp) = true ->
  c_sub (common_type T Int32) (zero_point qp) (zero_point qp) = 0 /\
  Dequantize T (cast T (zero_point qp)) qp
    = S754_zero (float_sign (scale qp)) /\
  (F2Q (Dequantize T (cast T (zero_point qp)) qp) == 0)%Q.
Proof.
  intros Hzp Hfin. rewrite (cast_id T) by exact Hzp.
  assert (Hd : c_sub (common_type T Int32) (zero_point qp) (zero_point qp)
               = 0).
  { rewrite c_sub_cast, Z.sub_diag. apply cast_id.
    destruct (common_type T Int32); unfold_int; lia. }
  split; [exact Hd|]. unfold Dequantize. rewrite Hd.
  change (float_of_Z 0) with (S754_zero false).
  destruct (scale qp) as [s|s| |s m e]; try discriminate Hfin.
  - destruct s; split; reflexivity.
  - destruct s; split; reflexivity.
Qed.

Lemma Dequantize_zero_point_witness :
  Dequantize UInt8 (cast UInt8 10) example_qparams = S754_zero false.
Proof.
  apply (Dequantize_zero_point UInt8 example_qparams).
  - apply in_rangeb_spec. reflexivity.
  - reflexivity.
Defined.

(** A zero point that is not a value of [T] is another number once
    converted: the [uint8_t] instantiation receives 300 as 44 and, at scale
    1 and zero point 300, returns -256. *)
Lemma Dequantize_zero_point_outside_T :
  let qp := {| scale := float_of_Z 1; zero_point := 300; precision := 8 |} in
  ~ in_range UInt8 (zero_point qp) /\ cast UInt8 (zero_point qp) = 44 /\
  (F2Q (Dequantize UInt8 (cast UInt8 (zero_point qp)) qp)
   == inject_Z (-256))%Q.
Proof.
  intros qp. split; [|split; vm_compute; reflexivity].
  intros H. apply in_rangeb_spec in H. discriminate H.
Qed.

(** ** Quantize at the full width of the output type *)

(** X17: [Quantize<T>(src, qparams)] with [qparams.precision] the width of
    [T], for [T] any of [int8_t], [uint8_t], [int16_t], [uint16_t] and
    [int32_t], clamps to the whole range of [T]: the assertions of [clamp]
    hold, the bounds are [numeric_limits<T>::lowest()] and [max()], and
    every result is the rounded transformed value saturated to them, a value
    of [T]. *)
Theorem Quantize_qparams_full_width T x qp :
  bits T <= 32 -> T <> UInt32 -> precision qp = bits T ->
  clamp_asserts Int64 T (precision qp) (is_signed_v T) = true /\
  clamp_min (precision qp) (is_signed_v T) = lowest T /\
  clamp_max (precision qp) (is_signed_v T) = max_of T /\
  (forall q, Quantize_qparams T x qp = Some q ->
     in_range T q /\
     exists n,
       lrintf (transformed_val x (zero_point qp) (scale qp)) = Some n /\
       q = Z.min (Z.max n (lowest T)) (max_of T)).
Proof.
  intros Hb Hne Hprec. rewrite Hprec.
  assert (Hfit : bounds_fit_int32 (bits T) (is_signed_v T))
    by (destruct T; cbn in *; try congruence; split; lia).
  assert (Hlo : spec_lo (bits T) (is_signed_v T) = lowest T)
    by (destruct T; reflexivity).
  assert (Hhi : spec_hi (bits T) (is_signed_v T) = max_of T)
    by (destruct T; reflexivity).
  assert (HloT : in_range T (lowest T)) by (destruct T; unfold_int; lia).
  assert (HhiT : in_range T (max_of T)) by (destruct T; unfold_int; lia).
  destruct (spec_bounds_int32 _ _ Hfit) as [Hlo32 Hhi32].
  rewrite Hlo in Hlo32. rewrite Hhi in Hhi32.
  split; [|split; [|split]].
  - apply clamp_asserts_hold; rewrite ?Hlo, ?Hhi;
      auto using int32_in_int64.
  - rewrite clamp_min_spec by assumption. exact Hlo.
  - rewrite clamp_max_spec by assumption. exact Hhi.
  - intros q. unfold Quantize_qparams, Quantize.
    rewrite nearbyint_then_cast, Hprec.
    destruct (lrintf _) as [n|]; cbn [mbind option_bind]; [|discriminate].
    intros [= <-].
    rewrite clamp_saturates; rewrite ?Hlo, ?Hhi; auto using int32_in_int64.
    split; [unfold in_range in *; lia|].
    exists n. split; reflexivity.
Qed.

Lemma Quantize_qparams_full_width_witness :
  clamp_asserts Int64 Int8 8 true = true /\
  forall q,
    Quantize_qparams Int8 (float_of_Z 1000) example_qparams = Some q ->
    in_range Int8 q.
Proof.
  destruct (Quantize_qparams_full_width Int8 (float_of_Z 1000)
              example_qparams) as (Ha & _ & _ & Hq).
  - vm_compute. discriminate.
  - discriminate.
  - reflexivity.
  - split; [exact Ha|]. intros q H. apply (Hq q H).
Defined.

(** ** The requantizers *)

Section RequantizationRange.

Variable SRMWS : Z -> Z -> Z -> Z.

(** X8: for a precision whose bounds fit and a type [T] that holds them, the
    fixed-point [Requantize] returns a value of [[lo, hi]] whatever
    [SaturatingRoundingMulWithShift] returns, and it is monotone in that
    value: of two accumulators whose 64-bit sums do not overflow, the one
    with the smaller product gets the smaller or equal output. *)
Theorem Requantize_range_monotone T src1 src2 zp mult rs p sgn :
  bounds_fit_int32 p sgn ->
  in_range T (spec_lo p sgn) -> in_range T (spec_hi p sgn) ->
  (spec_lo p sgn <= Requantize SRMWS T src1 zp mult rs p sgn
     <= spec_hi p sgn) /\
  (in_range Int32 zp ->
   in_range Int64 (SRMWS src1 mult rs) ->
   in_range Int64 (SRMWS src2 mult rs) ->
   in_range Int64 (zp + SRMWS src1 mult rs) ->
   in_range Int64 (zp + SRMWS src2 mult rs) ->
   SRMWS src1 mult rs <= SRMWS src2 mult rs ->
   Requantize SRMWS T src1 zp mult rs p sgn
     <= Requantize SRMWS T src2 zp mult rs p sgn).
Proof.
  intros Hp Hlo Hhi.
  destruct (spec_bounds_int32 p sgn Hp) as [Hlo32 Hhi32].
  assert (Hsat : forall n, clamp Int64 T n p sgn
                 = Z.min (Z.max n (spec_lo p sgn)) (spec_hi p sgn))
    by (intros n; apply clamp_saturates; auto using int32_in_int64).
  pose proof (spec_lo_le_hi p sgn (proj1 Hp)) as Hle.
  unfold Requantize. rewrite !Hsat. split; [lia|].
  intros Hzp Hs1 Hs2 Hsum1 Hsum2 Hmono.
  rewrite !quantized_down_sum by assumption.
  rewrite !cast_id by assumption. lia.
Qed.

(** X9: [RequantizeFixedPoint<int8_t>] and [<int16_t>] at the full precision
    of the type clamp to the unsigned range: the assertions of [clamp] fail,
    and a 64-bit sum of [2^(bits-1)] or more comes back negative, as
    [min(sum, 2^bits - 1) - 2^bits]. *)
Theorem RequantizeFixedPoint_signed_wraps T src params :
  is_signed_v T = true -> bits T <= 16 ->
  precision (target_qparams params) = bits T ->
  let sum := c_add Int64 (zero_point (target_qparams params))
               (SRMWS src (multiplier params) (right_shift params)) in
  clamp_asserts Int64 T (bits T) false = false /\
  (2 ^ (bits T - 1) <= sum ->
   RequantizeFixedPoint SRMWS T src params
     = Z.min sum (2 ^ bits T - 1) - 2 ^ bits T /\
   RequantizeFixedPoint SRMWS T src params < 0).
Proof.
  intros Hs Hb Hprec sum.
  assert (Hfit : bounds_fit_int32 (bits T) false)
    by (destruct T; try discriminate Hs; cbn in *; split; lia).
  split.
  - destruct T; try discriminate Hs; cbn in Hb; try lia; reflexivity.
  - intros Hsum. unfold RequantizeFixedPoint, Requantize.
    change (common_type Int32 Int64) with Int64. fold sum. rewrite Hprec.
    unfold clamp. rewrite clamp_min_spec, clamp_max_spec by assumption.
    destruct (spec_bounds_int32 _ _ Hfit) as [Hlo32 Hhi32].
    rewrite !(cast_id Int64) by (apply int32_in_int64; assumption).
    rewrite std_max_Zmax, std_min_Zmin. cbn [spec_lo spec_hi].
    clearbody sum.
    destruct T; try discriminate Hs; cbn in Hb; try lia; unfold_int;
      Z.to_euclidean_division_equations; lia.
Qed.

End RequantizationRange.

Lemma Requantize_range_monotone_witness :
  Requantize SaturatingRoundingMulWithShift_spec UInt8 50 3 2000 10 8 false
  <= Requantize SaturatingRoundingMulWithShift_spec UInt8 100 3 2000 10 8
       false.
Proof.
  assert (Hr : forall T z, in_rangeb T z = true -> in_range T z)
    by (intros T z; apply in_rangeb_spec).
  destruct (Requantize_range_monotone SaturatingRoundingMulWithShift_spec
              UInt8 50 100 3 2000 10 8 false) as [_ H].
  - split; vm_compute; discriminate.
  - apply Hr. reflexivity.
  - apply Hr. reflexivity.
  - apply H; try (apply Hr; reflexivity). vm_compute. discriminate.
Defined.

Lemma RequantizeFixedPoint_signed_wraps_witness :
  RequantizeFixedPoint SaturatingRoundingMulWithShift_spec Int8 100
    example_requantization_params = -58.
Proof.
  destruct (RequantizeFixedPoint_signed_wraps
              SaturatingRoundingMulWithShift_spec Int8 100
              example_requantization_params) as [_ H].
  - reflexivity.
  - vm_compute. discriminate.
  - reflexivity.
  - destruct H as [H _]; [vm_compute; discriminate|].
    rewrite H. vm_compute. reflexivity.
Defined.

Lemma Requantize_float_of_lrintf T src zp mult p sgn n :
  in_range Int32 zp ->
  lrintf (fmul (float_of_Z src) mult) = Some n ->
  - 2 ^ 62 <= n <= 2 ^ 62 ->
  Requantize_float T src zp mult p sgn = Some (clamp c_long T (zp + n) p sgn).
Proof.
  intros Hzp Hn Hrange. unfold Requantize_float. rewrite Hn.
  cbn [mbind option_bind]. do 2 f_equal.
  change (common_type Int32 c_long) with Int64.
  change (2 ^ 62) with 4611686018427387904 in Hrange.
  rewrite quantized_down_sum; [|assumption|unfold_int; lia].
  apply cast_id. unfold_int. lia.
Qed.

(** X10: a zero accumulator requantizes to the clamped zero point: for every
    finite multiplier the real-multiplier [Requantize] of 0 is
    [clamp(zero_point)], which is the zero point itself when it lies in the
    range of a precision whose bounds fit. *)
Theorem Requantize_float_zero_accumulator T zp mult p sgn :
  in_range Int32 zp -> is_finite mult = true ->
  Requantize_float T 0 zp mult p sgn = Some (clamp c_long T zp p sgn) /\
  (bounds_fit_int32 p sgn ->
   in_range T (spec_lo p sgn) -> in_range T (spec_hi p sgn) ->
   spec_lo p sgn <= zp <= spec_hi p sgn ->
   Requantize_float T 0 zp mult p sgn = Some zp).
Proof.
  intros Hzp Hfin.
  assert (Hl : lrintf (fmul (float_of_Z 0) mult) = Some 0).
  { change (float_of_Z 0) with (S754_zero false).
    destruct mult; try discriminate Hfin; reflexivity. }
  assert (Hr : Requantize_float T 0 zp mult p sgn
               = Some (clamp c_long T zp p sgn)).
  { rewrite (Requantize_float_of_lrintf T 0 zp mult p sgn 0 Hzp Hl)
      by (change (2 ^ 62) with 4611686018427387904; lia).
    rewrite Z.add_0_r. reflexivity. }
  split; [exact Hr|]. intros Hp Hlo Hhi Hin. rewrite Hr. f_equal.
  destruct (spec_bounds_int32 p sgn Hp) as [Hlo32 Hhi32].
  change c_long with Int64.
  rewrite clamp_saturates; auto using int32_in_int64. lia.
Qed.

Lemma Requantize_float_zero_accumulator_witness :
  Requantize_float UInt8 0 3 float_half 8 false = Some 3.
Proof.
  destruct (Requantize_float_zero_accumulator UInt8 3 float_half 8 false)
    as [_ H].
  - apply in_rangeb_spec. reflexivity.
  - reflexivity.
  - apply H.
    + split; vm_compute; discriminate.
    + apply in_rangeb_spec. reflexivity.
    + apply in_rangeb_spec. reflexivity.
    + cbn. lia.
Defined.

(** X11: the real-multiplier [Requantize] has no specified result when the
    multiplier is a NaN or an infinity, whatever the accumulator, nor when
    the binary32 product is finite and at least [2^63] or at most
    [-2^63 - 1]: [std::lrintf] is applied before [clamp], so such products
    are not saturated. *)
Theorem Requantize_float_undefined T src zp mult p sgn :
  let prod := fmul (float_of_Z src) mult in
  (is_finite mult = false -> Requantize_float T src zp mult p sgn = None) /\
  (is_finite prod = false -> Requantize_float T src zp mult p sgn = None) /\
  (is_finite prod = true ->
   (inject_Z (2 ^ 63) <= F2Q prod \/ F2Q prod <= inject_Z (- 2 ^ 63 - 1))%Q ->
   Requantize_float T src zp mult p sgn = None).
Proof.
  intros prod.
  assert (Hnf : is_finite prod = false ->
                Requantize_float T src zp mult p sgn = None).
  { intros H. unfold Requantize_float. fold prod.
    rewrite lrintf_not_finite by exact H. reflexivity. }
  split; [|split; [exact Hnf|]].
  - intros Hm. apply Hnf. apply fmul_not_finite_r, Hm.
  - intros Hfin Hbig. unfold Requantize_float. fold prod.
    rewrite (lrintf_out_of_range prod Hfin Hbig). reflexivity.
Qed.

Lemma Requantize_float_undefined_witness :
  Requantize_float UInt8 7 0 S754_nan 8 false = None /\
  Requantize_float UInt8 2 0 (S754_finite false 8388608 60) 8 false = None.
Proof.
  split.
  - destruct (Requantize_float_undefined UInt8 7 0 S754_nan 8 false)
      as (H & _).
    apply H. reflexivity.
  - destruct (Requantize_float_undefined UInt8 2 0
                (S754_finite false 8388608 60) 8 false) as (_ & _ & H).
    apply H; [reflexivity|]. left. vm_compute. discriminate.
Defined.

(** X12: for a precision whose bounds fit and a type [T] that holds them,
    every value the real-multiplier [Requantize] returns lies in
    [[lo, hi]]; a finite product of at least [hi - zero_point] (up to
    [2^62]) gives [hi], and one of at most [lo - zero_point] (down to
    [-2^62]) gives [lo]. *)
Theorem Requantize_float_saturates T src zp mult p sgn :
  bounds_fit_int32 p sgn ->
  in_range T (spec_lo p sgn) -> in_range T (spec_hi p sgn) ->
  in_range Int32 zp ->
  let prod := fmul (float_of_Z src) mult in
  (forall v, Requantize_float T src zp mult p sgn = Some v ->
             spec_lo p sgn <= v <= spec_hi p sgn) /\
  (is_finite prod = true ->
   (inject_Z (spec_hi p sgn - zp) <= F2Q prod <= inject_Z (2 ^ 62))%Q ->
   Requantize_float T src zp mult p sgn = Some (spec_hi p sgn)) /\
  (is_finite prod = true ->
   (- inject_Z (2 ^ 62) <= F2Q prod <= inject_Z (spec_lo p sgn - zp))%Q ->
   Requantize_float T src zp mult p sgn = Some (spec_lo p sgn)).
Proof.
  intros Hp Hlo Hhi Hzp prod.
  destruct (spec_bounds_int32 p sgn Hp) as [Hlo32 Hhi32].
  pose proof (spec_lo_le_hi p sgn (proj1 Hp)) as Hle.
  assert (Hsat : forall n, clamp c_long T n p sgn
                 = Z.min (Z.max n (spec_lo p sgn)) (spec_hi p sgn))
    by (intros n; apply clamp_saturates; auto using int32_in_int64).
  split; [|split].
  - intros v. unfold Requantize_float. fold prod.
    destruct (lrintf prod) as [r|]; cbn [mbind option_bind]; [|discriminate].
    intros [= <-]. rewrite Hsat. lia.
  - intros Hfin [H1 H2].
    assert (Habs : (Qabs (F2Q prod) <= inject_Z (2 ^ 62))%Q).
    { apply Qabs_Qle_condition. split; [|exact H2].
      assert (H3 : (inject_Z (- 2 ^ 62) <= inject_Z (spec_hi p sgn - zp))%Q)
        by (rewrite <- Zle_Qle; unfold_int;
            change (2 ^ 62) with 4611686018427387904; lia).
      rewrite inject_Z_opp in H3. lra. }
    destruct (lrintf_spec prod (2 ^ 62) Hfin) as (n & Hn & Hr & Hnear & _);
      [unfold_int; lia|exact Habs|].
    rewrite (Requantize_float_of_lrintf T src zp mult p sgn n Hzp Hn Hr).
    rewrite Hsat. apply Qabs_Qle_condition in Hnear as [Hn1 Hn2].
    assert (spec_hi p sgn - zp <= n) by (apply inject_Z_half_le; lra).
    f_equal. lia.
  - intros Hfin [H1 H2].
    assert (Habs : (Qabs (F2Q prod) <= inject_Z (2 ^ 62))%Q).
    { apply Qabs_Qle_condition. split; [exact H1|].
      assert (H3 : (inject_Z (spec_lo p sgn - zp) <= inject_Z (2 ^ 62))%Q)
        by (rewrite <- Zle_Qle; unfold_int;
            change (2 ^ 62) with 4611686018427387904; lia).
      lra. }
    destruct (lrintf_spec prod (2 ^ 62) Hfin) as (n & Hn & Hr & Hnear & _);
      [unfold_int; lia|exact Habs|].
    rewrite (Requantize_float_of_lrintf T src zp mult p sgn n Hzp Hn Hr).
    rewrite Hsat. apply Qabs_Qle_condition in Hnear as [Hn1 Hn2].
    assert (n <= spec_lo p sgn - zp) by (apply inject_Z_half_ge; lra).
    f_equal. lia.
Qed.

Lemma Requantize_float_saturates_witness :
  Requantize_float UInt8 1000 3 float_half 8 false = Some 255 /\
  Requantize_float UInt8 (-1000) 3 float_half 8 false = Some 0.
Proof.
  assert (Hp : bounds_fit_int32 8 false) by (split; vm_compute; discriminate).
  assert (Hl : in_range UInt8 (spec_lo 8 false))
    by (apply in_rangeb_spec; reflexivity).
  assert (Hh : in_range UInt8 (spec_hi 8 false))
    by (apply in_rangeb_spec; reflexivity).
  assert (Hz : in_range Int32 3) by (apply in_rangeb_spec; reflexivity).
  split.
  - destruct (Requantize_float_saturates UInt8 1000 3 float_half 8 false
                Hp Hl Hh Hz) as (_ & H & _).
    apply H; [reflexivity|split; vm_compute; discriminate].
  - destruct (Requantize_float_saturates UInt8 (-1000) 3 float_half 8 false
                Hp Hl Hh Hz) as (_ & _ & H).
    apply H; [reflexivity|split; vm_compute; discriminate].
Defined.

(** ** The bulk Dequantize loop: memory safety, termination, composition *)

Lemma loop_step fuel T src dst bound qp i n h :
  in_range size_t i -> in_range size_t bound -> i < bound ->
  Dequantize_loop (S fuel) T src dst bound qp i n h =
  match h !! (src + i), h !! (dst + i) with
  | Some (CInt q), Some _ =>
      Dequantize_loop fuel T src dst bound qp (i + 1) (n + 1)
        (<[dst + i := CFloat (Dequantize T q qp)]> h)
  | _, _ => Fault
  end.
Proof.
  intros Hi Hb Hlt. cbn [Dequantize_loop].
  rewrite loop_guard by assumption.
  destruct (Z.ltb_spec i bound); [|lia].
  destruct (loop_increment i bound Hi Hb Hlt) as [-> _]. reflexivity.
Qed.

Lemma loop_exit fuel T src dst bound qp i n h :
  in_range size_t i -> in_range size_t bound -> bound <= i ->
  Dequantize_loop (S fuel) T src dst bound qp i n h = Done h n.
Proof.
  intros Hi Hb Hge. cbn [Dequantize_loop].
  rewrite loop_guard by assumption.
  destruct (Z.ltb_spec i bound); [lia|reflexivity].
Qed.

(** With more fuel than indices left, the loop does not run out of fuel. *)
Lemma loop_terminates T src dst bound qp :
  in_range size_t bound ->
  forall fuel i n h,
    in_range size_t i -> i <= bound ->
    (Z.to_nat (bound - i) < fuel)%nat ->
    Dequantize_loop fuel T src dst bound qp i n h <> OutOfFuel.
Proof.
  intros Hb. induction fuel as [|fuel IH]; intros i n h Hi Hle Hfuel; [lia|].
  destruct (Z.ltb_spec i bound) as [Hlt|Hge].
  - rewrite loop_step by assumption.
    destruct (h !! (src + i)) as [[q|f]|]; try discriminate.
    destruct (h !! (dst + i)); try discriminate.
    apply IH; [unfold_int; lia|lia|lia].
  - rewrite loop_exit by assumption. discriminate.
Qed.

(** An outcome other than running out of fuel is not changed by fuel. *)
Lemma loop_fuel_mono_any T src dst bound qp fuel :
  forall i n h r (extra : nat),
    Dequantize_loop fuel T src dst bound qp i n h = r -> r <> OutOfFuel ->
    Dequantize_loop (fuel + extra) T src dst bound qp i n h = r.
Proof.
  induction fuel as [|fuel IH]; intros i n h r extra Hrun Hr.
  - cbn in Hrun. congruence.
  - cbn [Dequantize_loop Nat.add] in *.
    destruct (c_ltb size_t i bound); [|exact Hrun].
    destruct (h !! (src + i)) as [[q|f]|]; try exact Hrun.
    destruct (h !! (dst + i)); try exact Hrun.
    apply IH; assumption.
Qed.

(** What a completed run has done to the memory. *)
Lemma loop_done_memory fuel T src dst bound qp :
  in_range size_t bound ->
  forall i n h h' k,
    in_range size_t i -> i <= bound ->
    Dequantize_loop fuel T src dst bound qp i n h = Done h' k ->
    (forall a, ~ (dst + i <= a < dst + bound) -> h' !! a = h !! a) /\
    (forall a, is_Some (h' !! a) <-> is_Some (h !! a)) /\
    (forall j, i <= j < bound -> exists f, h' !! (dst + j) = Some (CFloat f)) /\
    (forall j, i <= j < bound -> is_Some (h !! (src + j))).
Proof.
  intros Hb. induction fuel as [|fuel IH]; intros i n h h' k Hi Hle Hrun.
  - discriminate Hrun.
  - destruct (Z.ltb_spec i bound) as [Hlt|Hge].
    + rewrite loop_step in Hrun by assumption.
      destruct (h !! (src + i)) as [[q|f]|] eqn:Hs; try discriminate Hrun.
      destruct (h !! (dst + i)) as [c|] eqn:Hd; try discriminate Hrun.
      apply IH in Hrun as (Hframe & Hdom & Hfl & Hsrc);
        [|unfold_int; lia|lia].
      assert (Hdom1 : forall a,
                is_Some (<[dst + i := CFloat (Dequantize T q qp)]> h !! a)
                <-> is_Some (h !! a)).
      { intros a. rewrite lookup_insert_is_Some. split.
        - intros [<-|[_ H]]; [rewrite Hd; eauto|exact H].
        - intros H. destruct (decide (dst + i = a)); [left|right]; auto. }
      split; [|split; [|split]].
      * intros a Ha. rewrite Hframe by lia. apply lookup_insert_ne. lia.
      * intros a. rewrite Hdom. apply Hdom1.
      * intros j Hj. destruct (decide (j = i)) as [->|Hne].
        -- exists (Dequantize T q qp). rewrite Hframe by lia.
           apply lookup_insert_eq.
        -- apply Hfl. lia.
      * intros j Hj. destruct (decide (j = i)) as [->|Hne].
        -- rewrite Hs. eauto.
        -- apply Hdom1, Hsrc. lia.
    + rewrite loop_exit in Hrun by assumption. injection Hrun as <- <-.
      split; [reflexivity|]. split; [reflexivity|]. split; intros j Hj; lia.
Qed.

(** On ranges that do not overlap, a completed run has found an integer in
    every source cell and has left its dequantized value in the matching
    destination cell. *)
Lemma loop_done_values fuel T src dst bound qp :
  in_range size_t bound ->
  (forall i j, 0 <= i < bound -> 0 <= j < bound -> src + i <> dst + j) ->
  forall i n h h' k,
    in_range size_t i -> i <= bound ->
    Dequantize_loop fuel T src dst bound qp i n h = Done h' k ->
    forall j, i <= j < bound ->
      exists q, h !! (src + j) = Some (CInt q) /\
                h' !! (dst + j) = Some (CFloat (Dequantize T q qp)).
Proof.
  intros Hb Hdisj.
  induction fuel as [|fuel IH]; intros i n h h' k Hi Hle Hrun j Hj.
  - discriminate Hrun.
  - assert (H0 : 0 <= i) by (unfold_int; lia).
    destruct (Z.ltb_spec i bound) as [Hlt|Hge]; [|lia].
    rewrite loop_step in Hrun by assumption.
    destruct (h !! (src + i)) as [[q|f]|] eqn:Hs; try discriminate Hrun.
    destruct (h !! (dst + i)) as [c|] eqn:Hd; try discriminate Hrun.
    assert (Hi1 : in_range size_t (i + 1)) by (unfold_int; lia).
    destruct (decide (j = i)) as [->|Hne].
    + exists q. split; [exact Hs|].
      apply loop_done_memory in Hrun as (Hframe & _); [|assumption..|lia].
      rewrite Hframe by lia. apply lookup_insert_eq.
    + destruct (IH _ _ _ _ _ Hi1 ltac:(lia) Hrun j ltac:(lia))
        as (q' & Hq' & Hw).
      exists q'. split; [|exact Hw].
      rewrite lookup_insert_ne in Hq'; [exact Hq'|].
      intros Heq. apply (Hdisj j i); lia.
Qed.

(** X13: a completed bulk [Dequantize] over index ranges that do not
    overlap has changed no cell outside [dst[0 .. len)], has neither
    allocated nor freed a cell, has found an integer in every cell of
    [src[0 .. len)] and left it there, has left the dequantized value of
    that integer in the matching cell of [dst], and has only written
    destination cells that were allocated before the call. *)
Theorem Dequantize_bulk_memory_safe fuel T src dst len qp h h' k :
  in_range c_int len -> 0 <= len ->
  (forall i j, 0 <= i < len -> 0 <= j < len -> src + i <> dst + j) ->
  Dequantize_bulk fuel T src dst len qp h = Done h' k ->
  (forall a, ~ (dst <= a < dst + len) -> h' !! a = h !! a) /\
  (forall a, is_Some (h' !! a) <-> is_Some (h !! a)) /\
  (forall j, 0 <= j < len ->
     exists q, h !! (src + j) = Some (CInt q) /\
               h' !! (src + j) = Some (CInt q) /\
               h' !! (dst + j) = Some (CFloat (Dequantize T q qp))) /\
  (forall j, 0 <= j < len -> is_Some (h !! (dst + j))).
Proof.
  intros Hlen Hpos Hdisj Hrun. unfold Dequantize_bulk in Hrun.
  rewrite cast_size_t_nonneg in Hrun by assumption.
  assert (Hb : in_range size_t len) by (unfold_int; lia).
  assert (H0 : in_range size_t 0) by (unfold_int; lia).
  pose proof (loop_done_count _ _ _ _ _ _ Hb _ _ _ _ _ H0 Hpos Hrun)
    as [_ Halloc].
  pose proof (loop_done_values _ _ _ _ _ _ Hb Hdisj _ _ _ _ _ H0 Hpos Hrun)
    as Hval.
  apply loop_done_memory in Hrun as (Hframe & Hdom & _ & _);
    try assumption.
  split; [|split; [|split]].
  - intros a Ha. apply Hframe. lia.
  - exact Hdom.
  - intros j Hj. destruct (Hval j Hj) as (q & Hq & Hw).
    exists q. split; [exact Hq|]. split; [|exact Hw].
    rewrite Hframe; [exact Hq|].
    intros Ha. apply (Hdisj j (src + j - dst)); lia.
  - exact Halloc.
Qed.

Lemma Dequantize_bulk_memory_safe_witness :
  Dequantize_bulk 3 UInt8 0 10 2 example_qparams example_heap
    = Done example_heap_both 2 /\
  example_heap_both !! 0 = example_heap !! 0 /\
  (exists q, example_heap !! (0 + 1) = Some (CInt q) /\
             example_heap_both !! (0 + 1) = Some (CInt q) /\
             example_heap_both !! (10 + 1)
             = Some (CFloat (Dequantize UInt8 q example_qparams))).
Proof.
  assert (Hrun : Dequantize_bulk 3 UInt8 0 10 2 example_qparams example_heap
                 = Done example_heap_both 2) by (vm_compute; reflexivity).
  split; [exact Hrun|].
  assert (Hlen : in_range c_int 2) by (apply in_rangeb_spec; reflexivity).
  destruct (Dequantize_bulk_memory_safe 3 UInt8 0 10 2 example_qparams
              example_heap example_heap_both 2 Hlen ltac:(lia)
              ltac:(intros; lia) Hrun)
    as (Hframe & _ & Hval & _).
  split; [apply Hframe; lia|]. apply Hval. lia.
Defined.

(** X14: with more fuel than [len] the bulk loop always stops, with a
    completed run or a fault; it needs no memory at all for [len = 0], and
    it faults whenever some cell of [src[0 .. len)] or [dst[0 .. len)] is
    not allocated. *)
Theorem Dequantize_bulk_stops_or_faults fuel T src dst len qp h :
  in_range c_int len -> 0 <= len -> (Z.to_nat len < fuel)%nat ->
  Dequantize_bulk fuel T src dst len qp h <> OutOfFuel /\
  (len = 0 -> Dequantize_bulk fuel T src dst len qp h = Done h 0) /\
  ((exists j, 0 <= j < len /\
      (h !! (src + j) = None \/ h !! (dst + j) = None)) ->
   Dequantize_bulk fuel T src dst len qp h = Fault).
Proof.
  intros Hlen Hpos Hfuel.
  assert (Hb : in_range size_t len) by (unfold_int; lia).
  assert (H0 : in_range size_t 0) by (unfold_int; lia).
  assert (Hstop : Dequantize_bulk fuel T src dst len qp h <> OutOfFuel).
  { unfold Dequantize_bulk. rewrite cast_size_t_nonneg by assumption.
    apply loop_terminates; try assumption. lia. }
  split; [exact Hstop|]. split.
  - intros ->. unfold Dequantize_bulk.
    destruct fuel as [|fuel]; [lia|].
    change (cast size_t 0) with 0. apply loop_exit; [assumption..|lia].
  - intros (j & Hj & Hnone).
    destruct (Dequantize_bulk fuel T src dst len qp h) as [h' k| |] eqn:Hrun;
      [|reflexivity|congruence].
    exfalso. unfold Dequantize_bulk in Hrun.
    rewrite cast_size_t_nonneg in Hrun by assumption.
    pose proof (loop_done_count _ _ _ _ _ _ Hb _ _ _ _ _ H0 Hpos Hrun)
      as [_ Halloc].
    apply loop_done_memory in Hrun as (_ & _ & _ & Hsrc); try assumption.
    destruct Hnone as [Hn|Hn].
    + destruct (Hsrc j Hj) as [c Hc]. congruence.
    + destruct (Halloc j Hj) as [c Hc]. congruence.
Qed.

Lemma Dequantize_bulk_stops_or_faults_witness :
  Dequantize_bulk 5 UInt8 0 10 3 example_qparams example_heap = Fault.
Proof.
  destruct (Dequantize_bulk_stops_or_faults 5 UInt8 0 10 3 example_qparams
              example_heap) as (_ & _ & H).
  - apply in_rangeb_spec. reflexivity.
  - lia.
  - cbn. lia.
  - apply H. exists 2. split; [lia|]. left. vm_compute. reflexivity.
Defined.

(** On valid, disjoint buffers a run with enough fuel completes, with the
    destination cells written and the rest of the memory kept. *)
Lemma Dequantize_bulk_runs T src dst len qp h (q : Z -> Z) fuel :
  in_range c_int len -> 0 <= len -> (Z.to_nat len < fuel)%nat ->
  (forall i, 0 <= i < len -> h !! (src + i) = Some (CInt (q i))) ->
  (forall i, 0 <= i < len -> is_Some (h !! (dst + i))) ->
  (forall i j, 0 <= i < len -> 0 <= j < len -> src + i <> dst + j) ->
  exists h',
    Dequantize_bulk fuel T src dst len qp h = Done h' len /\
    (forall i, 0 <= i < len ->
       h' !! (dst + i) = Some (CFloat (Dequantize T (q i) qp))) /\
    (forall a, ~ (dst <= a < dst + len) -> h' !! a = h !! a).
Proof.
  intros Hlen Hpos Hfuel Hsrc Hdst Hdisj. unfold Dequantize_bulk.
  rewrite cast_size_t_nonneg by assumption.
  assert (Hb : in_range size_t len) by (unfold_int; lia).
  destruct (loop_runs T src dst len qp q Hb (Z.to_nat len) 0 0 h)
    as (h' & Hrun & Hwritten & Hframe); try assumption; try lia.
  exists h'. split; [|split].
  - replace fuel with (S (Z.to_nat len) + (fuel - S (Z.to_nat len)))%nat
      by lia.
    apply loop_fuel_mono. rewrite Hrun. f_equal. lia.
  - exact Hwritten.
  - intros a Ha. apply Hframe. lia.
Qed.

(** X15: on valid, disjoint buffers the bulk [Dequantize] is idempotent:
    run on the memory it has produced, it completes again and produces
    that same memory. *)
Theorem Dequantize_bulk_idempotent T src dst len qp h (q : Z -> Z) fuel :
  in_range c_int len -> 0 <= len -> (Z.to_nat len < fuel)%nat ->
  (forall i, 0 <= i < len -> h !! (src + i) = Some (CInt (q i))) ->
  (forall i, 0 <= i < len -> is_Some (h !! (dst + i))) ->
  (forall i j, 0 <= i < len -> 0 <= j < len -> src + i <> dst + j) ->
  exists h',
    Dequantize_bulk fuel T src dst len qp h = Done h' len /\
    Dequantize_bulk fuel T src dst len qp h' = Done h' len.
Proof.
  intros Hlen Hpos Hfuel Hsrc Hdst Hdisj.
  destruct (Dequantize_bulk_runs T src dst len qp h q fuel)
    as (h1 & Hrun1 & Hw1 & Hf1); try assumption.
  destruct (Dequantize_bulk_runs T src dst len qp h1 q fuel)
    as (h2 & Hrun2 & Hw2 & Hf2); try assumption.
  - intros i Hi. rewrite Hf1; [apply Hsrc; exact Hi|].
    intros Ha. apply (Hdisj i (src + i - dst)); lia.
  - intros i Hi. rewrite Hw1 by exact Hi. eauto.
  - exists h1. split; [exact Hrun1|]. rewrite Hrun2. f_equal.
    apply map_eq. intros a.
    destruct (decide (dst <= a < dst + len)) as [Ha|Ha].
    + replace a with (dst + (a - dst)) by lia.
      rewrite Hw1, Hw2 by lia. reflexivity.
    + apply Hf2. exact Ha.
Qed.

Lemma Dequantize_bulk_idempotent_witness :
  exists h',
    Dequantize_bulk 3 UInt8 0 10 2 example_qparams example_heap = Done h' 2 /\
    Dequantize_bulk 3 UInt8 0 10 2 example_qparams h' = Done h' 2.
Proof.
  apply (Dequantize_bulk_idempotent UInt8 0 10 2 example_qparams example_heap
           example_src 3).
  - apply in_rangeb_spec. reflexivity.
  - lia.
  - cbn. lia.
  - intros i Hi. assert (Hc : i = 0 \/ i = 1) by lia.
    destruct Hc as [-> | ->]; vm_compute; reflexivity.
  - intros i Hi. assert (Hc : i = 0 \/ i = 1) by lia.
    destruct Hc as [-> | ->]; exists (CFloat (S754_zero false));
      vm_compute; reflexivity.
  - intros i j Hi Hj. lia.
Defined.

(** A completed run up to [bound1] is the beginning of every run up to a
    larger bound. *)
Lemma loop_prefix T src dst bound1 bound2 qp :
  in_range size_t bound1 -> in_range size_t bound2 -> bound1 <= bound2 ->
  forall fuel1 i n h h1 n1,
    in_range size_t i -> i <= bound1 ->
    Dequantize_loop fuel1 T src dst bound1 qp i n h = Done h1 n1 ->
    forall fuel2 r,
      Dequantize_loop fuel2 T src dst bound2 qp bound1 n1 h1 = r ->
      r <> OutOfFuel ->
      Dequantize_loop (fuel1 + fuel2) T src dst bound2 qp i n h = r.
Proof.
  intros Hb1 Hb2 Hle.
  induction fuel1 as [|fuel1 IH]; intros i n h h1 n1 Hi Hi1 Hrun fuel2 r Hr Hne.
  - discriminate Hrun.
  - destruct (Z.ltb_spec i bound1) as [Hlt|Hge].
    + rewrite loop_step in Hrun by assumption.
      change (S fuel1 + fuel2)%nat with (S (fuel1 + fuel2)).
      rewrite loop_step by (assumption || lia).
      destruct (h !! (src + i)) as [[q|f]|]; try discriminate Hrun.
      destruct (h !! (dst + i)); try discriminate Hrun.
      apply (IH _ _ _ h1 n1); try assumption; [unfold_int; lia|lia].
    + rewrite loop_exit in Hrun by assumption. injection Hrun as <- <-.
      assert (i = bound1) by lia. subst i.
      rewrite Nat.add_comm. apply loop_fuel_mono_any; assumption.
Qed.

(** A run over the buffers advanced by [a] elements is the tail of a run
    over the original buffers. *)
Lemma loop_shift T src dst a b qp :
  0 <= a -> 0 <= b -> in_range size_t (a + b) ->
  forall fuel i n h h2 k,
    0 <= i <= b ->
    Dequantize_loop fuel T (src + a) (dst + a) b qp i n h = Done h2 k ->
    Dequantize_loop fuel T src dst (a + b) qp (a + i) (n + a) h
      = Done h2 (k + a).
Proof.
  intros Ha Hb Hab.
  assert (Hbr : in_range size_t b) by (unfold_int; lia).
  induction fuel as [|fuel IH]; intros i n h h2 k Hi Hrun.
  - discriminate Hrun.
  - assert (Hir : in_range size_t i) by (unfold_int; lia).
    assert (Hair : in_range size_t (a + i)) by (unfold_int; lia).
    destruct (Z.ltb_spec i b) as [Hlt|Hge].
    + rewrite loop_step in Hrun by assumption.
      rewrite loop_step by (assumption || lia).
      replace (src + (a + i)) with (src + a + i) by lia.
      replace (dst + (a + i)) with (dst + a + i) by lia.
      destruct (h !! (src + a + i)) as [[q|f]|]; try discriminate Hrun.
      destruct (h !! (dst + a + i)); try discriminate Hrun.
      replace (a + i + 1) with (a + (i + 1)) by lia.
      replace (n + a + 1) with (n + 1 + a) by lia.
      apply IH; [lia|exact Hrun].
    + rewrite loop_exit in Hrun by assumption. injection Hrun as <- <-.
      apply loop_exit; [assumption..|lia].
Qed.

(** X16: the bulk [Dequantize] composes over chunks: a completed run over
    the first [a] elements followed by a completed run over the next [b]
    elements, on the buffers advanced by [a], is a completed run over all
    [a + b] elements, with the same final memory. *)
Theorem Dequantize_bulk_chunks T src dst a b qp h h1 h2 k1 k2 fuel1 fuel2 :
  0 <= a -> 0 <= b -> in_range c_int (a + b) ->
  Dequantize_bulk fuel1 T src dst a qp h = Done h1 k1 ->
  Dequantize_bulk fuel2 T (src + a) (dst + a) b qp h1 = Done h2 k2 ->
  k1 = a /\ k2 = b /\
  Dequantize_bulk (fuel1 + fuel2) T src dst (a + b) qp h = Done h2 (a + b).
Proof.
  intros Ha Hb Hab Hrun1 Hrun2. unfold Dequantize_bulk in *.
  assert (Har : in_range c_int a) by (unfold_int; lia).
  assert (Hbr : in_range c_int b) by (unfold_int; lia).
  rewrite cast_size_t_nonneg in * by (assumption || lia).
  assert (Has : in_range size_t a) by (unfold_int; lia).
  assert (Hbs : in_range size_t b) by (unfold_int; lia).
  assert (Habs : in_range size_t (a + b)) by (unfold_int; lia).
  assert (H0 : in_range size_t 0) by (unfold_int; lia).
  pose proof (loop_done_count _ _ _ _ _ _ Has _ _ _ _ _ H0 Ha Hrun1)
    as [Hk1 _].
  pose proof (loop_done_count _ _ _ _ _ _ Hbs _ _ _ _ _ H0 Hb Hrun2)
    as [Hk2 _].
  split; [lia|]. split; [lia|].
  apply (loop_shift T src dst a b qp Ha Hb Habs) in Hrun2; [|lia].
  rewrite Z.add_0_r, Z.add_0_l in Hrun2.
  replace (a + b) with (k2 + a) at 2 by lia.
  apply (loop_prefix T src dst a (a + b) qp Has Habs ltac:(lia)
           fuel1 0 0 h h1 a H0 Ha).
  - rewrite Hrun1. f_equal. lia.
  - exact Hrun2.
  - discriminate.
Qed.

Lemma Dequantize_bulk_chunks_witness :
  Dequantize_bulk 2 UInt8 0 10 1 example_qparams example_heap
    = Done example_heap_first 1 /\
  Dequantize_bulk 2 UInt8 (0 + 1) (10 + 1) 1 example_qparams
    example_heap_first = Done example_heap_both 1 /\
  Dequantize_bulk (2 + 2) UInt8 0 10 (1 + 1) example_qparams example_heap
    = Done example_heap_both (1 + 1).
Proof.
  assert (H1 : Dequantize_bulk 2 UInt8 0 10 1 example_qparams example_heap
               = Done example_heap_first 1) by (vm_compute; reflexivity).
  assert (H2 : Dequantize_bulk 2 UInt8 (0 + 1) (10 + 1) 1 example_qparams
                 example_heap_first = Done example_heap_both 1)
    by (vm_compute; reflexivity).
  assert (Hi : in_range c_int (1 + 1)) by (apply in_rangeb_spec; reflexivity).
  split; [exact H1|]. split; [exact H2|].
  exact (proj2 (proj2 (Dequantize_bulk_chunks UInt8 0 10 1 1 example_qparams
                         example_heap example_heap_first example_heap_both
                         1 1 2 2 ltac:(lia) ltac:(lia) Hi H1 H2))).
Defined.
